(** * goutils: color, textutil and spinner packages

    A shallow embedding of three packages of [TouchBistro/goutils]
    together with the properties their documentation states about them.

    - [Color]: [color/color.go], the ANSI colour helpers and the
      [NO_COLOR] switch.
    - [Textutil]: [textutil], the [${var}] expanders: the two that scan
      the source, and the one with the regular expression.
    - [Spinner]: [spinner], the terminal spinner with the debug writer.
    - [SpinnerOld]: [setMsg] of the copy of [spinner] without the debug
      writer.

    Go strings are byte sequences; they are modelled by [string], whose
    characters are the 256 values of [ascii].  Go's [int] is modelled by
    [Z]; where the code can leave the 64-bit range the wrap-around is
    written out. *)

From Stdlib Require Import ZArith NArith List Bool Lia.
From Stdlib Require Import Ascii String DecimalString.
From Stdlib.Strings Require Import Byte.
Import ListNotations.

Local Open Scope string_scope.
Local Open Scope Z_scope.

(* ================================================================== *)
(** * Go primitives used by the packages *)
(* ================================================================== *)

Module Go.

(** [len(s)] of a string. *)
Definition len (s : string) : Z := Z.of_nat (String.length s).

(** [s[i]]: [None] stands for the run-time panic "index out of range". *)
Definition index (s : string) (i : Z) : option ascii :=
  if (0 <=? i) && (i <? len s) then String.get (Z.to_nat i) s else None.

(** [s[lo:hi]]: [None] stands for the panic "slice bounds out of range". *)
Definition slice (s : string) (lo hi : Z) : option string :=
  if (0 <=? lo) && (lo <=? hi) && (hi <=? len s)
  then Some (String.substring (Z.to_nat lo) (Z.to_nat (hi - lo)) s)
  else None.

(** [len(b)] of a byte slice. *)
Definition blen (b : list byte) : Z := Z.of_nat (List.length b).

(** [b[i]] on a byte slice. *)
Definition bindex (b : list byte) (i : Z) : option byte :=
  if (0 <=? i) && (i <? blen b) then nth_error b (Z.to_nat i) else None.

(** [b[lo:hi]] on a byte slice. *)
Definition bslice (b : list byte) (lo hi : Z) : option (list byte) :=
  if (0 <=? lo) && (lo <=? hi) && (hi <=? blen b)
  then Some (firstn (Z.to_nat (hi - lo)) (skipn (Z.to_nat lo) b))
  else None.

(** [strings.Repeat(c, n)]. *)
Fixpoint Repeat (c : string) (n : nat) : string :=
  match n with
  | O => ""
  | S n' => c ++ Repeat c n'
  end.

(** The verb [%d] of package [fmt] on an integer. *)
Definition fmt_d (z : Z) : string := NilZero.string_of_int (Z.to_int z).

(** One-character strings for the control characters the code writes. *)
Definition chr (n : nat) : string := String (ascii_of_nat n) EmptyString.
Definition ESC : string := chr 27.
Definition CR : string := chr 13.
Definition BS : string := chr 8.
Definition LF : string := chr 10.

(** Bounds of a 64-bit [int] and its wrap-around. *)
Definition MaxInt : Z := 2 ^ 63 - 1.
Definition MinInt : Z := - 2 ^ 63.
Definition wrap (z : Z) : Z := (z + 2 ^ 63) mod 2 ^ 64 - 2 ^ 63.
Definition is_int (z : Z) : Prop := MinInt <= z <= MaxInt.

End Go.

(* ================================================================== *)
(** * Package color *)
(* ================================================================== *)

Module Color.
Import Go.

(** [type ansiCode uint8] and the [iota + 30] block. *)
Definition ansiCode := N.
Definition fgBlack : ansiCode := 30%N.
Definition fgRed : ansiCode := 31%N.
Definition fgGreen : ansiCode := 32%N.
Definition fgYellow : ansiCode := 33%N.
Definition fgBlue : ansiCode := 34%N.
Definition fgMagenta : ansiCode := 35%N.
Definition fgCyan : ansiCode := 36%N.
Definition fgWhite : ansiCode := 37%N.
Definition fgReset : ansiCode := 39%N.

(** The two package-level variables. *)
Record Vars := mkVars { noColor : bool; enabled : bool }.

(** State before [init] runs: [noColor = false], [enabled] has the zero
    value. *)
Definition vars0 : Vars := mkVars false false.

(** The process environment, as [os.LookupEnv] sees it. *)
Definition Env := list (string * string).

Fixpoint LookupEnv (env : Env) (key : string) : string * bool :=
  match env with
  | [] => ("", false)
  | (k, v) :: rest => if String.eqb k key then (v, true) else LookupEnv rest key
  end.

Definition init (env : Env) : Vars :=
  let v := vars0 in
  let v := if snd (LookupEnv env "NO_COLOR")
           then mkVars true (enabled v) else v in
  mkVars (noColor v) (negb (noColor v)).

(** [regex.ReplaceAllString(s, "")] for a pattern that matches exactly the
    literal [pat]: every leftmost, non-overlapping occurrence is dropped.
    [skip] counts the characters of a match still to be dropped. *)
Fixpoint removeAll (pat s : string) (skip : nat) : string :=
  match s with
  | EmptyString => EmptyString
  | String c rest =>
      match skip with
      | S k => removeAll pat rest k
      | O => if String.prefix pat s
             then removeAll pat rest (String.length pat - 1)
             else String c (removeAll pat rest O)
      end
  end.

Definition code_d (c : ansiCode) : string := fmt_d (Z.of_N c).

Definition apply (v : Vars) (s : string) (start end_ : ansiCode) : string :=
  if negb (enabled v) then s
  else
    let regex := ESC ++ "[" ++ code_d end_ ++ "m" in
    let sanitized := removeAll regex s O in
    ESC ++ "[" ++ code_d start ++ "m" ++ sanitized
        ++ ESC ++ "[" ++ code_d end_ ++ "m".

Definition SetEnabled (e : bool) (v : Vars) : Vars :=
  if noColor v then v else mkVars (noColor v) e.

Definition Black (v : Vars) (s : string) : string := apply v s fgBlack fgReset.
Definition Red (v : Vars) (s : string) : string := apply v s fgRed fgReset.
Definition Green (v : Vars) (s : string) : string := apply v s fgGreen fgReset.
Definition Yellow (v : Vars) (s : string) : string := apply v s fgYellow fgReset.
Definition Blue (v : Vars) (s : string) : string := apply v s fgBlue fgReset.
Definition Magenta (v : Vars) (s : string) : string := apply v s fgMagenta fgReset.
Definition Cyan (v : Vars) (s : string) : string := apply v s fgCyan fgReset.
Definition White (v : Vars) (s : string) : string := apply v s fgWhite fgReset.

(** A program's calls to [SetEnabled], in order. *)
Definition setEnabledAll (calls : list bool) (v : Vars) : Vars :=
  fold_left (fun v e => SetEnabled e v) calls v.

(** The eight colour functions, each with the code it starts with. *)
Definition colors : list (ansiCode * (Vars -> string -> string)) :=
  [(fgBlack, Black); (fgRed, Red); (fgGreen, Green); (fgYellow, Yellow);
   (fgBlue, Blue); (fgMagenta, Magenta); (fgCyan, Cyan); (fgWhite, White)].

(** The escape sequence of a code, as [apply] formats it. *)
Definition sgr (c : ansiCode) : string := ESC ++ "[" ++ code_d c ++ "m".

(** Whether [pat] occurs in [s]. *)
Fixpoint occurs (pat s : string) : bool :=
  String.prefix pat s
  || match s with
     | EmptyString => false
     | String _ rest => occurs pat rest
     end.

(** Whether the escape character occurs in [s]. *)
Fixpoint hasEsc (s : string) : bool :=
  match s with
  | EmptyString => false
  | String c rest => Ascii.eqb c (ascii_of_nat 27) || hasEsc rest
  end.

End Color.

(* ================================================================== *)
(** * Package textutil *)
(* ================================================================== *)

Module Textutil.
Import Go.

Definition dollar : byte := x24.
Definition lbrace : byte := x7b.
Definition rbrace : byte := x7d.

(** The inner loop of [ExpandVariables]:
    [for j := varStart; j < len(src); j++], leaving [varEnd] ([-1] when no
    closing brace is found). *)
Fixpoint scanBytes (fuel : nat) (src : list byte) (j : Z) : option Z :=
  match fuel with
  | O => None
  | S fuel' =>
      if j <? blen src then
        match bindex src j with
        | None => None
        | Some c => if Byte.eqb c rbrace then Some j
                    else scanBytes fuel' src (j + 1)
        end
      else Some (-1)
  end.

(** The outer loop of [ExpandVariables].  The loop state is [i], [end] and
    [buf] ([None] is the nil slice); the result is [(end, buf)] when the loop
    is left.  Each call is the loop test followed by one body; the [i++] of
    the [for] clause is the [+ 1] of the recursive calls.  Both [src[i]] and
    [src[i+1]] are read before they are compared, where Go reads the second
    only after the first matched; the test [i+2 > len(src)] above them keeps
    both in range.  [None] stands for a panic, or for fuel that ran out. *)
Fixpoint loopBytes (fuel : nat) (src : list byte) (mapping : string -> string)
    (i end_ : Z) (buf : option (list byte)) : option (Z * option (list byte)) :=
  match fuel with
  | O => None
  | S fuel' =>
      if negb (i <? blen src) then Some (end_, buf)
      else if i + 2 >? blen src then Some (end_, buf)
      else
        match bindex src i, bindex src (i + 1) with
        | Some c0, Some c1 =>
            if negb (Byte.eqb c0 dollar && Byte.eqb c1 lbrace)
            then loopBytes fuel' src mapping (i + 1) end_ buf
            else
              let buf := match buf with None => [] | Some b => b end in
              match bslice src end_ i with
              | None => None
              | Some chunk =>
                  let buf := (buf ++ chunk)%list in
                  let varStart := i + 2 in
                  match scanBytes (S (List.length src)) src varStart with
                  | None => None
                  | Some varEnd =>
                      if varEnd =? -1
                      then loopBytes fuel' src mapping (i + 1 + 1) end_ (Some buf)
                      else if varEnd =? varStart
                      then loopBytes fuel' src mapping (i + 2 + 1) end_ (Some buf)
                      else
                        match bslice src varStart varEnd with
                        | None => None
                        | Some name =>
                            let buf :=
                              (buf ++ list_byte_of_string
                                        (mapping (string_of_list_byte name)))%list in
                            let i := i + blen name + 2 in
                            let end_ := i + 1 in
                            loopBytes fuel' src mapping (i + 1) end_ (Some buf)
                        end
                  end
              end
        | _, _ => None
        end
  end.

(** [ExpandVariables(src, mapping)].  [None] would be a panic. *)
Definition ExpandVariables (src : list byte) (mapping : string -> string)
  : option (list byte) :=
  match loopBytes (S (List.length src)) src mapping 0 0 None with
  | None => None
  | Some (end_, None) => Some src
  | Some (end_, Some buf) =>
      match bslice src end_ (blen src) with
      | None => None
      | Some tail => Some (buf ++ tail)%list
      end
  end.

Definition rbrace_c : ascii := "}"%char.

(** The inner loop of [ExpandVariablesString]. *)
Fixpoint scanString (fuel : nat) (src : string) (j : Z) : option Z :=
  match fuel with
  | O => None
  | S fuel' =>
      if j <? len src then
        match index src j with
        | None => None
        | Some c => if Ascii.eqb c rbrace_c then Some j
                    else scanString fuel' src (j + 1)
        end
      else Some (-1)
  end.

(** The outer loop of [ExpandVariablesString]; [sb] is the builder's
    content, [None] while the pointer is nil. *)
Fixpoint loopString (fuel : nat) (src : string) (mapping : string -> string)
    (i end_ : Z) (sb : option string) : option (Z * option string) :=
  match fuel with
  | O => None
  | S fuel' =>
      if negb (i <? len src) then Some (end_, sb)
      else if i + 2 >? len src then Some (end_, sb)
      else
        match index src i, index src (i + 1) with
        | Some c0, Some c1 =>
            if negb (Ascii.eqb c0 "$" && Ascii.eqb c1 "{")
            then loopString fuel' src mapping (i + 1) end_ sb
            else
              let sb := match sb with None => "" | Some b => b end in
              match slice src end_ i with
              | None => None
              | Some chunk =>
                  let sb := sb ++ chunk in
                  let varStart := i + 2 in
                  match scanString (S (String.length src)) src varStart with
                  | None => None
                  | Some varEnd =>
                      if varEnd =? -1
                      then loopString fuel' src mapping (i + 1 + 1) end_ (Some sb)
                      else if varEnd =? varStart
                      then loopString fuel' src mapping (i + 2 + 1) end_ (Some sb)
                      else
                        match slice src varStart varEnd with
                        | None => None
                        | Some name =>
                            let sb := sb ++ mapping name in
                            let i := i + len name + 2 in
                            let end_ := i + 1 in
                            loopString fuel' src mapping (i + 1) end_ (Some sb)
                        end
                  end
              end
        | _, _ => None
        end
  end.

(** [ExpandVariablesString(src, mapping)]. *)
Definition ExpandVariablesString (src : string) (mapping : string -> string)
  : option string :=
  match loopString (S (String.length src)) src mapping 0 0 None with
  | None => None
  | Some (end_, None) => Some src
  | Some (end_, Some sb) =>
      match slice src end_ (len src) with
      | None => None
      | Some tail => Some (sb ++ tail)
      end
  end.

(** The loop state of [ExpandVariablesString] seen as a loop state of
    [ExpandVariables]: the builder's content as bytes. *)
Definition liftState (r : Z * option string) : Z * option (list byte) :=
  (fst r, option_map list_byte_of_string (snd r)).

(** The mapping of the package's tests ([testMapping]). *)
Definition testMapping (name : string) : string :=
  if String.prefix "@env:" name
  then "$" ++ String.substring 5 (String.length name - 5) name
  else if String.eqb name "HOME" then "/home/foo"
  else if String.eqb name "first" then "abc"
  else if String.eqb name "second" then "def"
  else "UNKNOWN_VAR".

(** The class [[\w-]] of the pattern: [\w] is [[0-9A-Za-z_]] in the syntax
    of package [regexp]. *)
Definition isNameByte (b : byte) : bool :=
  let n := Byte.to_nat b in
  ((48 <=? n) && (n <=? 57) || (65 <=? n) && (n <=? 90)
   || (97 <=? n) && (n <=? 122) || (n =? 95) || (n =? 45))%nat.

(** The longest run of bytes of the class at the head of [src]. *)
Fixpoint nameRun (src : list byte) : nat :=
  match src with
  | b :: rest => if isNameByte b then S (nameRun rest) else O
  | [] => O
  end.

(** A match of [\$\{([\w-]+)\}] at the head of [src]: the length of the
    group.  The closing brace is not in the class, so the group is the whole
    run and the byte after it must be the brace. *)
Definition matchHere (src : list byte) : option nat :=
  match src with
  | c0 :: c1 :: rest =>
      if Byte.eqb c0 dollar && Byte.eqb c1 lbrace then
        let n := nameRun rest in
        if (0 <? n)%nat then
          match nth_error rest n with
          | Some c => if Byte.eqb c rbrace then Some n else None
          | None => None
          end
        else None
      else None
  | _ => None
  end.

(** [regex.FindAllSubmatchIndex(src, -1)] for this pattern: the successive
    leftmost matches, without overlap, each with the bounds of the match
    and of its group.  [off] is the index of the head of [src] in the whole
    slice; [skip] counts the bytes of a match still to be passed. *)
Fixpoint FindAllSubmatchIndex (src : list byte) (off : Z) (skip : nat)
  : list (Z * Z * Z * Z) :=
  match src with
  | [] => []
  | _ :: rest =>
      match skip with
      | S k => FindAllSubmatchIndex rest (off + 1) k
      | O =>
          match matchHere src with
          | Some n =>
              (off, off + Z.of_nat n + 3, off + 2, off + 2 + Z.of_nat n)
              :: FindAllSubmatchIndex rest (off + 1) (n + 2)
          | None => FindAllSubmatchIndex rest (off + 1) O
          end
      end
  end.

(** The loop of [ExpandVariablesRegex] over the matches; the state is
    [lastEndIndex] and [result]. *)
Fixpoint loopRegex (ms : list (Z * Z * Z * Z)) (src : list byte)
    (mapping : string -> string) (lastEndIndex : Z) (result : list byte)
  : option (Z * list byte) :=
  match ms with
  | [] => Some (lastEndIndex, result)
  | (startIndex, endIndex, startIndexGroup, endIndexGroup) :: rest =>
      match bslice src startIndexGroup endIndexGroup with
      | None => None
      | Some varName =>
          match bslice src lastEndIndex startIndex with
          | None => None
          | Some chunk =>
              let result := (result ++ chunk)%list in
              let result :=
                (result ++ list_byte_of_string
                             (mapping (string_of_list_byte varName)))%list in
              loopRegex rest src mapping endIndex result
          end
      end
  end.

(** [ExpandVariablesRegex(src, mapping)]. *)
Definition ExpandVariablesRegex (src : list byte) (mapping : string -> string)
  : option (list byte) :=
  match loopRegex (FindAllSubmatchIndex src 0 O) src mapping 0 [] with
  | None => None
  | Some (lastEndIndex, result) =>
      match bslice src lastEndIndex (blen src) with
      | None => None
      | Some tail => Some (result ++ tail)%list
      end
  end.

(** Whether ["${"] occurs in a string. *)
Fixpoint hasOpen (s : string) : bool :=
  match s with
  | EmptyString => false
  | String c rest =>
      (Ascii.eqb c "$"
       && match rest with
          | String d _ => Ascii.eqb d "{"
          | EmptyString => false
          end)
      || hasOpen rest
  end.

(** Whether ["}"] occurs in a string. *)
Fixpoint hasClose (s : string) : bool :=
  match s with
  | EmptyString => false
  | String c rest => Ascii.eqb c rbrace_c || hasClose rest
  end.

(** Whether every character of a name is of the class [[\w-]]. *)
Fixpoint wordName (s : string) : bool :=
  match s with
  | EmptyString => true
  | String c rest => isNameByte (byte_of_ascii c) && wordName rest
  end.

(** A template: pieces of text, each followed by the placeholder of a name,
    and a last piece of text. *)
Fixpoint template (segs : list (string * string)) (last : string) : string :=
  match segs with
  | [] => last
  | (pre, name) :: rest => pre ++ "${" ++ name ++ "}" ++ template rest last
  end.

(** The template with each placeholder replaced by the mapping of its name. *)
Fixpoint expanded (mapping : string -> string) (segs : list (string * string))
    (last : string) : string :=
  match segs with
  | [] => last
  | (pre, name) :: rest => pre ++ mapping name ++ expanded mapping rest last
  end.

(** No piece of text contains ["${"], and no name is empty or contains
    ["}"]. *)
Definition wellFormed (segs : list (string * string)) (last : string) : bool :=
  forallb (fun seg =>
             negb (hasOpen (fst seg)) && negb (hasClose (snd seg))
             && negb (String.eqb (snd seg) ""))
          segs
  && negb (hasOpen last).

(** The bounds [FindAllSubmatchIndex] finds in a well-formed template with
    names of the class, when the template begins at index [d]. *)
Fixpoint positions (segs : list (string * string)) (d : Z)
  : list (Z * Z * Z * Z) :=
  match segs with
  | [] => []
  | (pre, name) :: rest =>
      (d + len pre, d + len pre + len name + 3,
       d + len pre + 2, d + len pre + 2 + len name)
      :: positions rest (d + len pre + len name + 3)
  end.

(** [expanded] without the last piece of text. *)
Fixpoint expandedBody (mapping : string -> string)
    (segs : list (string * string)) : string :=
  match segs with
  | [] => ""
  | (pre, name) :: rest => pre ++ mapping name ++ expandedBody mapping rest
  end.

(** [template] without the last piece of text. *)
Fixpoint templateBody (segs : list (string * string)) : string :=
  match segs with
  | [] => ""
  | (pre, name) :: rest => pre ++ "${" ++ name ++ "}" ++ templateBody rest
  end.

(** The content of the builder, nothing while the pointer is nil. *)
Definition str (sb : option string) : string :=
  match sb with None => "" | Some b => b end.

(** [varEnd] seen from [d] bytes further left; [-1] stays [-1]. *)
Definition shiftEnd (d r : Z) : Z := if r =? -1 then -1 else d + r.

(** What [ExpandVariablesString] returns once its loop is left with
    [(end, sb)]. *)
Definition finish (src : string) (r : Z * option string) : option string :=
  match snd r with
  | None => Some src
  | Some sb =>
      match slice src (fst r) (len src) with
      | None => None
      | Some tail => Some (sb ++ tail)
      end
  end.

End Textutil.

(* ================================================================== *)
(** * Package spinner (the variant with the debug writer) *)
(* ================================================================== *)

Module Spinner.
Import Go.

(** What the package takes from outside the repository: [runtime.GOOS] and
    [utf8.RuneCountInString]. *)
Class Externals := {
  GOOS : string;
  RuneCountInString : string -> nat
}.

Definition frames : list string :=
  ["⠋"; "⠙"; "⠹"; "⠸"; "⠼"; "⠴"; "⠦"; "⠧"; "⠇"; "⠏"].

(** An [io.Writer] is a handle on a sink; the sinks' contents live in the
    [World], so two handles may name the same sink.  Writers are taken to
    accept what they are given: a nil writer and write errors are not
    modelled. *)
Definition Writer := nat.
Definition Stderr : Writer := 2%nat.

(** [type Spinner struct].  [mu] says whether the mutex is locked;
    [stopChan] is the number of values in the channel's buffer, whose
    capacity is 1. *)
Record Spinner := mkSpinner {
  interval : Z;
  w : Writer;
  debugw : option Writer;
  mu : bool;
  stopChan : nat;
  active : bool;
  lastOutput : string;
  startMsg : string;
  stopMsg : string;
  msg : string;
  count : Z;
  completed : Z;
  maxMsgLen : Z;
  debugMsgs : list string
}.

Definition set_interval (x : Z) (sp : Spinner) : Spinner :=
  mkSpinner x (w sp) (debugw sp) (mu sp) (stopChan sp) (active sp)
    (lastOutput sp) (startMsg sp) (stopMsg sp) (msg sp) (count sp)
    (completed sp) (maxMsgLen sp) (debugMsgs sp).
Definition set_w (x : Writer) (sp : Spinner) : Spinner :=
  mkSpinner (interval sp) x (debugw sp) (mu sp) (stopChan sp) (active sp)
    (lastOutput sp) (startMsg sp) (stopMsg sp) (msg sp) (count sp)
    (completed sp) (maxMsgLen sp) (debugMsgs sp).
Definition set_debugw (x : option Writer) (sp : Spinner) : Spinner :=
  mkSpinner (interval sp) (w sp) x (mu sp) (stopChan sp) (active sp)
    (lastOutput sp) (startMsg sp) (stopMsg sp) (msg sp) (count sp)
    (completed sp) (maxMsgLen sp) (debugMsgs sp).
Definition set_mu (x : bool) (sp : Spinner) : Spinner :=
  mkSpinner (interval sp) (w sp) (debugw sp) x (stopChan sp) (active sp)
    (lastOutput sp) (startMsg sp) (stopMsg sp) (msg sp) (count sp)
    (completed sp) (maxMsgLen sp) (debugMsgs sp).
Definition set_stopChan (x : nat) (sp : Spinner) : Spinner :=
  mkSpinner (interval sp) (w sp) (debugw sp) (mu sp) x (active sp)
    (lastOutput sp) (startMsg sp) (stopMsg sp) (msg sp) (count sp)
    (completed sp) (maxMsgLen sp) (debugMsgs sp).
Definition set_active (x : bool) (sp : Spinner) : Spinner :=
  mkSpinner (interval sp) (w sp) (debugw sp) (mu sp) (stopChan sp) x
    (lastOutput sp) (startMsg sp) (stopMsg sp) (msg sp) (count sp)
    (completed sp) (maxMsgLen sp) (debugMsgs sp).
Definition set_lastOutput (x : string) (sp : Spinner) : Spinner :=
  mkSpinner (interval sp) (w sp) (debugw sp) (mu sp) (stopChan sp) (active sp)
    x (startMsg sp) (stopMsg sp) (msg sp) (count sp) (completed sp)
    (maxMsgLen sp) (debugMsgs sp).
Definition set_startMsg (x : string) (sp : Spinner) : Spinner :=
  mkSpinner (interval sp) (w sp) (debugw sp) (mu sp) (stopChan sp) (active sp)
    (lastOutput sp) x (stopMsg sp) (msg sp) (count sp) (completed sp)
    (maxMsgLen sp) (debugMsgs sp).
Definition set_stopMsg (x : string) (sp : Spinner) : Spinner :=
  mkSpinner (interval sp) (w sp) (debugw sp) (mu sp) (stopChan sp) (active sp)
    (lastOutput sp) (startMsg sp) x (msg sp) (count sp) (completed sp)
    (maxMsgLen sp) (debugMsgs sp).
Definition set_msg (x : string) (sp : Spinner) : Spinner :=
  mkSpinner (interval sp) (w sp) (debugw sp) (mu sp) (stopChan sp) (active sp)
    (lastOutput sp) (startMsg sp) (stopMsg sp) x (count sp) (completed sp)
    (maxMsgLen sp) (debugMsgs sp).
Definition set_count (x : Z) (sp : Spinner) : Spinner :=
  mkSpinner (interval sp) (w sp) (debugw sp) (mu sp) (stopChan sp) (active sp)
    (lastOutput sp) (startMsg sp) (stopMsg sp) (msg sp) x (completed sp)
    (maxMsgLen sp) (debugMsgs sp).
Definition set_completed (x : Z) (sp : Spinner) : Spinner :=
  mkSpinner (interval sp) (w sp) (debugw sp) (mu sp) (stopChan sp) (active sp)
    (lastOutput sp) (startMsg sp) (stopMsg sp) (msg sp) (count sp) x
    (maxMsgLen sp) (debugMsgs sp).
Definition set_maxMsgLen (x : Z) (sp : Spinner) : Spinner :=
  mkSpinner (interval sp) (w sp) (debugw sp) (mu sp) (stopChan sp) (active sp)
    (lastOutput sp) (startMsg sp) (stopMsg sp) (msg sp) (count sp)
    (completed sp) x (debugMsgs sp).
Definition set_debugMsgs (x : list string) (sp : Spinner) : Spinner :=
  mkSpinner (interval sp) (w sp) (debugw sp) (mu sp) (stopChan sp) (active sp)
    (lastOutput sp) (startMsg sp) (stopMsg sp) (msg sp) (count sp)
    (completed sp) (maxMsgLen sp) x.

(** The type [Option] (a function on a spinner) and its seven constructors. *)
Inductive Option :=
| WithInterval (d : Z)
| WithWriter (wr : Writer)
| WithDebugWriter (wr : Writer)
| WithStartMessage (m : string)
| WithStopMessage (m : string)
| WithCount (c : Z)
| WithMaxMessageLength (l : Z).

Definition applyOption (sp : Spinner) (opt : Option) : Spinner :=
  match opt with
  | WithInterval d => set_interval d sp
  | WithWriter wr => set_w wr sp
  | WithDebugWriter wr => set_debugw (Some wr) sp
  | WithStartMessage m => set_startMsg m sp
  | WithStopMessage m => set_stopMsg m sp
  | WithCount c => set_count c sp
  | WithMaxMessageLength l => set_maxMsgLen l sp
  end.

(** [time.Millisecond], in nanoseconds. *)
Definition Millisecond : Z := 1000000.

Definition New (opts : list Option) : Spinner :=
  let sp := {| interval := 100 * Millisecond;
               w := Stderr;
               debugw := None;
               mu := false;
               stopChan := 0;
               active := false;
               lastOutput := "";
               startMsg := "";
               stopMsg := "";
               msg := "";
               count := 1;
               completed := 0;
               maxMsgLen := 80;
               debugMsgs := [] |} in
  fold_left applyOption opts sp.

(** A goroutine executing [run]: about to evaluate the [select] of frame [i],
    or past its [default] branch and about to take the mutex. *)
Inductive Task :=
| AtSelect (i : nat)
| AtLock (i : nat).

(** The spinner, the sinks its writers name, the goroutines that execute
    [run], and whether a [Stop] call is suspended in its channel send (it
    keeps the mutex locked while it waits). *)
Record World := mkWorld {
  spinner : Spinner;
  sinks : Writer -> string;
  tasks : list Task;
  suspended : bool
}.

(** How a call ends: it returns; it panics (what was written to the spinner
    stays written); or it does not get further, waiting for the mutex or
    for room in the channel. *)
Inductive outcome (A : Type) : Type :=
| Returned (a : A)
| Panicked
| Blocked.
Arguments Returned {A} a.
Arguments Panicked {A}.
Arguments Blocked {A}.

Definition M (A : Type) : Type := World -> outcome A * World.

Definition ret {A} (a : A) : M A := fun st => (Returned a, st).

Definition bind {A B} (m : M A) (k : A -> M B) : M B :=
  fun st =>
    match m st with
    | (Returned a, st') => k a st'
    | (Panicked, st') => (Panicked, st')
    | (Blocked, st') => (Blocked, st')
    end.

Notation "x <- c1 ;; c2" := (bind c1 (fun x => c2))
  (at level 61, c1 at next level, right associativity).
Notation "c1 ;; c2" := (bind c1 (fun _ => c2))
  (at level 61, right associativity).

Definition panic {A} : M A := fun st => (Panicked, st).
Definition block {A} : M A := fun st => (Blocked, st).

(** A field of the spinner. *)
Definition field {A} (f : Spinner -> A) : M A :=
  fun st => (Returned (f (spinner st)), st).

(** An assignment to a field of the spinner. *)
Definition assign (f : Spinner -> Spinner) : M unit :=
  fun st => (Returned tt,
             mkWorld (f (spinner st)) (sinks st) (tasks st) (suspended st)).

(** Indexing and slicing, with their panics. *)
Definition at_ (m : string) (i : Z) : M ascii :=
  match index m i with Some c => ret c | None => panic end.
Definition sub (m : string) (lo hi : Z) : M string :=
  match slice m lo hi with Some r => ret r | None => panic end.

(** The sinks after [x] was written through [wr]. *)
Definition writeTo (wr : Writer) (x : string) (sk : Writer -> string)
  : Writer -> string :=
  fun k => if Nat.eqb k wr then sk k ++ x else sk k.

(** [fmt.Fprint(wr, x)]: the sink [wr] names receives [x]. *)
Definition Fprint (wr : Writer) (x : string) : M unit :=
  fun st => (Returned tt,
             mkWorld (spinner st) (writeTo wr x (sinks st))
                     (tasks st) (suspended st)).

(** [fmt.Fprintln(wr, x)]. *)
Definition Fprintln (wr : Writer) (x : string) : M unit := Fprint wr (x ++ LF).

(** [for _, x := range l { body }]. *)
Fixpoint forRange {A} (l : list A) (body : A -> M unit) : M unit :=
  match l with
  | [] => ret tt
  | x :: rest => body x ;; forRange rest body
  end.

(** [go s.run()]. *)
Definition go_run : M unit :=
  fun st => (Returned tt,
             mkWorld (spinner st) (sinks st) (tasks st ++ [AtSelect 0])%list
                     (suspended st)).

Definition LFc : ascii := ascii_of_nat 10.

(** [s.mu.Lock()]: the caller waits while the mutex is locked. *)
Definition Lock : M unit :=
  fun st =>
    if mu (spinner st) then (Blocked, st)
    else (Returned tt,
          mkWorld (set_mu true (spinner st)) (sinks st) (tasks st) (suspended st)).

(** [s.mu.Unlock()]. *)
Definition Unlock : M unit :=
  fun st => (Returned tt,
             mkWorld (set_mu false (spinner st)) (sinks st) (tasks st)
                     (suspended st)).

(** [defer s.mu.Unlock()] before [body]: the mutex is unlocked when [body]
    returns and when it panics, not while it waits. *)
Definition deferUnlock {A} (body : M A) : M A :=
  fun st =>
    match body st with
    | (Returned a, st') => (Returned a, snd (Unlock st'))
    | (Panicked, st') => (Panicked, snd (Unlock st'))
    | (Blocked, st') => (Blocked, st')
    end.

(** [setMsg]. *)
Definition setMsg (m : string) : M unit :=
  if String.eqb m "" then ret tt
  else
    c <- at_ m (len m - 1) ;;
    m <- (if Ascii.eqb c LFc then sub m 0 (len m - 1) else ret m) ;;
    maxLen <- field maxMsgLen ;;
    m <- (if len m >? maxLen
          then (p <- sub m 0 maxLen ;; ret (p ++ "..."))
          else ret m) ;;
    c0 <- at_ m 0 ;;
    let m := if negb (Ascii.eqb c0 " ") then " " ++ m else m in
    old <- field msg ;;
    (if negb (String.eqb old "")
     then (t <- sub old 1 (len old) ;;
           assign (fun sp => set_debugMsgs (debugMsgs sp ++ [t])%list sp))
     else ret tt) ;;
    assign (set_msg m).

Section WithExternals.
Context {ext : Externals}.

(** [erase]. *)
Definition erase : M unit :=
  last <- field lastOutput ;;
  out <- field w ;;
  let n := RuneCountInString last in
  (if String.eqb GOOS "windows"
   then
     let clearString := CR ++ Repeat " " n ++ CR in
     Fprint out clearString
   else
     forRange [BS; "W"; BS; ESC ++ "[K"] (fun c => Fprint out (Repeat c n)) ;;
     Fprint out (CR ++ ESC ++ "[K")) ;;
  dw <- field debugw ;;
  (match dw with
   | Some d =>
       msgs <- field debugMsgs ;;
       forRange msgs (fun m => Fprintln d m) ;;
       assign (set_debugMsgs [])
   | None => ret tt
   end) ;;
  assign (set_lastOutput "").

(** [Stop] from the statement after the channel send to its end. *)
Definition stopTail : M unit :=
  cur <- field msg ;;
  (if negb (String.eqb cur "")
   then (t <- sub cur 1 (len cur) ;;
         assign (fun sp => set_debugMsgs (debugMsgs sp ++ [t])%list sp))
   else ret tt) ;;
  erase ;;
  sm <- field stopMsg ;;
  if negb (String.eqb sm "")
  then
    c <- at_ sm (len sm - 1) ;;
    (if negb (Ascii.eqb c LFc)
     then assign (fun sp => set_stopMsg (stopMsg sp ++ LF) sp)
     else ret tt) ;;
    sm <- field stopMsg ;;
    out <- field w ;;
    Fprint out sm
  else ret tt.

Definition setSuspended (b : bool) : M unit :=
  fun st => (Returned tt, mkWorld (spinner st) (sinks st) (tasks st) b).

(** [s.stopChan <- struct{}{}]: the value goes into the buffer, or, when the
    buffer is full, the call is suspended until a goroutine receives. *)
Definition send : M unit :=
  n <- field stopChan ;;
  if (n <? 1)%nat then assign (set_stopChan (S n))
  else setSuspended true ;; block.

Definition Stop : M unit :=
  Lock ;;
  deferUnlock
    (a <- field active ;;
     if negb a then ret tt
     else
       assign (set_active false) ;;
       send ;;
       stopTail).

(** [Start] unlocks by hand on both paths; nothing unlocks the mutex when
    [setMsg] panics. *)
Definition Start : M unit :=
  Lock ;;
  a <- field active ;;
  if a then Unlock
  else
    assign (set_active true) ;;
    (m <- field startMsg ;; setMsg m) ;;
    Unlock ;;
    go_run.

Definition IncWithMessage (m : string) : M unit :=
  Lock ;;
  deferUnlock
    (c <- field completed ;;
     n <- field count ;;
     if c >=? n then ret tt
     else
       assign (fun sp => set_completed (wrap (completed sp + 1)) sp) ;;
       setMsg m).

Definition Inc : M unit := IncWithMessage "".

(** [IncWithMessagef]; [formatted] is what [fmt.Sprintf] made of the format
    and its arguments. *)
Definition IncWithMessagef (formatted : string) : M unit :=
  IncWithMessage formatted.

(** [Debugf]; the test of [debugw] comes before the mutex is taken. *)
Definition Debugf (formatted : string) : M unit :=
  dw <- field debugw ;;
  match dw with
  | None => ret tt
  | Some _ =>
      Lock ;;
      deferUnlock
        (assign (fun sp => set_debugMsgs (debugMsgs sp ++ [formatted])%list sp))
  end.

(** One frame of [run], from [s.mu.Lock()] to [s.mu.Unlock()]; the result
    says whether the goroutine goes on.  The sleep of [s.interval] that
    follows a frame is time passing between two steps. *)
Definition frame (i : nat) : M bool :=
  Lock ;;
  a <- field active ;;
  if negb a then Unlock ;; ret false
  else
    erase ;;
    m <- field msg ;;
    let line := CR ++ nth i frames "" ++ m ++ " " in
    n <- field count ;;
    c <- field completed ;;
    let line := if n >? 1
                then line ++ "(" ++ fmt_d c ++ "/" ++ fmt_d n ++ ") "
                else line in
    out <- field w ;;
    Fprint out line ;;
    assign (set_lastOutput line) ;;
    Unlock ;;
    ret true.

(** The index of the frame after [i]: the inner [for] counts up to
    [len(frames)], the outer one starts it again. *)
Definition nextFrame (i : nat) : nat :=
  if (S i <? List.length frames)%nat then S i else O.

Definition setTasks (ts : list Task) : M unit :=
  fun st => (Returned tt, mkWorld (spinner st) (sinks st) ts (suspended st)).

Fixpoint replaceTask (ts : list Task) (j : nat) (t : option Task) : list Task :=
  match ts, j with
  | [], _ => []
  | _ :: rest, O => match t with Some t' => t' :: rest | None => rest end
  | x :: rest, S j' => x :: replaceTask rest j' t
  end.

(** The goroutine at position [j] takes its next step.  At the [select] it
    receives from [stopChan] and returns, or goes to the [default] branch;
    a receive makes room in the channel, so that a suspended [Stop] sends,
    runs to its end and unlocks the mutex.  At the mutex the goroutine
    renders one frame, unless the mutex is locked: then it waits. *)
Definition taskStep (j : nat) : M unit :=
  fun st =>
    match nth_error (tasks st) j with
    | None => (Returned tt, st)
    | Some (AtSelect i) =>
        if (0 <? stopChan (spinner st))%nat then
          (assign (fun sp => set_stopChan (pred (stopChan sp)) sp) ;;
           setTasks (replaceTask (tasks st) j None) ;;
           if suspended st
           then
             setSuspended false ;;
             assign (fun sp => set_stopChan (S (stopChan sp)) sp) ;;
             deferUnlock stopTail
           else ret tt) st
        else setTasks (replaceTask (tasks st) j (Some (AtLock i))) st
    | Some (AtLock i) =>
        (go_on <- frame i ;;
         setTasks (replaceTask (tasks st) j
                     (if go_on then Some (AtSelect (nextFrame i)) else None))) st
    end.

(** The methods a caller may invoke. *)
Inductive Call :=
| CStart
| CStop
| CInc
| CIncWithMessage (m : string)
| CIncWithMessagef (formatted : string)
| CDebugf (formatted : string).

Definition call (c : Call) : M unit :=
  match c with
  | CStart => Start
  | CStop => Stop
  | CInc => Inc
  | CIncWithMessage m => IncWithMessage m
  | CIncWithMessagef f => IncWithMessagef f
  | CDebugf f => Debugf f
  end.

(** What happens next: a caller's method call, or a step of goroutine [j]. *)
Inductive Action :=
| Fg (c : Call)
| Bg (j : nat).

Definition act (a : Action) : M unit :=
  match a with
  | Fg c => call c
  | Bg j => taskStep j
  end.

(** The world an action leaves, whatever its outcome. *)
Definition exec (st : World) (a : Action) : World := snd (act a st).

Definition execAll (l : list Action) (st : World) : World :=
  fold_left exec l st.

(** A freshly constructed spinner in a world with sinks [sk]. *)
Definition boot (opts : list Option) (sk : Writer -> string) : World :=
  mkWorld (New opts) sk [] false.

End WithExternals.

(** Two instances to run the model on examples.  Their rune count is the
    one of valid UTF-8: the bytes that are not continuation bytes. *)
Fixpoint leadBytes (s : string) : nat :=
  match s with
  | EmptyString => O
  | String c rest =>
      let n := nat_of_ascii c in
      if (128 <=? n)%nat && (n <? 192)%nat then leadBytes rest
      else S (leadBytes rest)
  end.

Definition linux : Externals :=
  {| GOOS := "linux"; RuneCountInString := leadBytes |}.
Definition windows : Externals :=
  {| GOOS := "windows"; RuneCountInString := leadBytes |}.

(* ------------------------------------------------------------------ *)
(** ** Vocabulary of the specification *)
(* ------------------------------------------------------------------ *)

(** These definitions follow the words of the specification, not the code;
    the properties below compare the code with them. *)

(** [m'] is [m] "with a single trailing line terminator stripped, if
    present". *)
Definition spec_stripped (m m' : string) : Prop :=
  m = m' ++ LF \/ (m = m' /\ forall p, m <> p ++ LF).

(** "The message starts with a space." *)
Definition spec_startsWithSpace (m : string) : bool :=
  match m with
  | String c _ => Ascii.eqb c " "
  | EmptyString => false
  end.

(** "Ensure exactly one leading space" as the code does it: "a message
    without a leading space gains exactly one; a message already starting
    with a space is not double-padded". *)
Definition spec_padded (m : string) : string :=
  if spec_startsWithSpace m then m else " " ++ m.

(** "Prefixed with exactly one leading space", read to the letter: a space,
    and no second one after it. *)
Definition spec_oneLeadingSpace (m : string) : bool :=
  match m with
  | String c rest => Ascii.eqb c " " && negb (spec_startsWithSpace rest)
  | EmptyString => false
  end.

(** "The first [n] characters" of a message. *)
Definition spec_firstChars (n : Z) (m : string) : string :=
  String.substring 0 (Z.to_nat n) m.

(** "Truncate to [maxMessageLength] characters, appending an ellipsis
    marker when truncated." *)
Definition spec_truncated (maxLen : Z) (m : string) : string :=
  if len m >? maxLen then spec_firstChars maxLen m ++ "..." else m.

(** "Either empty or prefixed with a space." *)
Definition spec_emptyOrSpace (m : string) : bool :=
  match m with
  | String c _ => Ascii.eqb c " "
  | EmptyString => true
  end.

(** "Before overwriting, push the previous message (with its leading space
    stripped) onto the pending debug messages." *)
Definition spec_savePrevious (sp : Spinner) : Spinner :=
  match msg sp with
  | EmptyString => sp
  | String _ rest => set_debugMsgs (debugMsgs sp ++ [rest])%list sp
  end.

(** "One per line": the lines a list of messages makes in the debug sink. *)
Fixpoint spec_lines (l : list string) : string :=
  match l with
  | [] => ""
  | m :: rest => m ++ LF ++ spec_lines rest
  end.

(** Everything the debug sink [d] has received or is still to receive: its
    content, the pending debug messages, and the message on display. *)
Definition spec_history (d : Writer) (st : World) : string :=
  sinks st d ++ spec_lines (debugMsgs (spinner st))
    ++ match msg (spinner st) with
       | EmptyString => ""
       | String _ rest => rest ++ LF
       end.

(* ------------------------------------------------------------------ *)
(** ** Notions used in the proofs *)
(* ------------------------------------------------------------------ *)

(** The calls that count progress. *)
Definition isInc (c : Call) : bool :=
  match c with
  | CInc | CIncWithMessage _ | CIncWithMessagef _ => true
  | _ => false
  end.

(** Two worlds differ at most in the message on display and the pending
    debug messages. *)
Definition sameButMsg (st st' : World) : Prop :=
  sinks st' = sinks st /\ tasks st' = tasks st /\ suspended st' = suspended st /\
  interval (spinner st') = interval (spinner st) /\
  w (spinner st') = w (spinner st) /\
  debugw (spinner st') = debugw (spinner st) /\
  mu (spinner st') = mu (spinner st) /\
  stopChan (spinner st') = stopChan (spinner st) /\
  active (spinner st') = active (spinner st) /\
  lastOutput (spinner st') = lastOutput (spinner st) /\
  startMsg (spinner st') = startMsg (spinner st) /\
  stopMsg (spinner st') = stopMsg (spinner st) /\
  count (spinner st') = count (spinner st) /\
  completed (spinner st') = completed (spinner st) /\
  maxMsgLen (spinner st') = maxMsgLen (spinner st).

(** A computation keeps the relation [R] between the world it starts in
    and the world it leaves, however it ends. *)
Definition preserves (R : World -> World -> Prop) {A} (c : M A) : Prop :=
  forall st, R st (snd (c st)).

(** The message on display is the one before, or starts with a space. *)
Definition msgStep (st st' : World) : Prop :=
  msg (spinner st') = msg (spinner st)
  \/ exists r, msg (spinner st') = String " " r.

(** The state of the scenario "Start, IncWithMessage, IncWithMessage, Stop"
    between its calls: the debug writer is [d] and names another sink than
    the output writer, the mutex is free, the channel is empty, the
    count is at least 2, messages of five characters fit, there is no start
    message; [b], [c] and [h] are the active flag, the completed count and
    the history of the debug sink. *)
Definition Phase (d : Writer) (b : bool) (c : Z) (h : string) (st : World)
  : Prop :=
  debugw (spinner st) = Some d /\ w (spinner st) <> d /\
  mu (spinner st) = false /\ suspended st = false /\
  stopChan (spinner st) = O /\ 2 <= count (spinner st) /\
  5 <= maxMsgLen (spinner st) /\ startMsg (spinner st) = "" /\
  active (spinner st) = b /\ completed (spinner st) = c /\
  spec_history d st = h.

(** The state after [Stop] has returned. *)
Definition After (d : Writer) (st : World) : Prop :=
  debugw (spinner st) = Some d /\ w (spinner st) <> d /\
  mu (spinner st) = false /\ suspended st = false /\
  active (spinner st) = false.

(* ------------------------------------------------------------------ *)
(** ** [Inc] statement by statement, for two goroutines *)
(* ------------------------------------------------------------------ *)

(** Two goroutines call [Inc()] on one spinner.  Here every statement of
    [IncWithMessage] is a step of its own and [s.completed++] is a read
    followed by a write, so that the interleavings the mutex excludes are
    visible. *)
Inductive Tid := T1 | T2.

Definition other (t : Tid) : Tid := match t with T1 => T2 | T2 => T1 end.

(** Where a goroutine stands in [IncWithMessage]. *)
Inductive Pc :=
| Idle                 (* not in a call; the next step is [s.mu.Lock()] *)
| AtCheck              (* at [if s.completed >= s.count] *)
| AtLoad               (* at [s.completed++]: about to read the field *)
| AtStore (tmp : Z)    (* at [s.completed++]: about to write [tmp + 1] *)
| AtSetMsg             (* at [s.setMsg(m)] *)
| AtUnlock.            (* at the deferred [s.mu.Unlock()] *)

(** A goroutine: where it stands and how many calls it has still to make. *)
Record Thread := mkThread { pc : Pc; todo : nat }.

Record Conc := mkConc {
  world : World;
  th1 : Thread;
  th2 : Thread
}.

Definition thread (t : Tid) (c : Conc) : Thread :=
  match t with T1 => th1 c | T2 => th2 c end.

Definition setThread (t : Tid) (th : Thread) (c : Conc) : Conc :=
  match t with
  | T1 => mkConc (world c) th (th2 c)
  | T2 => mkConc (world c) (th1 c) th
  end.

Definition setWorld (st : World) (c : Conc) : Conc :=
  mkConc st (th1 c) (th2 c).

(** One step of goroutine [t]; [None] when it cannot move: it has no call
    left, or it waits for the mutex. *)
Definition step (t : Tid) (c : Conc) : option Conc :=
  let th := thread t c in
  let sp := spinner (world c) in
  match pc th with
  | Idle =>
      match todo th with
      | S k =>
          match Lock (world c) with
          | (Returned _, st') =>
              Some (setThread t (mkThread AtCheck k) (setWorld st' c))
          | _ => None
          end
      | O => None
      end
  | AtCheck =>
      if completed sp >=? count sp
      then Some (setThread t (mkThread AtUnlock (todo th)) c)
      else Some (setThread t (mkThread AtLoad (todo th)) c)
  | AtLoad => Some (setThread t (mkThread (AtStore (completed sp)) (todo th)) c)
  | AtStore tmp =>
      Some (setThread t (mkThread AtSetMsg (todo th))
              (setWorld (snd (assign (set_completed (wrap (tmp + 1))) (world c)))
                 c))
  | AtSetMsg =>
      Some (setThread t (mkThread AtUnlock (todo th))
              (setWorld (snd (setMsg "" (world c))) c))
  | AtUnlock =>
      Some (setThread t (mkThread Idle (todo th))
              (setWorld (snd (Unlock (world c))) c))
  end.

(** A schedule names the goroutine that is given the processor next; a
    goroutine that cannot move leaves the state as it is. *)
Definition runStep (c : Conc) (t : Tid) : Conc :=
  match step t c with Some c' => c' | None => c end.

Definition run (sched : list Tid) (c : Conc) : Conc := fold_left runStep sched c.

Definition isDone (th : Thread) : bool :=
  match pc th, todo th with
  | Idle, O => true
  | _, _ => false
  end.

Definition finished (c : Conc) : bool := isDone (th1 c) && isDone (th2 c).

(** Both goroutines about to start, with [a] and [b] calls to make. *)
Definition start2 (st : World) (a b : nat) : Conc :=
  mkConc st (mkThread Idle a) (mkThread Idle b).

(** The schedule that lets [t] make [n] calls without interruption: six
    steps a call. *)
Fixpoint solo (t : Tid) (n : nat) : list Tid :=
  match n with
  | O => []
  | S n' => (t :: t :: t :: t :: t :: t :: solo t n')%list
  end.

(** A schedule that alternates between the goroutines, [n] rounds. *)
Fixpoint alternate (n : nat) : list Tid :=
  match n with
  | O => []
  | S n' => (T1 :: T2 :: alternate n')%list
  end.

(** The notions of the proof about the two goroutines. *)

(** The calls a goroutine has not yet counted: those it has still to make,
    and the one in progress as long as it has not written [completed]. *)
Definition pending (th : Thread) : Z :=
  Z.of_nat (todo th)
  + match pc th with
    | AtCheck | AtLoad | AtStore _ => 1
    | _ => 0
    end.

(** While a goroutine is inside [IncWithMessage] the mutex is locked and the
    other goroutine is outside; what it read from [completed] is still there
    when it writes. *)
Definition holds (t : Tid) (c : Conc) : Prop :=
  match pc (thread t c) with
  | Idle => True
  | AtStore tmp =>
      mu (spinner (world c)) = true /\ pc (thread (other t) c) = Idle
      /\ tmp = completed (spinner (world c))
  | _ => mu (spinner (world c)) = true /\ pc (thread (other t) c) = Idle
  end.

(** The invariant of the two goroutines: counted and pending calls add up
    to [n], the total count. *)
Definition Inv (n : Z) (c : Conc) : Prop :=
  count (spinner (world c)) = n /\
  0 <= completed (spinner (world c)) /\
  n <= MaxInt /\
  completed (spinner (world c)) + pending (th1 c) + pending (th2 c) = n /\
  holds T1 c /\ holds T2 c /\
  (pc (th1 c) = Idle -> pc (th2 c) = Idle -> mu (spinner (world c)) = false).

(* ------------------------------------------------------------------ *)
(** ** Notions for the properties of the life cycle *)
(* ------------------------------------------------------------------ *)

(** The sinks only receive: each holds what it held, and something more. *)
Definition extends (sk sk' : Writer -> string) : Prop :=
  forall k, exists x, sk' k = sk k ++ x.

(** What the life cycle of the animation depends on: the mutex, the flag,
    the channel, a suspended [Stop], the goroutines, and whether a frame is
    on the terminal ([lastOutput] is not empty). *)
Record Ctl := mkCtl {
  c_mu : bool;
  c_active : bool;
  c_chan : nat;
  c_susp : bool;
  c_tasks : list Task;
  c_drawn : bool
}.

(** The life cycle of a world. *)
Definition ctl (st : World) : Ctl :=
  mkCtl (mu (spinner st)) (active (spinner st)) (stopChan (spinner st))
        (suspended st) (tasks st)
        (negb (String.eqb (lastOutput (spinner st)) "")).

(** What a call does to them; [p] says whether [setMsg] panics in [Start]. *)
Definition ctlCall (c : Call) (p : bool) (k : Ctl) : Ctl :=
  match c with
  | CStart =>
      if c_mu k || c_active k then k
      else if p
           then mkCtl true true (c_chan k) (c_susp k) (c_tasks k) (c_drawn k)
           else mkCtl false true (c_chan k) (c_susp k)
                      (c_tasks k ++ [AtSelect 0])%list (c_drawn k)
  | CStop =>
      if c_mu k || negb (c_active k) then k
      else if (c_chan k <? 1)%nat
           then mkCtl false false (S (c_chan k)) (c_susp k) (c_tasks k) false
           else mkCtl true false (c_chan k) true (c_tasks k) (c_drawn k)
  | _ => k
  end.

(** What a step of goroutine [j] does to them. *)
Definition ctlTask (j : nat) (k : Ctl) : Ctl :=
  match nth_error (c_tasks k) j with
  | None => k
  | Some (AtSelect i) =>
      if (0 <? c_chan k)%nat then
        if c_susp k
        then mkCtl false (c_active k) (S (pred (c_chan k))) false
                   (replaceTask (c_tasks k) j None) false
        else mkCtl (c_mu k) (c_active k) (pred (c_chan k)) false
                   (replaceTask (c_tasks k) j None) (c_drawn k)
      else mkCtl (c_mu k) (c_active k) (c_chan k) (c_susp k)
                 (replaceTask (c_tasks k) j (Some (AtLock i))) (c_drawn k)
  | Some (AtLock i) =>
      if c_mu k then k
      else if c_active k
           then mkCtl false true (c_chan k) (c_susp k)
                      (replaceTask (c_tasks k) j (Some (AtSelect (nextFrame i))))
                      true
           else mkCtl false false (c_chan k) (c_susp k)
                      (replaceTask (c_tasks k) j None) (c_drawn k)
  end.

(** What an action does to them. *)
Definition ctlStep (a : Action) (p : bool) (k : Ctl) : Ctl :=
  match a with
  | Fg c => ctlCall c p k
  | Bg j => ctlTask j k
  end.

(** Whether a call ended in a panic. *)
Definition panicked {A} (o : outcome A) : bool :=
  match o with Panicked => true | _ => false end.

(** A computation never waits. *)
Definition noblock {A} (c : M A) : Prop := forall st, fst (c st) <> Blocked.

(** Two worlds agree on the life cycle, the mutex apart. *)
Definition sameCycle (st st' : World) : Prop :=
  active (spinner st') = active (spinner st) /\
  stopChan (spinner st') = stopChan (spinner st) /\
  suspended st' = suspended st /\ tasks st' = tasks st /\
  lastOutput (spinner st') = lastOutput (spinner st).

(** A flag as a number: 1 when it is set. *)
Definition b2n (b : bool) : nat := if b then 1%nat else 0%nat.

(** Every goroutine stands against the flag, a signal in the channel or a
    suspended [Stop]. *)
Definition accounted (k : Ctl) : Prop :=
  (c_chan k <= 1)%nat /\
  (List.length (c_tasks k) <= b2n (c_active k) + c_chan k + b2n (c_susp k))%nat /\
  (c_susp k = true -> c_mu k = true /\ c_active k = false).

(** The life cycle of a spinner at rest, and of one whose goroutine stands
    at the [select] of frame [i]. *)
Definition atRest : Ctl := mkCtl false false 0 false [] false.
Definition running (i : nat) (d : bool) : Ctl :=
  mkCtl false true 0 false [AtSelect i] d.

(** The spinner is inactive, no goroutine is left, and a stop signal is
    still in the channel. *)
Definition stale : Ctl := mkCtl false false 1 false [] false.

(** The life cycles a stale spinner can get into. *)
Definition staleCycle : list Ctl :=
  [stale;
   mkCtl false true 1 false [AtSelect 0] false;
   mkCtl false true 0 false [] false;
   mkCtl true false 1 true [AtSelect 0] false;
   mkCtl true true 1 false [] false].

(** [n] frames of the goroutine at position 0: for each, the [select] and
    the frame. *)
Fixpoint framesOf (n : nat) : list Action :=
  match n with
  | O => []
  | S n' => Bg 0 :: Bg 0 :: framesOf n'
  end.

(** Two worlds agree on the count and on the completed items. *)
Definition sameCount (st st' : World) : Prop :=
  count (spinner st') = count (spinner st) /\
  completed (spinner st') = completed (spinner st).

(** The completed items lie between nothing and the count. *)
Definition inBounds (sp : Spinner) : Prop :=
  0 <= completed sp <= Z.max 0 (count sp).

(** The debug writer stays, and without one the pending debug messages
    are only added to. *)
Definition keepsDebug (st st' : World) : Prop :=
  debugw (spinner st') = debugw (spinner st) /\
  (debugw (spinner st) = None ->
   exists more, debugMsgs (spinner st') = (debugMsgs (spinner st) ++ more)%list).

(** The spinner after [erase]: nothing is on the line, and with a debug
    writer the pending debug messages are written and gone. *)
Definition erased (sp : Spinner) : Spinner :=
  set_lastOutput ""
    match debugw sp with
    | Some _ => set_debugMsgs [] sp
    | None => sp
    end.

(** [m] with a line terminator at its end, as [Stop] makes the stop
    message; the empty message stays empty. *)
Definition withNewline (m : string) : string :=
  match index m (len m - 1) with
  | Some c => if Ascii.eqb c LFc then m else m ++ LF
  | None => m
  end.

(** Whether [m] ends with a line terminator: the test [m[len(m)-1] == '\n']
    on a message that is not empty. *)
Definition endsWithNewline (m : string) : bool :=
  match index m (len m - 1) with
  | Some c => Ascii.eqb c LFc
  | None => false
  end.

(** The spinner after the statements of [Stop] that follow the send. *)
Definition stopped (sp : Spinner) : Spinner :=
  set_stopMsg (withNewline (stopMsg sp)) (erased (spec_savePrevious sp)).

(** The line of frame [i]. *)
Definition frameLine (i : nat) (sp : Spinner) : string :=
  let line := CR ++ nth i frames "" ++ msg sp ++ " " in
  if count sp >? 1
  then line ++ "(" ++ fmt_d (completed sp) ++ "/" ++ fmt_d (count sp) ++ ") "
  else line.

(** Whether a goroutine stands at its [select]. *)
Definition isSelect (t : Task) : bool :=
  match t with AtSelect _ => true | AtLock _ => false end.

(** Some goroutine stands at its [select]. *)
Definition hasSelect (ts : list Task) : bool := existsb isSelect ts.

(** A [Stop] that waits to send holds the mutex of the inactive spinner
    while the channel is full, and some goroutine stands at its [select];
    so does one when an active spinner with a free mutex has a full
    channel. *)
Definition releasable (k : Ctl) : Prop :=
  (c_chan k <= 1)%nat /\
  (c_susp k = true ->
   c_mu k = true /\ c_active k = false /\ c_chan k = 1%nat
   /\ hasSelect (c_tasks k) = true) /\
  (c_susp k = false -> c_mu k = false -> c_active k = true ->
   c_chan k = 1%nat -> hasSelect (c_tasks k) = true).

(** The mutex is locked and no [Stop] waits to send: nothing will unlock
    it. *)
Definition lockedForGood (a d : bool) (k : Ctl) : Prop :=
  c_mu k = true /\ c_susp k = false /\ c_active k = a /\ c_drawn k = d.

(** What the output writer received ends with [lastOutput]. *)
Definition shown (st : World) : Prop :=
  exists x, sinks st (w (spinner st)) = x ++ lastOutput (spinner st).

(** Two worlds agree on the sinks, the output writer and [lastOutput]. *)
Definition sameOut (st st' : World) : Prop :=
  sinks st' = sinks st /\ w (spinner st') = w (spinner st) /\
  lastOutput (spinner st') = lastOutput (spinner st).

End Spinner.

(* ================================================================== *)
(** * Package spinner, the variant without the debug writer *)
(* ================================================================== *)

(** The second copy of the package differs from the first in [Stop],
    [setMsg] and [erase].  Its [setMsg] runs on the same state; the fields of
    the debug writer stay as they are. *)
Module SpinnerOld.
Import Go Spinner.

(** [setMsg]. *)
Definition setMsg (m : string) : M unit :=
  if String.eqb m "" then ret tt
  else
    maxLen <- field maxMsgLen ;;
    m <- (if len m >? maxLen
          then (p <- sub m 0 maxLen ;; ret (p ++ "..."))
          else ret m) ;;
    c0 <- at_ m 0 ;;
    let m := if negb (Ascii.eqb c0 " ") then " " ++ m else m in
    assign (set_msg m).

End SpinnerOld.
(* ================================================================== *)
(** * Properties of package color *)
(* ================================================================== *)

Module ColorProofs.
Import Go Color.

Lemma init_with_NO_COLOR (env : Env) :
  snd (LookupEnv env "NO_COLOR") = true -> init env = mkVars true false.
Proof.
  intros H. unfold init. rewrite H. reflexivity.
Qed.

Lemma init_without_NO_COLOR (env : Env) :
  snd (LookupEnv env "NO_COLOR") = false -> init env = mkVars false true.
Proof.
  intros H. unfold init. rewrite H. reflexivity.
Qed.

Lemma SetEnabled_under_noColor (e : bool) (v : Vars) :
  noColor v = true -> SetEnabled e v = v.
Proof.
  intros H. unfold SetEnabled. now rewrite H.
Qed.

Lemma setEnabledAll_under_noColor (calls : list bool) (v : Vars) :
  noColor v = true -> setEnabledAll calls v = v.
Proof.
  unfold setEnabledAll. revert v.
  induction calls as [|e calls IH]; intros v H; simpl.
  - reflexivity.
  - rewrite (SetEnabled_under_noColor e v H). now apply IH.
Qed.

Lemma apply_disabled (v : Vars) (s : string) (a b : ansiCode) :
  enabled v = false -> apply v s a b = s.
Proof.
  intros H. unfold apply. now rewrite H.
Qed.

(** Without [NO_COLOR] the switch works: the last call decides. *)
Lemma setEnabledAll_last (calls : list bool) (e : bool) (env : Env) :
  snd (LookupEnv env "NO_COLOR") = false ->
  enabled (setEnabledAll (calls ++ [e]) (init env)) = e.
Proof.
  intros H. unfold setEnabledAll. rewrite fold_left_app. simpl.
  assert (N : forall l v, noColor v = false ->
            noColor (fold_left (fun v e => SetEnabled e v) l v) = false).
  { induction l as [|x l IH]; intros v Hv; simpl; [exact Hv|].
    apply IH. unfold SetEnabled. rewrite Hv. reflexivity. }
  unfold SetEnabled at 1. rewrite N; [reflexivity|].
  rewrite (init_without_NO_COLOR env H). reflexivity.
Qed.

Example Red_enabled :
  Red (init []) "uh oh" = ESC ++ "[31muh oh" ++ ESC ++ "[39m".
Proof. reflexivity. Qed.

Example Red_strips_reset :
  Red (init []) ("a" ++ ESC ++ "[39mb") = ESC ++ "[31mab" ++ ESC ++ "[39m".
Proof. reflexivity. Qed.

(** C9.  When [NO_COLOR] is set in the environment [init] reads, then after
    any sequence of [SetEnabled] calls, [SetEnabled(true)] included, each of
    the eight colour functions returns its argument unchanged. *)
Theorem C9_NO_COLOR_overrides_SetEnabled
    (env : Env) (calls : list bool) (s : string) :
  snd (LookupEnv env "NO_COLOR") = true ->
  let v := setEnabledAll calls (init env) in
  Black v s = s /\ Red v s = s /\ Green v s = s /\ Yellow v s = s /\
  Blue v s = s /\ Magenta v s = s /\ Cyan v s = s /\ White v s = s.
Proof.
  intros H v.
  assert (E : enabled v = false).
  { subst v. rewrite (init_with_NO_COLOR env H).
    now rewrite setEnabledAll_under_noColor. }
  unfold Black, Red, Green, Yellow, Blue, Magenta, Cyan, White.
  repeat split; now apply apply_disabled.
Qed.

Lemma C9_witness :
  snd (LookupEnv [("TERM", "xterm"); ("NO_COLOR", "1")] "NO_COLOR") = true /\
  (let v := setEnabledAll [true; false; true]
              (init [("TERM", "xterm"); ("NO_COLOR", "1")]) in
   Black v "uh oh" = "uh oh" /\ Red v "uh oh" = "uh oh" /\
   Green v "uh oh" = "uh oh" /\ Yellow v "uh oh" = "uh oh" /\
   Blue v "uh oh" = "uh oh" /\ Magenta v "uh oh" = "uh oh" /\
   Cyan v "uh oh" = "uh oh" /\ White v "uh oh" = "uh oh").
Proof.
  split.
  - reflexivity.
  - apply (C9_NO_COLOR_overrides_SetEnabled
             [("TERM", "xterm"); ("NO_COLOR", "1")] [true; false; true] "uh oh").
    reflexivity.
Defined.

Lemma app_assoc_s (a b c : string) : (a ++ b) ++ c = a ++ b ++ c.
Proof. induction a as [|x a IH]; simpl; [reflexivity | now rewrite IH]. Qed.

(** ** What the removal of the reset sequence does *)

Lemma removeAll_keep (pat : string) (c : ascii) (rest : string) :
  String.prefix pat (String c rest) = false ->
  removeAll pat (String c rest) O = String c (removeAll pat rest O).
Proof. intros H. cbn [removeAll]. now rewrite H. Qed.

Lemma removeAll_absent (pat s : string) :
  occurs pat s = false -> removeAll pat s O = s.
Proof.
  induction s as [|c s IH]; intros H; [reflexivity|].
  cbn [occurs] in H. apply orb_false_iff in H. destruct H as [H Hr].
  rewrite removeAll_keep by exact H. now rewrite IH.
Qed.

Lemma removeAll_skip (pat q s : string) :
  removeAll pat (q ++ s) (String.length q) = removeAll pat s O.
Proof.
  induction q as [|c q IH]; [destruct s; reflexivity|].
  cbn [append String.length removeAll]. exact IH.
Qed.

Lemma prefix_app (p s : string) : String.prefix p (p ++ s) = true.
Proof.
  induction p as [|c p IH]; [destruct s; reflexivity|].
  cbn [append String.prefix]. destruct (ascii_dec c c); [exact IH | congruence].
Qed.

Lemma removeAll_match (c : ascii) (p s : string) :
  removeAll (String c p) (String c p ++ s) O = removeAll (String c p) s O.
Proof.
  cbn [append]. cbn [removeAll].
  change (String c (p ++ s)) with (String c p ++ s). rewrite prefix_app.
  replace (String.length (String c p) - 1)%nat with (String.length p)
    by (cbn [String.length]; lia).
  apply removeAll_skip.
Qed.

Lemma prefix_other (c d : ascii) (p s : string) :
  Ascii.eqb d c = false -> String.prefix (String c p) (String d s) = false.
Proof.
  intros H. cbn [String.prefix]. destruct (ascii_dec c d) as [E|E]; [|reflexivity].
  subst d. now rewrite Ascii.eqb_refl in H.
Qed.

Lemma removeAll_plain (p a s : string) :
  hasEsc a = false ->
  removeAll (String (ascii_of_nat 27) p) (a ++ s) O
  = a ++ removeAll (String (ascii_of_nat 27) p) s O.
Proof.
  induction a as [|c a IH]; intros H; [reflexivity|].
  cbn [hasEsc] in H. apply orb_false_iff in H. destruct H as [Hc H].
  cbn [append]. rewrite removeAll_keep by (now apply prefix_other).
  now rewrite IH.
Qed.

Lemma reset_plain (a s : string) :
  hasEsc a = false ->
  removeAll (sgr fgReset) (a ++ s) O = a ++ removeAll (sgr fgReset) s O.
Proof. exact (removeAll_plain "[39m" a s). Qed.

Lemma reset_match (s : string) :
  removeAll (sgr fgReset) (sgr fgReset ++ s) O = removeAll (sgr fgReset) s O.
Proof. exact (removeAll_match (ascii_of_nat 27) "[39m" s). Qed.

Lemma hasEsc_sound (s : string) : hasEsc s = false -> occurs (sgr fgReset) s = false.
Proof.
  induction s as [|c s IH]; intros H; [reflexivity|].
  cbn [hasEsc] in H. apply orb_false_iff in H. destruct H as [Hc H].
  cbn [occurs]. rewrite (IH H), orb_false_r.
  now apply prefix_other.
Qed.

Lemma apply_enabled (v : Vars) (s : string) (a b : ansiCode) :
  enabled v = true ->
  apply v s a b = sgr a ++ removeAll (sgr b) s O ++ sgr b.
Proof.
  intros H. unfold apply, sgr. rewrite H. cbn [negb].
  now rewrite !app_assoc_s.
Qed.

Lemma colors_apply (c : ansiCode) (f : Vars -> string -> string) :
  In (c, f) colors ->
  (forall v s, f v s = apply v s c fgReset) /\
  (forall s, removeAll (sgr fgReset) (sgr c ++ s) O
             = sgr c ++ removeAll (sgr fgReset) s O).
Proof.
  intros H. cbn [In colors] in H.
  repeat (destruct H as [H|H]; [inversion H; subst; split; reflexivity|]).
  destruct H.
Qed.

Lemma last_default (l : list bool) (x d d' : bool) :
  last (x :: l) d = last (x :: l) d'.
Proof.
  revert x. induction l as [|y l IH]; intros x; [reflexivity|].
  change (last (y :: l) d = last (y :: l) d'). apply IH.
Qed.

Lemma setEnabledAll_enabled (calls : list bool) (v : Vars) :
  noColor v = false ->
  enabled (setEnabledAll calls v) = last calls (enabled v).
Proof.
  unfold setEnabledAll. revert v.
  induction calls as [|e calls IH]; intros v H; [reflexivity|].
  cbn [fold_left]. rewrite IH by (unfold SetEnabled; now rewrite H).
  unfold SetEnabled. rewrite H. cbn [enabled].
  destruct calls as [|b calls]; [reflexivity|].
  change (last (e :: b :: calls) (enabled v)) with (last (b :: calls) (enabled v)).
  apply last_default.
Qed.

(** X5.  Without [NO_COLOR] colours are on after [init], and after any calls
    of [SetEnabled] the argument of the last call decides: each colour
    function then either returns its argument or wraps the sanitized
    argument in its code and the reset code. *)
Theorem last_SetEnabled_decides (env : Env) (calls : list bool)
    (c : ansiCode) (f : Vars -> string -> string) (s : string) :
  snd (LookupEnv env "NO_COLOR") = false -> In (c, f) colors ->
  f (setEnabledAll calls (init env)) s
  = if last calls true
    then sgr c ++ removeAll (sgr fgReset) s O ++ sgr fgReset
    else s.
Proof.
  intros H Hf. destruct (colors_apply c f Hf) as [-> _].
  pose proof (setEnabledAll_enabled calls (init env)) as E.
  rewrite (init_without_NO_COLOR env H) in *. cbn [noColor enabled] in E.
  specialize (E eq_refl).
  destruct (last calls true).
  - now apply apply_enabled.
  - now apply apply_disabled.
Qed.

Lemma last_SetEnabled_witness :
  Red (setEnabledAll [true; false] (init [("TERM", "xterm")])) "foo bar"
  = if last [true; false] true
    then sgr fgRed ++ removeAll (sgr fgReset) "foo bar" O ++ sgr fgReset
    else "foo bar".
Proof.
  apply (last_SetEnabled_decides [("TERM", "xterm")] [true; false] fgRed Red).
  - reflexivity.
  - right; left; reflexivity.
Defined.

(** X6.  With colours enabled, a string in which the reset sequence does
    not occur comes back unchanged between the code of the colour and the
    reset code. *)
Theorem plain_text_is_wrapped (c : ansiCode) (f : Vars -> string -> string)
    (v : Vars) (s : string) :
  In (c, f) colors -> enabled v = true -> occurs (sgr fgReset) s = false ->
  f v s = sgr c ++ s ++ sgr fgReset.
Proof.
  intros Hf He Hs. destruct (colors_apply c f Hf) as [-> _].
  rewrite apply_enabled by exact He. now rewrite removeAll_absent.
Qed.

Lemma plain_text_witness :
  Cyan (init []) "foo bar" = sgr fgCyan ++ "foo bar" ++ sgr fgReset.
Proof.
  apply (plain_text_is_wrapped fgCyan Cyan (init []) "foo bar").
  - do 6 right; left; reflexivity.
  - reflexivity.
  - reflexivity.
Defined.

(** X7.  Nesting: when a coloured string stands inside the argument of
    another colour function, between pieces of text without the escape
    character, the reset code of the inner string is removed; the result
    holds the outer code, the first piece, the inner code, the inner text
    and the last piece, and one reset code at its end. *)
Theorem nested_colour_output (ci co : ansiCode)
    (inner outer : Vars -> string -> string) (v : Vars) (s1 s2 s3 : string) :
  In (ci, inner) colors -> In (co, outer) colors -> enabled v = true ->
  hasEsc s1 = false -> hasEsc s2 = false -> hasEsc s3 = false ->
  outer v (s1 ++ inner v s2 ++ s3)
  = sgr co ++ s1 ++ sgr ci ++ s2 ++ s3 ++ sgr fgReset.
Proof.
  intros Hi Ho He H1 H2 H3.
  destruct (colors_apply ci inner Hi) as [-> Rm].
  destruct (colors_apply co outer Ho) as [-> _].
  rewrite !apply_enabled by exact He.
  rewrite (removeAll_absent _ s2) by (now apply hasEsc_sound).
  rewrite reset_plain by exact H1.
  rewrite !app_assoc_s, Rm.
  rewrite reset_plain by exact H2.
  rewrite reset_match.
  rewrite (removeAll_absent _ s3) by (now apply hasEsc_sound).
  now rewrite !app_assoc_s.
Qed.

Lemma nested_colour_witness :
  Red (init []) ("a" ++ Green (init []) "b" ++ "c")
  = sgr fgRed ++ "a" ++ sgr fgGreen ++ "b" ++ "c" ++ sgr fgReset.
Proof.
  apply (nested_colour_output fgGreen fgRed Green Red (init []) "a" "b" "c").
  - do 2 right; left; reflexivity.
  - right; left; reflexivity.
  - reflexivity.
  - reflexivity.
  - reflexivity.
  - reflexivity.
Defined.

(** The beginning of a reset sequence stays when another escape sequence
    follows it. *)
Lemma reset_begun (t : string) :
  removeAll (sgr fgReset) (ESC ++ "[3" ++ ESC ++ t) O
  = ESC ++ "[3" ++ removeAll (sgr fgReset) (ESC ++ t) O.
Proof.
  change (ESC ++ "[3" ++ ESC ++ t)
    with (String (ascii_of_nat 27) ("[3" ++ String (ascii_of_nat 27) t)).
  rewrite removeAll_keep by reflexivity.
  rewrite (reset_plain "[3") by reflexivity. reflexivity.
Qed.

(** X20.  The removal of the reset code is one pass: when a reset code
    stands inside the pieces of another one, removing it puts the pieces
    together, and the result holds a reset code between [a] and [b]. *)
Theorem removal_can_leave_a_reset_code (c : ansiCode)
    (f : Vars -> string -> string) (v : Vars) (a b : string) :
  In (c, f) colors -> enabled v = true ->
  hasEsc a = false -> hasEsc b = false ->
  f v (a ++ (ESC ++ "[3") ++ sgr fgReset ++ "9m" ++ b)
  = sgr c ++ (a ++ sgr fgReset ++ b) ++ sgr fgReset.
Proof.
  intros Hf He Ha Hb. destruct (colors_apply c f Hf) as [-> _].
  rewrite apply_enabled by exact He. do 2 f_equal.
  rewrite reset_plain by exact Ha. f_equal.
  change ((ESC ++ "[3") ++ sgr fgReset ++ "9m" ++ b)
    with (ESC ++ "[3" ++ ESC ++ ("[39m" ++ "9m" ++ b)).
  rewrite reset_begun.
  change (ESC ++ "[39m" ++ "9m" ++ b) with (sgr fgReset ++ ("9m" ++ b)).
  rewrite reset_match.
  rewrite (reset_plain "9m" b) by reflexivity.
  rewrite (removeAll_absent _ b) by (now apply hasEsc_sound).
  reflexivity.
Qed.

Lemma removal_witness :
  Red (init []) ("a" ++ (ESC ++ "[3") ++ sgr fgReset ++ "9m" ++ "b")
  = sgr fgRed ++ ("a" ++ sgr fgReset ++ "b") ++ sgr fgReset.
Proof.
  apply (removal_can_leave_a_reset_code fgRed Red (init []) "a" "b").
  - right; left; reflexivity.
  - reflexivity.
  - reflexivity.
  - reflexivity.
Defined.

End ColorProofs.
(* ================================================================== *)
(** * Properties of package textutil *)
(* ================================================================== *)

Module TextutilProofs.
Import Go Textutil.

Local Abbreviation bytes := list_byte_of_string.

(** ** Strings against byte slices *)

Lemma bytes_length (s : string) : List.length (bytes s) = String.length s.
Proof.
  unfold list_byte_of_string. rewrite length_map.
  induction s as [|c s IH]; simpl; [reflexivity | now rewrite IH].
Qed.

Lemma blen_bytes (s : string) : blen (bytes s) = len s.
Proof. unfold blen, len. now rewrite bytes_length. Qed.

Lemma bytes_app (a b : string) : bytes (a ++ b) = (bytes a ++ bytes b)%list.
Proof.
  unfold list_byte_of_string.
  induction a as [|c a IH]; simpl; [reflexivity | now rewrite IH].
Qed.

Lemma bytes_get (s : string) (n : nat) :
  nth_error (bytes s) n = option_map byte_of_ascii (String.get n s).
Proof.
  unfold list_byte_of_string. revert n.
  induction s as [|c s IH]; intros [|n]; simpl; try reflexivity.
  apply IH.
Qed.

Lemma bytes_substring (s : string) (n m : nat) :
  firstn m (skipn n (bytes s)) = bytes (String.substring n m s).
Proof.
  unfold list_byte_of_string. revert n m.
  induction s as [|c s IH]; intros n m.
  - destruct n, m; reflexivity.
  - destruct n as [|n].
    + destruct m as [|m]; simpl; [reflexivity|].
      f_equal. apply (IH O m).
    + simpl. apply IH.
Qed.

Lemma bindex_bytes (s : string) (i : Z) :
  bindex (bytes s) i = option_map byte_of_ascii (index s i).
Proof.
  unfold bindex, index. rewrite blen_bytes.
  destruct ((0 <=? i) && (i <? len s)); [apply bytes_get | reflexivity].
Qed.

Lemma bslice_bytes (s : string) (lo hi : Z) :
  bslice (bytes s) lo hi = option_map bytes (slice s lo hi).
Proof.
  unfold bslice, slice. rewrite blen_bytes.
  destruct ((0 <=? lo) && (lo <=? hi) && (hi <=? len s)); simpl;
    [now rewrite bytes_substring | reflexivity].
Qed.

Lemma byte_eqb_ascii (c : ascii) (b : byte) :
  Byte.eqb (byte_of_ascii c) b = Ascii.eqb c (ascii_of_byte b).
Proof.
  destruct (Ascii.eqb_spec c (ascii_of_byte b)) as [E|N].
  - apply byte_dec_lb. subst c. apply byte_of_ascii_of_byte.
  - destruct (Byte.eqb (byte_of_ascii c) b) eqn:E; [|reflexivity].
    exfalso. apply N. apply byte_dec_bl in E. subst b.
    symmetry. apply ascii_of_byte_of_ascii.
Qed.

(** ** The two implementations step by step *)

Lemma scan_agree (fuel : nat) (s : string) (j : Z) :
  scanBytes fuel (bytes s) j = scanString fuel s j.
Proof.
  revert j. induction fuel as [|fuel IH]; intros j; simpl; [reflexivity|].
  rewrite blen_bytes, bindex_bytes.
  destruct (j <? len s); [|reflexivity].
  destruct (index s j) as [c|]; simpl; [|reflexivity].
  rewrite byte_eqb_ascii. change (ascii_of_byte rbrace) with rbrace_c.
  destruct (Ascii.eqb c rbrace_c); [reflexivity | apply IH].
Qed.

Lemma loop_agree (fuel : nat) (s : string) (f : string -> string)
    (i e : Z) (sb : option string) :
  loopBytes fuel (bytes s) f i e (option_map bytes sb)
  = option_map liftState (loopString fuel s f i e sb).
Proof.
  revert i e sb. induction fuel as [|fuel IH]; intros i e sb;
    cbn [loopBytes loopString]; [reflexivity|].
  rewrite blen_bytes, !bindex_bytes, bytes_length.
  destruct (i <? len s); cbn [negb]; [|reflexivity].
  destruct (i + 2 >? len s); [reflexivity|].
  destruct (index s i) as [c0|]; cbn [option_map]; [|reflexivity].
  destruct (index s (i + 1)) as [c1|]; cbn [option_map]; [|reflexivity].
  rewrite !byte_eqb_ascii.
  change (ascii_of_byte dollar) with "$"%char.
  change (ascii_of_byte lbrace) with "{"%char.
  destruct (Ascii.eqb c0 "$" && Ascii.eqb c1 "{"); cbn [negb]; [|apply IH].
  rewrite bslice_bytes.
  destruct (slice s e i) as [chunk|]; cbn [option_map]; [|reflexivity].
  rewrite scan_agree.
  destruct (scanString (S (String.length s)) s (i + 2)) as [varEnd|];
    [|reflexivity].
  assert (B : ((match option_map bytes sb with Some b => b | None => [] end)
               ++ bytes chunk)%list
              = bytes ((match sb with Some b => b | None => "" end) ++ chunk)).
  { rewrite bytes_app. destruct sb; reflexivity. }
  rewrite B.
  destruct (varEnd =? -1);
    [apply (IH _ _ (Some _))|].
  destruct (varEnd =? i + 2);
    [apply (IH _ _ (Some _))|].
  rewrite bslice_bytes.
  destruct (slice s (i + 2) varEnd) as [name|]; cbn [option_map]; [|reflexivity].
  rewrite string_of_list_byte_of_string, blen_bytes, <- bytes_app.
  apply (IH _ _ (Some _)).
Qed.

Lemma expand_agree (s : string) (f : string -> string) :
  ExpandVariables (bytes s) f = option_map bytes (ExpandVariablesString s f).
Proof.
  unfold ExpandVariables, ExpandVariablesString.
  rewrite bytes_length.
  change (@None (list byte)) with (option_map bytes None).
  rewrite (loop_agree (S (String.length s)) s f 0 0 None).
  destruct (loopString (S (String.length s)) s f 0 0 None) as [[e [sb|]]|];
    simpl; try reflexivity.
  rewrite bslice_bytes, blen_bytes.
  destruct (slice s e (len s)) as [tail|]; simpl; [|reflexivity].
  now rewrite bytes_app.
Qed.

(** ** Neither implementation panics *)

Lemma get_in_range (s : string) (n : nat) :
  (n < String.length s)%nat -> exists c, String.get n s = Some c.
Proof.
  revert n. induction s as [|c s IH]; intros n H; simpl in H; [lia|].
  destruct n as [|n]; simpl; [now exists c | apply IH; lia].
Qed.

Lemma index_in_range (s : string) (i : Z) :
  0 <= i < len s -> exists c, index s i = Some c.
Proof.
  intros H. unfold index.
  replace ((0 <=? i) && (i <? len s)) with true
    by (symmetry; rewrite andb_true_iff, Z.leb_le, Z.ltb_lt; lia).
  apply get_in_range. unfold len in H. lia.
Qed.

Lemma substring_length (s : string) (n m : nat) :
  (n + m <= String.length s)%nat -> String.length (String.substring n m s) = m.
Proof.
  revert n m. induction s as [|c s IH]; intros n m H; simpl in H.
  - assert (n = O) by lia. assert (m = O) by lia. subst. reflexivity.
  - destruct n as [|n]; simpl.
    + destruct m as [|m]; simpl; [reflexivity|]. f_equal. apply IH. lia.
    + apply IH. lia.
Qed.

Lemma slice_in_range (s : string) (lo hi : Z) :
  0 <= lo <= hi -> hi <= len s ->
  exists r, slice s lo hi = Some r /\ len r = hi - lo.
Proof.
  intros H1 H2. unfold slice.
  replace ((0 <=? lo) && (lo <=? hi) && (hi <=? len s)) with true.
  - eexists. split; [reflexivity|].
    unfold len in *. rewrite substring_length; lia.
  - symmetry. rewrite !andb_true_iff, !Z.leb_le. lia.
Qed.

Lemma scanString_returns (fuel : nat) (s : string) (j : Z) :
  0 <= j <= len s -> len s - j < Z.of_nat fuel ->
  exists r, scanString fuel s j = Some r /\ (r = -1 \/ j <= r < len s).
Proof.
  revert j. induction fuel as [|fuel IH]; intros j H0 H; [lia|].
  cbn [scanString].
  destruct (Z.ltb_spec j (len s)) as [L|L].
  - destruct (index_in_range s j) as [c ->]; [lia|].
    destruct (Ascii.eqb c rbrace_c).
    + exists j. split; [reflexivity | lia].
    + destruct (IH (j + 1)) as [r [-> Hr]]; [lia | lia |].
      exists r. split; [reflexivity | lia].
  - exists (-1). split; [reflexivity | now left].
Qed.

Lemma loopString_returns (fuel : nat) (s : string) (f : string -> string)
    (i e : Z) (sb : option string) :
  0 <= e <= i -> i <= len s -> len s - i < Z.of_nat fuel ->
  exists e' sb', loopString fuel s f i e sb = Some (e', sb') /\ 0 <= e' <= len s.
Proof.
  revert i e sb. induction fuel as [|fuel IH]; intros i e sb Hi He H; [lia|].
  cbn [loopString].
  destruct (Z.ltb_spec i (len s)) as [L|L]; cbn [negb];
    [|exists e, sb; split; [reflexivity | lia]].
  rewrite Z.gtb_ltb.
  destruct (Z.ltb_spec (len s) (i + 2)) as [L2|L2];
    [exists e, sb; split; [reflexivity | lia]|].
  destruct (index_in_range s i) as [c0 ->]; [lia|].
  destruct (index_in_range s (i + 1)) as [c1 ->]; [lia|].
  destruct (Ascii.eqb c0 "$" && Ascii.eqb c1 "{"); cbn [negb];
    [|apply IH; lia].
  destruct (slice_in_range s e i) as [chunk [-> _]]; [lia | lia |].
  destruct (scanString_returns (S (String.length s)) s (i + 2))
    as [varEnd [-> Hv]]; [lia | unfold len; lia |].
  destruct (Z.eqb_spec varEnd (-1)) as [E1|E1]; [apply IH; lia|].
  destruct (Z.eqb_spec varEnd (i + 2)) as [E2|E2]; [apply IH; lia|].
  destruct (slice_in_range s (i + 2) varEnd) as [name [-> Hn]]; [lia | lia |].
  apply IH; lia.
Qed.

Lemma ExpandVariablesString_returns (s : string) (f : string -> string) :
  exists r, ExpandVariablesString s f = Some r.
Proof.
  unfold ExpandVariablesString.
  destruct (loopString_returns (S (String.length s)) s f 0 0 None)
    as [e [sb [-> He]]]; [lia | unfold len; lia | unfold len; lia |].
  destruct sb as [sb|]; [|now exists s].
  destruct (slice_in_range s e (len s)) as [tail [-> _]]; [lia | lia |].
  now eexists.
Qed.

(** C8.  On every string and every mapping the two implementations return,
    and return the same bytes: converting the result of [ExpandVariables] on
    the bytes of [s] to a string gives the result of
    [ExpandVariablesString] on [s]. *)
Theorem C8_bytes_and_string_versions_agree (s : string) (f : string -> string) :
  exists r : string,
    ExpandVariablesString s f = Some r /\
    option_map string_of_list_byte (ExpandVariables (list_byte_of_string s) f)
    = Some r.
Proof.
  destruct (ExpandVariablesString_returns s f) as [r E].
  exists r. split; [exact E|].
  rewrite expand_agree, E. simpl.
  now rewrite string_of_list_byte_of_string.
Qed.

(** The table of the package's tests. *)
Example expand_tests :
  map (fun s => ExpandVariablesString s testMapping)
    [""; "nothing to expand"; "${HOME}"; "start ${HOME} end";
     "foo ${first} bar ${second} baz"; "$"; "$}"; "${"; "${}";
     "start $HOME ${first} $$"; "path: ${@env:HOME}"; "${first}${second}"]
  = map Some
    [""; "nothing to expand"; "/home/foo"; "start /home/foo end";
     "foo abc bar def baz"; "$"; "$}"; "${"; "${}";
     "start $HOME abc $$"; "path: $HOME"; "abcdef"].
Proof. vm_compute. reflexivity. Qed.

(** C7, at an input where the code departs from it.  The only placeholder
    of ["a${"] is the unterminated one, yet both functions return ["aa${"]
    for every mapping: the text before the placeholder is copied to the
    buffer when the ["${"] is met and again at the end, because [end] is left
    where it was.  The same happens before an empty placeholder. *)
Theorem C7_text_before_malformed_placeholder_is_doubled (f : string -> string) :
  ExpandVariablesString "a${" f = Some "aa${" /\
  option_map string_of_list_byte (ExpandVariables (list_byte_of_string "a${") f)
  = Some "aa${" /\
  ExpandVariablesString "a${}" f = Some "aa${}" /\
  option_map string_of_list_byte (ExpandVariables (list_byte_of_string "a${}") f)
  = Some "aa${}".
Proof. repeat split; vm_compute; reflexivity. Qed.

(** ** Strings put together *)

Lemma slen_app (a b : string) :
  String.length (a ++ b) = (String.length a + String.length b)%nat.
Proof. induction a as [|c a IH]; simpl; [reflexivity | now rewrite IH]. Qed.

Lemma tlen_app (a b : string) : len (a ++ b) = len a + len b.
Proof. unfold len. rewrite slen_app. lia. Qed.

Lemma get_app_right (p s : string) (n : nat) :
  String.get (String.length p + n) (p ++ s) = String.get n s.
Proof. induction p as [|c p IH]; simpl; [reflexivity | exact IH]. Qed.

Lemma get_app_left (p s : string) (n : nat) :
  (n < String.length p)%nat -> String.get n (p ++ s) = String.get n p.
Proof.
  revert n. induction p as [|c p IH]; intros n H; simpl in H; [lia|].
  destruct n as [|n]; simpl; [reflexivity | apply IH; lia].
Qed.

Lemma index_app_right (p s : string) (i : Z) :
  0 <= i -> index (p ++ s) (len p + i) = index s i.
Proof.
  intros H. unfold index. rewrite tlen_app.
  replace ((0 <=? len p + i) && (len p + i <? len p + len s))
    with ((0 <=? i) && (i <? len s)).
  - replace (Z.to_nat (len p + i)) with (String.length p + Z.to_nat i)%nat
      by (unfold len; lia).
    now rewrite get_app_right.
  - apply eq_iff_eq_true. rewrite !andb_true_iff, !Z.leb_le, !Z.ltb_lt. unfold len. lia.
Qed.

Lemma index_app_left (p s : string) (i : Z) :
  0 <= i < len p -> index (p ++ s) i = index p i.
Proof.
  intros H. unfold index. rewrite tlen_app.
  pose proof (Zle_0_nat (String.length s)) as Hs. fold (len s) in Hs.
  replace ((0 <=? i) && (i <? len p + len s)) with true
    by (symmetry; rewrite andb_true_iff, Z.leb_le, Z.ltb_lt; lia).
  replace ((0 <=? i) && (i <? len p)) with true
    by (symmetry; rewrite andb_true_iff, Z.leb_le, Z.ltb_lt; lia).
  apply get_app_left. unfold len in H. lia.
Qed.

Lemma substring_app_right (p s : string) (n m : nat) :
  String.substring (String.length p + n) m (p ++ s) = String.substring n m s.
Proof. induction p as [|c p IH]; simpl; [reflexivity | exact IH]. Qed.

Lemma slice_app_right (p s : string) (lo hi : Z) :
  0 <= lo -> slice (p ++ s) (len p + lo) (len p + hi) = slice s lo hi.
Proof.
  intros H. unfold slice. rewrite tlen_app.
  replace ((0 <=? len p + lo) && (len p + lo <=? len p + hi)
           && (len p + hi <=? len p + len s))
    with ((0 <=? lo) && (lo <=? hi) && (hi <=? len s)).
  - replace (Z.to_nat (len p + lo)) with (String.length p + Z.to_nat lo)%nat
      by (unfold len; lia).
    replace (len p + hi - (len p + lo)) with (hi - lo) by lia.
    now rewrite substring_app_right.
  - apply eq_iff_eq_true. rewrite !andb_true_iff, !Z.leb_le. unfold len. lia.
Qed.

Lemma substring_whole (s : string) : String.substring 0 (String.length s) s = s.
Proof. induction s as [|c s IH]; simpl; [reflexivity | now rewrite IH]. Qed.

Lemma substring_left (p s : string) :
  String.substring 0 (String.length p) (p ++ s) = p.
Proof.
  induction p as [|c p IH]; simpl; [destruct s; reflexivity | now rewrite IH].
Qed.

Lemma slice_whole (s : string) : slice s 0 (len s) = Some s.
Proof.
  unfold slice. pose proof (Zle_0_nat (String.length s)) as H. fold (len s) in H.
  replace ((0 <=? 0) && (0 <=? len s) && (len s <=? len s)) with true
    by (symmetry; rewrite !andb_true_iff, !Z.leb_le; lia).
  rewrite Z.sub_0_r. unfold len. rewrite Nat2Z.id. cbn [Z.to_nat].
  now rewrite substring_whole.
Qed.

Lemma slice_left (p s : string) : slice (p ++ s) 0 (len p) = Some p.
Proof.
  unfold slice. rewrite tlen_app.
  pose proof (Zle_0_nat (String.length s)) as H. fold (len s) in H.
  pose proof (Zle_0_nat (String.length p)) as H'. fold (len p) in H'.
  replace ((0 <=? 0) && (0 <=? len p) && (len p <=? len p + len s)) with true
    by (symmetry; rewrite !andb_true_iff, !Z.leb_le; lia).
  rewrite Z.sub_0_r. unfold len. rewrite Nat2Z.id. cbn [Z.to_nat].
  now rewrite substring_left.
Qed.

(** ** Where no placeholder opens *)

Lemma hasOpen_get (s : string) (n : nat) (c0 c1 : ascii) :
  hasOpen s = false ->
  String.get n s = Some c0 -> String.get (S n) s = Some c1 ->
  Ascii.eqb c0 "$" && Ascii.eqb c1 "{" = false.
Proof.
  revert n. induction s as [|c s IH]; intros n H G0 G1; [discriminate|].
  cbn [hasOpen] in H. apply orb_false_iff in H. destruct H as [H Hr].
  destruct n as [|n].
  - cbn in G0, G1. inversion G0; subst c0.
    destruct s as [|d s]; [discriminate|]. cbn in G1. inversion G1; subst c1.
    exact H.
  - cbn in G0. change (String.get (S (S n)) (String c s)) with (String.get (S n) s) in G1.
    exact (IH n Hr G0 G1).
Qed.

Lemma hasOpen_index (s : string) (i : Z) (c0 c1 : ascii) :
  hasOpen s = false ->
  index s i = Some c0 -> index s (i + 1) = Some c1 ->
  Ascii.eqb c0 "$" && Ascii.eqb c1 "{" = false.
Proof.
  intros H. unfold index.
  destruct ((0 <=? i) && (i <? len s)) eqn:A; [|discriminate].
  destruct ((0 <=? i + 1) && (i + 1 <? len s)) eqn:B; [|discriminate].
  apply andb_true_iff in A. destruct A as [A _]. apply Z.leb_le in A.
  replace (Z.to_nat (i + 1)) with (S (Z.to_nat i)) by lia.
  now apply hasOpen_get.
Qed.

(** While no placeholder opens the loop only advances. *)
Lemma loopString_no_open (fuel : nat) (s : string) (f : string -> string)
    (i e : Z) (sb : option string) :
  hasOpen s = false -> 0 <= i <= len s -> len s - i < Z.of_nat fuel ->
  loopString fuel s f i e sb = Some (e, sb).
Proof.
  intros H. revert i. induction fuel as [|fuel IH]; intros i Hi Hf; [lia|].
  cbn [loopString].
  destruct (Z.ltb_spec i (len s)) as [L|L]; cbn [negb]; [|reflexivity].
  rewrite Z.gtb_ltb.
  destruct (Z.ltb_spec (len s) (i + 2)) as [L2|L2]; [reflexivity|].
  destruct (index_in_range s i) as [c0 E0]; [lia|].
  destruct (index_in_range s (i + 1)) as [c1 E1]; [lia|].
  rewrite E0, E1, (hasOpen_index s i c0 c1 H E0 E1). cbn [negb].
  apply IH; lia.
Qed.

Lemma expand_none (s : string) (f : string -> string) :
  hasOpen s = false -> ExpandVariablesString s f = Some s.
Proof.
  intros H. unfold ExpandVariablesString.
  rewrite loopString_no_open;
    [reflexivity | exact H | unfold len; lia | unfold len; lia].
Qed.

(** ** The first placeholder *)

Lemma sapp_assoc' (a b c : string) : (a ++ b) ++ c = a ++ b ++ c.
Proof. induction a as [|x a IH]; simpl; [reflexivity | now rewrite IH]. Qed.

Lemma scanString_more (n k : nat) (s : string) (j r : Z) :
  scanString n s j = Some r -> scanString (n + k) s j = Some r.
Proof.
  revert j. induction n as [|n IH]; intros j H; [discriminate|].
  cbn [scanString Nat.add] in *.
  destruct (j <? len s); [|exact H].
  destruct (index s j) as [c|]; [|discriminate].
  destruct (Ascii.eqb c rbrace_c); [exact H | now apply IH].
Qed.

Lemma scanString_shift (n : nat) (p s : string) (j : Z) :
  0 <= j ->
  scanString n (p ++ s) (len p + j) = option_map (shiftEnd (len p)) (scanString n s j).
Proof.
  revert j. induction n as [|n IH]; intros j H; [reflexivity|].
  cbn [scanString]. rewrite tlen_app, index_app_right by exact H.
  replace (len p + j <? len p + len s) with (j <? len s)
    by (apply eq_iff_eq_true; rewrite !Z.ltb_lt; lia).
  destruct (j <? len s).
  - destruct (index s j) as [c|]; [|reflexivity].
    destruct (Ascii.eqb c rbrace_c).
    + cbn [option_map]. unfold shiftEnd.
      destruct (Z.eqb_spec j (-1)); [lia | reflexivity].
    + replace (len p + j + 1) with (len p + (j + 1)) by lia. apply IH. lia.
  - reflexivity.
Qed.

(** The scan for the closing brace, seen from a suffix of the string. *)
Lemma scan_suffix (p s : string) (j : Z) :
  0 <= j <= len s ->
  exists r, scanString (S (String.length s)) s j = Some r /\
            (r = -1 \/ j <= r < len s) /\
            scanString (S (String.length (p ++ s))) (p ++ s) (len p + j)
            = Some (shiftEnd (len p) r).
Proof.
  intros H.
  destruct (scanString_returns (S (String.length s)) s j) as [r [E Hr]];
    [exact H | unfold len in *; lia |].
  exists r. split; [exact E|]. split; [exact Hr|].
  rewrite slen_app.
  replace (S (String.length p + String.length s))
    with (S (String.length s) + String.length p)%nat by lia.
  rewrite scanString_shift by lia.
  now rewrite (scanString_more _ _ _ _ _ E).
Qed.

Lemma loopString_more (n k : nat) (s : string) (f : string -> string)
    (i e : Z) (sb : option string) (r : Z * option string) :
  loopString n s f i e sb = Some r -> loopString (n + k) s f i e sb = Some r.
Proof.
  revert i e sb. induction n as [|n IH]; intros i e sb H; [discriminate|].
  cbn [loopString Nat.add] in *.
  destruct (negb (i <? len s)); [exact H|].
  destruct (i + 2 >? len s); [exact H|].
  destruct (index s i) as [c0|]; [|discriminate].
  destruct (index s (i + 1)) as [c1|]; [|discriminate].
  destruct (negb (Ascii.eqb c0 "$" && Ascii.eqb c1 "{")); [now apply IH|].
  destruct (slice s e i) as [chunk|]; [|discriminate].
  destruct (scanString (S (String.length s)) s (i + 2)) as [varEnd|]; [|discriminate].
  destruct (varEnd =? -1); [now apply IH|].
  destruct (varEnd =? i + 2); [now apply IH|].
  destruct (slice s (i + 2) varEnd) as [name|]; [|discriminate].
  now apply IH.
Qed.

(** The builder stays nil only while nothing was written, and [end] is then
    still where it was. *)
Lemma loopString_nil (n : nat) (s : string) (f : string -> string)
    (i e e1 : Z) (sb : option string) :
  loopString n s f i e sb = Some (e1, None) -> sb = None /\ e1 = e.
Proof.
  revert i e sb. induction n as [|n IH]; intros i e sb H; [discriminate|].
  cbn [loopString] in H.
  destruct (negb (i <? len s)); [inversion H; now split|].
  destruct (i + 2 >? len s); [inversion H; now split|].
  destruct (index s i) as [c0|]; [|discriminate].
  destruct (index s (i + 1)) as [c1|]; [|discriminate].
  destruct (negb (Ascii.eqb c0 "$" && Ascii.eqb c1 "{")); [now apply IH in H|].
  destruct (slice s e i) as [chunk|]; [|discriminate].
  destruct (scanString (S (String.length s)) s (i + 2)) as [varEnd|]; [|discriminate].
  destruct (varEnd =? -1); [apply IH in H; destruct H; discriminate|].
  destruct (varEnd =? i + 2); [apply IH in H; destruct H; discriminate|].
  destruct (slice s (i + 2) varEnd) as [name|]; [|discriminate].
  apply IH in H; destruct H; discriminate.
Qed.

Lemma slice_len (s : string) (lo hi : Z) (x : string) :
  slice s lo hi = Some x -> len x = hi - lo.
Proof.
  unfold slice.
  destruct ((0 <=? lo) && (lo <=? hi) && (hi <=? len s)) eqn:A; [|discriminate].
  apply andb_true_iff in A. destruct A as [A C]. apply andb_true_iff in A.
  destruct A as [A B]. apply Z.leb_le in A, B, C.
  intros H. inversion H. unfold len in *.
  rewrite substring_length; lia.
Qed.

(** The loop on [p ++ s], once it is past [p] with [b] written, does what
    the loop on [s] does, [len p] further to the right and after [b]. *)
Lemma loopString_shift (n : nat) (p s b : string) (f : string -> string)
    (i e : Z) (sb : option string) :
  0 <= e -> 0 <= i ->
  loopString n (p ++ s) f (len p + i) (len p + e) (Some (b ++ str sb))
  = option_map (fun r => (len p + fst r, Some (b ++ str (snd r))))
      (loopString n s f i e sb).
Proof.
  revert i e sb. induction n as [|n IH]; intros i e sb He Hi; [reflexivity|].
  assert (again : forall i' e' sb' a c x,
            0 <= e' -> 0 <= i' -> a = len p + i' -> c = len p + e' ->
            x = b ++ str sb' ->
            loopString n (p ++ s) f a c (Some x)
            = option_map (fun r => (len p + fst r, Some (b ++ str (snd r))))
                (loopString n s f i' e' sb')).
  { intros i' e' sb' a c x He' Hi' -> -> ->. now apply IH. }
  cbn [loopString].
  rewrite tlen_app.
  replace (len p + i <? len p + len s) with (i <? len s)
    by (apply eq_iff_eq_true; rewrite !Z.ltb_lt; lia).
  destruct (Z.ltb_spec i (len s)) as [L|L]; cbn [negb]; [|reflexivity].
  replace (len p + i + 2 >? len p + len s) with (i + 2 >? len s)
    by (apply eq_iff_eq_true; rewrite !Z.gtb_ltb, !Z.ltb_lt; lia).
  rewrite Z.gtb_ltb.
  destruct (Z.ltb_spec (len s) (i + 2)) as [L2|L2]; [reflexivity|].
  replace (len p + i + 1) with (len p + (i + 1)) by lia.
  rewrite !index_app_right by lia.
  destruct (index s i) as [c0|]; [|reflexivity].
  destruct (index s (i + 1)) as [c1|]; [|reflexivity].
  destruct (negb (Ascii.eqb c0 "$" && Ascii.eqb c1 "{"));
    [apply again; (lia || reflexivity)|].
  rewrite slice_app_right by lia.
  destruct (slice s e i) as [chunk|]; [|reflexivity].
  replace (len p + i + 2) with (len p + (i + 2)) by lia.
  destruct (scan_suffix p s (i + 2)) as [r [-> [Hr ->]]]; [lia|].
  unfold shiftEnd.
  destruct (Z.eqb_spec r (-1)) as [R|R].
  - cbn [Z.eqb].
    apply again; try lia. cbn [str]. apply sapp_assoc'.
  - destruct (Z.eqb_spec (len p + r) (-1)) as [R'|R'];
      [pose proof (Zle_0_nat (String.length p)); unfold len in *; lia|].
    replace (len p + r =? len p + (i + 2)) with (r =? i + 2)
      by (apply eq_iff_eq_true; rewrite !Z.eqb_eq; lia).
    destruct (Z.eqb_spec r (i + 2)) as [Q|Q].
    + apply again; try lia. cbn [str]. apply sapp_assoc'.
    + rewrite slice_app_right by lia.
      destruct (slice s (i + 2) r) as [name|] eqn:N; [|reflexivity].
      pose proof (slice_len _ _ _ _ N).
      apply again; try lia. cbn [str]. now rewrite !sapp_assoc'.
Qed.


Lemma sapp_empty (a : string) : a ++ "" = a.
Proof. induction a as [|x a IH]; simpl; [reflexivity | now rewrite IH]. Qed.

Lemma index_first (c : ascii) (s : string) : index (String c s) 0 = Some c.
Proof.
  unfold index, len. cbn [String.length]. rewrite Nat2Z.inj_succ.
  destruct (Z.ltb_spec 0 (Z.succ (Z.of_nat (String.length s)))); [reflexivity | lia].
Qed.

Lemma index_after (p : string) (c : ascii) (s : string) :
  index (p ++ String c s) (len p) = Some c.
Proof.
  replace (len p) with (len p + 0) by lia.
  rewrite index_app_right by lia. apply index_first.
Qed.

Lemma len_cons (c : ascii) (s : string) : len (String c s) = 1 + len s.
Proof. unfold len. cbn [String.length]. lia. Qed.

Lemma len_pos (s : string) : 0 <= len s.
Proof. unfold len. lia. Qed.

Lemma hasOpen_dollar (pre : string) :
  hasOpen pre = false -> hasOpen (pre ++ "$") = false.
Proof.
  induction pre as [|c pre IH]; intros H; [reflexivity|].
  cbn [hasOpen] in H. apply orb_false_iff in H. destruct H as [H Hr].
  cbn [hasOpen append]. rewrite (IH Hr), orb_false_r.
  destruct pre as [|d pre]; [|exact H].
  cbn [append]. destruct (Ascii.eqb c "$"); reflexivity.
Qed.

(** Before the first ["${"] the loop only advances. *)
Lemma loopString_skip (d m : nat) (pre rest : string) (f : string -> string)
    (i e : Z) (sb : option string) :
  hasOpen pre = false -> 0 <= i -> i + Z.of_nat d = len pre ->
  loopString (d + m) (pre ++ String "$" (String "{" rest)) f i e sb
  = loopString m (pre ++ String "$" (String "{" rest)) f (len pre) e sb.
Proof.
  intros H. revert i. induction d as [|d IH]; intros i Hi Hd.
  - replace i with (len pre) by lia. reflexivity.
  - cbn [Nat.add loopString].
    rewrite tlen_app, !len_cons. pose proof (len_pos rest).
    destruct (Z.ltb_spec i (len pre + (1 + (1 + len rest)))) as [L|L]; [|lia].
    cbn [negb]. rewrite Z.gtb_ltb.
    destruct (Z.ltb_spec (len pre + (1 + (1 + len rest))) (i + 2)) as [L2|L2]; [lia|].
    change (pre ++ String "$" (String "{" rest))
      with (pre ++ ("$" ++ String "{" rest)).
    rewrite <- sapp_assoc'.
    assert (Lp : len (pre ++ "$") = len pre + 1)
      by (rewrite tlen_app, len_cons; reflexivity).
    rewrite !(index_app_left (pre ++ "$")) by lia.
    destruct (index_in_range (pre ++ "$") i) as [c0 E0]; [lia|].
    destruct (index_in_range (pre ++ "$") (i + 1)) as [c1 E1]; [lia|].
    rewrite E0, E1, (hasOpen_index _ i c0 c1 (hasOpen_dollar _ H) E0 E1).
    cbn [negb]. rewrite sapp_assoc'. apply IH; lia.
Qed.

(** The scan stops at the first closing brace. *)
Lemma scan_finds (name : string) (m : nat) (q post : string) :
  hasClose name = false ->
  scanString (String.length name + S m) (q ++ name ++ String "}" post) (len q)
  = Some (len q + len name).
Proof.
  revert q. induction name as [|c name IH]; intros q H.
  - cbn [String.length Nat.add scanString append].
    rewrite tlen_app, len_cons, index_after. pose proof (len_pos post).
    destruct (Z.ltb_spec (len q) (len q + (1 + len post))); [|lia].
    cbn. f_equal. lia.
  - cbn [hasClose] in H. apply orb_false_iff in H. destruct H as [Hc H].
    cbn [String.length Nat.add scanString append].
    rewrite tlen_app, len_cons, index_after, Hc.
    pose proof (len_pos (name ++ String "}" post)).
    destruct (Z.ltb_spec (len q) (len q + (1 + len (name ++ String "}" post)))); [|lia].
    change (q ++ String c (name ++ String "}" post))
      with (q ++ (String c "" ++ (name ++ String "}" post))).
    rewrite <- sapp_assoc'.
    replace (len q + 1) with (len (q ++ String c ""))
      by (rewrite tlen_app, len_cons; reflexivity).
    rewrite IH by exact H.
    rewrite tlen_app, !len_cons. f_equal. unfold len. cbn [String.length]. lia.
Qed.

Lemma open_split (pre rest : string) :
  pre ++ String "$" (String "{" rest) = (pre ++ "${") ++ rest.
Proof. now rewrite sapp_assoc'. Qed.

Lemma len_open (pre : string) : len (pre ++ "${") = len pre + 2.
Proof. rewrite tlen_app. reflexivity. Qed.

Lemma scan_placeholder (pre name post : string) :
  hasClose name = false ->
  scanString (S (String.length (pre ++ String "$" (String "{" (name ++ String "}" post)))))
    (pre ++ String "$" (String "{" (name ++ String "}" post))) (len pre + 2)
  = Some (len pre + 2 + len name).
Proof.
  intros H. rewrite open_split, <- len_open.
  replace (S (String.length ((pre ++ "${") ++ name ++ String "}" post)))
    with (String.length name + S (S (S (S (String.length pre + String.length post)))))%nat
    by (rewrite !slen_app; cbn [String.length]; lia).
  now apply scan_finds.
Qed.

Lemma slice_placeholder (pre name rest : string) :
  slice (pre ++ String "$" (String "{" (name ++ rest)))
    (len pre + 2) (len pre + 2 + len name)
  = Some name.
Proof.
  rewrite open_split, <- len_open.
  replace (len (pre ++ "${")) with (len (pre ++ "${") + 0) at 1 by lia.
  rewrite slice_app_right by lia. apply slice_left.
Qed.

Lemma index_open (pre rest : string) :
  index (pre ++ String "$" (String "{" rest)) (len pre) = Some "$"%char /\
  index (pre ++ String "$" (String "{" rest)) (len pre + 1) = Some "{"%char.
Proof.
  split; [apply index_after|].
  change (pre ++ String "$" (String "{" rest)) with (pre ++ ("$" ++ String "{" rest)).
  rewrite <- sapp_assoc'.
  replace (len pre + 1) with (len (pre ++ "$")) by (rewrite tlen_app; reflexivity).
  apply index_after.
Qed.

Lemma close_split (pre name post : string) :
  pre ++ String "$" (String "{" (name ++ String "}" post))
  = (pre ++ String "$" (String "{" (name ++ "}"))) ++ post.
Proof. rewrite sapp_assoc'. cbn [append]. now rewrite sapp_assoc'. Qed.

Lemma len_placeholder (pre name : string) :
  len (pre ++ String "$" (String "{" (name ++ "}"))) = len pre + len name + 3.
Proof.
  rewrite tlen_app, !len_cons, tlen_app, len_cons.
  change (len EmptyString) with 0. lia.
Qed.

Lemma Expand_finish (src : string) (f : string -> string) :
  ExpandVariablesString src f
  = match loopString (S (String.length src)) src f 0 0 None with
    | None => None
    | Some r => finish src r
    end.
Proof.
  unfold ExpandVariablesString, finish.
  destruct (loopString _ src f 0 0 None) as [[e [sb|]]|]; reflexivity.
Qed.

Lemma expand_first (pre name post r : string) (f : string -> string) :
  hasOpen pre = false -> hasClose name = false -> name <> "" ->
  ExpandVariablesString post f = Some r ->
  ExpandVariablesString (pre ++ "${" ++ name ++ "}" ++ post) f
  = Some (pre ++ f name ++ r).
Proof.
  intros Hpre Hname Hne Hpost.
  assert (Hn : 0 < len name).
  { destruct name; [congruence | rewrite len_cons; pose proof (len_pos name); lia]. }
  destruct (loopString_returns (S (String.length post)) post f 0 0 None)
    as [e1 [sb1 [E1 He1]]]; [lia | apply len_pos | unfold len; lia |].
  assert (Er : finish post (e1, sb1) = Some r)
    by (now rewrite Expand_finish, E1 in Hpost).
  rewrite Expand_finish.
  {
    set (src := pre ++ "${" ++ name ++ "}" ++ post).
    assert (Ls : String.length src
                 = (String.length pre + (S (S (String.length post))
                                         + S (String.length name)))%nat).
    { unfold src. rewrite !slen_app. cbn [String.length]. lia. }
    rewrite Ls.
    replace (S (String.length pre + (S (S (String.length post)) + S (String.length name))))
      with (String.length pre
            + S (S (String.length post) + S (S (String.length name))))%nat by lia.
    unfold src at 1.
    change (pre ++ "${" ++ name ++ "}" ++ post)
      with (pre ++ String "$" (String "{" (name ++ "}" ++ post))).
    rewrite (loopString_skip _ _ pre _ f 0 0 None Hpre) by (unfold len; lia).
    cbn [loopString append].
    destruct (index_open pre (name ++ String "}" post)) as [-> ->].
    rewrite scan_placeholder by exact Hname.
    rewrite slice_placeholder, slice_left.
    rewrite tlen_app, !len_cons, tlen_app, len_cons.
    pose proof (len_pos pre). pose proof (len_pos post).
    destruct (Z.ltb_spec (len pre) (len pre + (1 + (1 + (len name + (1 + len post))))))
      as [L|L]; [|lia].
    cbn [negb]. rewrite Z.gtb_ltb.
    destruct (Z.ltb_spec (len pre + (1 + (1 + (len name + (1 + len post)))))
                (len pre + 2)) as [L2|L2]; [lia|].
    cbn [Ascii.eqb Bool.eqb andb negb].
    destruct (Z.eqb_spec (len pre + 2 + len name) (-1)) as [A|A]; [lia|].
    destruct (Z.eqb_spec (len pre + 2 + len name) (len pre + 2)) as [B|B]; [lia|].
    unfold src. cbn [append]. rewrite close_split.
    set (p := pre ++ String "$" (String "{" (name ++ "}"))).
    assert (Lp : len p = len pre + len name + 3) by apply len_placeholder.
    replace (len pre + len name + 2 + 1) with (len p + 0) by lia.
    rewrite <- (sapp_empty (pre ++ f name)).
    change ((pre ++ f name) ++ "") with ((pre ++ f name) ++ str None).
    rewrite loopString_shift by lia.
    rewrite (loopString_more _ _ _ _ _ _ _ _ E1).
    cbn [option_map fst snd]. unfold finish. cbn [fst snd].
    replace (len (p ++ post)) with (len p + len post) by (now rewrite tlen_app).
    rewrite slice_app_right by lia.
    rewrite sapp_assoc'.
    destruct sb1 as [x|].
    - unfold finish in Er. cbn [fst snd] in Er.
      destruct (slice post e1 (len post)) as [tail|]; [|discriminate].
      inversion Er. cbn [str]. now rewrite !sapp_assoc'.
    - destruct (loopString_nil _ _ _ _ _ _ _ E1) as [_ ->].
      unfold finish in Er. cbn [fst snd] in Er. inversion Er.
      rewrite slice_whole. cbn [str]. now rewrite sapp_empty, sapp_assoc'. }
Qed.

Lemma expand_template (segs : list (string * string)) (last : string)
    (f : string -> string) :
  wellFormed segs last = true ->
  ExpandVariablesString (template segs last) f = Some (expanded f segs last).
Proof.
  unfold wellFormed. intros H. apply andb_true_iff in H. destruct H as [H Hl].
  apply negb_true_iff in Hl.
  induction segs as [|[pre name] segs IH]; cbn [template expanded].
  - now apply expand_none.
  - cbn [forallb fst snd] in H. apply andb_true_iff in H. destruct H as [H Hr].
    apply andb_true_iff in H. destruct H as [H Hn].
    apply andb_true_iff in H. destruct H as [Hp Hc].
    apply negb_true_iff in Hp, Hc, Hn. apply String.eqb_neq in Hn.
    now apply expand_first; [| | | apply IH].
Qed.

(** X1.  A source in which ["${"] does not occur is returned as it is, by
    the string version and by the byte version, whatever the mapping. *)
Theorem no_placeholder_returns_src (s : string) (f : string -> string) :
  hasOpen s = false ->
  ExpandVariablesString s f = Some s /\
  ExpandVariables (bytes s) f = Some (bytes s).
Proof.
  intros H. pose proof (expand_none s f H) as E.
  split; [exact E|]. now rewrite expand_agree, E.
Qed.

Lemma no_placeholder_witness :
  ExpandVariablesString "start $HOME $$ {x} end" testMapping
  = Some "start $HOME $$ {x} end" /\
  ExpandVariables (bytes "start $HOME $$ {x} end") testMapping
  = Some (bytes "start $HOME $$ {x} end").
Proof.
  exact (no_placeholder_returns_src "start $HOME $$ {x} end" testMapping eq_refl).
Defined.

(** X2.  The first placeholder: when ["${"] does not occur in [pre] and
    [name] is not empty and has no ["}"], the expansion of
    [pre ++ "${" ++ name ++ "}" ++ post] is [pre], then the mapping of
    [name], then the expansion of [post] on its own; in both versions. *)
Theorem first_placeholder_expanded (pre name post : string)
    (f : string -> string) :
  hasOpen pre = false -> hasClose name = false -> name <> "" ->
  exists r,
    ExpandVariablesString post f = Some r /\
    ExpandVariablesString (pre ++ "${" ++ name ++ "}" ++ post) f
    = Some (pre ++ f name ++ r) /\
    ExpandVariables (bytes (pre ++ "${" ++ name ++ "}" ++ post)) f
    = Some (bytes (pre ++ f name ++ r)).
Proof.
  intros Hpre Hname Hne.
  destruct (ExpandVariablesString_returns post f) as [r E].
  pose proof (expand_first pre name post r f Hpre Hname Hne E) as Esrc.
  exists r. split; [exact E|]. split; [exact Esrc|].
  now rewrite expand_agree, Esrc.
Qed.

Lemma first_placeholder_witness :
  exists r,
    ExpandVariablesString " and ${" testMapping = Some r /\
    ExpandVariablesString ("$ in " ++ "${" ++ "@env:HOME" ++ "}" ++ " and ${")
      testMapping
    = Some ("$ in " ++ testMapping "@env:HOME" ++ r) /\
    ExpandVariables (bytes ("$ in " ++ "${" ++ "@env:HOME" ++ "}" ++ " and ${"))
      testMapping
    = Some (bytes ("$ in " ++ testMapping "@env:HOME" ++ r)).
Proof.
  refine (first_placeholder_expanded "$ in " "@env:HOME" " and ${" testMapping
            eq_refl eq_refl _).
  discriminate.
Defined.

(** X3.  A well-formed template is expanded completely: when no piece of
    text contains ["${"] and every name is non-empty and free of ["}"], the
    result is the template with each [${name}] replaced by the mapping of
    [name], in both versions. *)
Theorem wellformed_template_expanded (segs : list (string * string))
    (last : string) (f : string -> string) :
  wellFormed segs last = true ->
  ExpandVariablesString (template segs last) f = Some (expanded f segs last) /\
  ExpandVariables (bytes (template segs last)) f
  = Some (bytes (expanded f segs last)).
Proof.
  intros H. pose proof (expand_template segs last f H) as E.
  split; [exact E|]. now rewrite expand_agree, E.
Qed.

Lemma wellformed_template_witness :
  ExpandVariablesString
    (template [("foo ", "first"); (" bar ", "second")] " baz") testMapping
  = Some (expanded testMapping [("foo ", "first"); (" bar ", "second")] " baz") /\
  ExpandVariables
    (bytes (template [("foo ", "first"); (" bar ", "second")] " baz")) testMapping
  = Some (bytes (expanded testMapping
                   [("foo ", "first"); (" bar ", "second")] " baz")).
Proof.
  exact (wellformed_template_expanded
           [("foo ", "first"); (" bar ", "second")] " baz" testMapping eq_refl).
Defined.

(** X4.  Neither version ever panics: for every source and every mapping
    all the indexing and slicing stays in range and a result is returned. *)
Theorem expansion_never_panics (src : list byte) (s : string)
    (f : string -> string) :
  (exists r, ExpandVariables src f = Some r) /\
  (exists r, ExpandVariablesString s f = Some r).
Proof.
  split; [|apply ExpandVariablesString_returns].
  rewrite <- (list_byte_of_string_of_list_byte src), expand_agree.
  destruct (ExpandVariablesString_returns (string_of_list_byte src) f) as [r ->].
  now exists (bytes r).
Qed.

(** ** The version with the regular expression *)

Lemma bytes_cons (c : ascii) (s : string) :
  bytes (String c s) = byte_of_ascii c :: bytes s.
Proof. reflexivity. Qed.

Lemma matchHere_cons (c d : ascii) (s : string) (r : list byte) :
  Ascii.eqb c "$" && Ascii.eqb d "{" = false ->
  matchHere (byte_of_ascii c :: byte_of_ascii d :: r) = None.
Proof.
  intros H. cbn [matchHere]. rewrite !byte_eqb_ascii.
  change (ascii_of_byte dollar) with "$"%char.
  change (ascii_of_byte lbrace) with "{"%char.
  now rewrite H.
Qed.

(** No match begins in a piece of text without ["${"], unless its last
    character and the byte that follows make one. *)
Lemma find_plain (pre : string) (r : list byte) (off : Z) :
  hasOpen pre = false ->
  match r with b :: _ => Byte.eqb b lbrace = false | [] => True end ->
  FindAllSubmatchIndex (bytes pre ++ r) off O
  = FindAllSubmatchIndex r (off + len pre) O.
Proof.
  revert off. induction pre as [|c pre IH]; intros off H Hr.
  - cbn [bytes list_byte_of_string list_ascii_of_string map app].
    f_equal. unfold len. cbn. lia.
  - cbn [hasOpen] in H. apply orb_false_iff in H. destruct H as [H Hp].
    rewrite bytes_cons. cbn [app FindAllSubmatchIndex].
    assert (N : matchHere (byte_of_ascii c :: bytes pre ++ r) = None).
    { destruct pre as [|d pre].
      - cbn [bytes list_byte_of_string list_ascii_of_string map app].
        destruct r as [|b r]; [reflexivity|].
        cbn [matchHere]. rewrite Hr. now rewrite andb_false_r.
      - rewrite bytes_cons. cbn [app]. now apply (matchHere_cons c d pre). }
    rewrite N, IH by assumption.
    f_equal. rewrite len_cons. lia.
Qed.

Lemma find_skip (q r : list byte) (off : Z) :
  FindAllSubmatchIndex (q ++ r) off (List.length q)
  = FindAllSubmatchIndex r (off + Z.of_nat (List.length q)) O.
Proof.
  revert off. induction q as [|b q IH]; intros off.
  - cbn [app List.length]. f_equal. lia.
  - cbn [app List.length FindAllSubmatchIndex]. rewrite IH. f_equal. lia.
Qed.

Lemma nameRun_name (name : string) (r : list byte) :
  wordName name = true ->
  nameRun (bytes name ++ rbrace :: r) = String.length name /\
  nth_error (bytes name ++ rbrace :: r) (String.length name) = Some rbrace.
Proof.
  induction name as [|c name IH]; intros H.
  - split; reflexivity.
  - cbn [wordName] in H. apply andb_true_iff in H. destruct H as [Hc H].
    rewrite bytes_cons. cbn [app nameRun String.length nth_error].
    rewrite Hc. destruct (IH H) as [E1 E2]. now rewrite E1, E2.
Qed.

Lemma matchHere_placeholder (name : string) (r : list byte) :
  wordName name = true -> name <> "" ->
  matchHere (dollar :: lbrace :: bytes name ++ rbrace :: r)
  = Some (String.length name).
Proof.
  intros H N. cbn [matchHere].
  change (Byte.eqb dollar dollar && Byte.eqb lbrace lbrace) with true. cbv iota.
  destruct (nameRun_name name r H) as [-> ->].
  change (Byte.eqb rbrace rbrace) with true.
  destruct name; [congruence | reflexivity].
Qed.

Lemma find_match (b : byte) (rest : list byte) (off : Z) (n : nat) :
  matchHere (b :: rest) = Some n ->
  FindAllSubmatchIndex (b :: rest) off O
  = (off, off + Z.of_nat n + 3, off + 2, off + 2 + Z.of_nat n)
    :: FindAllSubmatchIndex rest (off + 1) (n + 2).
Proof. intros H. cbn [FindAllSubmatchIndex]. now rewrite H. Qed.

(** The matches in a well-formed template with names of the class. *)
Lemma find_template (segs : list (string * string)) (last : string) (d : Z) :
  wellFormed segs last = true ->
  forallb (fun seg => wordName (snd seg)) segs = true ->
  FindAllSubmatchIndex (bytes (template segs last)) d O = positions segs d.
Proof.
  unfold wellFormed. intros H W. apply andb_true_iff in H. destruct H as [H Hl].
  apply negb_true_iff in Hl. revert d.
  induction segs as [|[pre name] segs IH]; intros d; cbn [template positions].
  - rewrite <- (app_nil_r (bytes last)). now rewrite find_plain.
  - cbn [forallb fst snd] in H, W.
    apply andb_true_iff in H. destruct H as [H Hr].
    apply andb_true_iff in H. destruct H as [H Hn].
    apply andb_true_iff in H. destruct H as [Hp Hc].
    apply andb_true_iff in W. destruct W as [Wn W].
    apply negb_true_iff in Hp, Hn. apply String.eqb_neq in Hn.
    rewrite bytes_app. rewrite find_plain; [|exact Hp|reflexivity].
    cbn [append]. rewrite !bytes_cons, bytes_app, bytes_cons.
    change (byte_of_ascii "$") with dollar.
    change (byte_of_ascii "{") with lbrace.
    change (byte_of_ascii "}") with rbrace.
    rewrite (find_match _ _ _ _ (matchHere_placeholder name _ Wn Hn)).
    replace (lbrace :: bytes name ++ rbrace :: bytes (template segs last))%list
      with ((lbrace :: bytes name ++ [rbrace]) ++ bytes (template segs last))%list
      by (cbn [app]; now rewrite <- app_assoc).
    replace (String.length name + 2)%nat
      with (List.length (lbrace :: bytes name ++ [rbrace]))
      by (cbn [List.length]; rewrite length_app, bytes_length; cbn; lia).
    rewrite find_skip, IH by assumption.
    cbn [List.length]. rewrite length_app, bytes_length. cbn [List.length].
    unfold len. f_equal. f_equal. lia.
Qed.

Lemma template_split (segs : list (string * string)) (last : string) :
  template segs last = templateBody segs ++ last.
Proof.
  induction segs as [|[pre name] segs IH]; cbn [template templateBody];
    [reflexivity|].
  now rewrite IH, !sapp_assoc'.
Qed.

Lemma expanded_split (f : string -> string) (segs : list (string * string))
    (last : string) :
  expanded f segs last = expandedBody f segs ++ last.
Proof.
  induction segs as [|[pre name] segs IH]; cbn [expanded expandedBody];
    [reflexivity|].
  now rewrite IH, !sapp_assoc'.
Qed.

(** The loop over the matches of a well-formed template that follows a
    prefix [p] of the source. *)
Lemma loopRegex_template (f : string -> string) (segs : list (string * string))
    (p last : string) (result : list byte) :
  loopRegex (positions segs (len p)) (bytes (p ++ template segs last)) f
    (len p) result
  = Some (len p + len (templateBody segs),
          (result ++ bytes (expandedBody f segs))%list).
Proof.
  revert p result.
  induction segs as [|[pre name] segs IH]; intros p result;
    cbn [positions loopRegex template templateBody expandedBody].
  - cbn. rewrite app_nil_r. f_equal. f_equal. lia.
  - rewrite !bslice_bytes.
    (* the name *)
    replace (p ++ pre ++ "${" ++ name ++ "}" ++ template segs last)
      with (((p ++ pre) ++ "${") ++ name ++ "}" ++ template segs last)
      by (now rewrite !sapp_assoc').
    replace (len p + len pre + 2) with (len ((p ++ pre) ++ "${") + 0)
      by (rewrite !tlen_app; change (len "${") with 2; lia).
    replace (len ((p ++ pre) ++ "${") + 0 + len name)
      with (len ((p ++ pre) ++ "${") + len name) by lia.
    rewrite slice_app_right, slice_left by lia.
    cbn [option_map]. rewrite string_of_list_byte_of_string.
    (* the text before it *)
    replace (((p ++ pre) ++ "${") ++ name ++ "}" ++ template segs last)
      with (p ++ pre ++ "${" ++ name ++ "}" ++ template segs last)
      by (now rewrite !sapp_assoc').
    replace (len p) with (len p + 0) at 1 by lia.
    rewrite slice_app_right, slice_left by lia.
    cbn [option_map].
    (* the rest *)
    replace (p ++ pre ++ "${" ++ name ++ "}" ++ template segs last)
      with ((p ++ pre ++ "${" ++ name ++ "}") ++ template segs last)
      by (now rewrite !sapp_assoc').
    assert (L : len (p ++ pre ++ "${" ++ name ++ "}")
                = len p + len pre + len name + 3).
    { rewrite !tlen_app. change (len "${") with 2. change (len "}") with 1. lia. }
    replace (len ((p ++ pre) ++ "${") + 0 - 2 + len name + 3)
      with (len (p ++ pre ++ "${" ++ name ++ "}")).
    2:{ rewrite L, !tlen_app. change (len "${") with 2. lia. }
    rewrite <- L, IH, L. f_equal. f_equal.
    + rewrite !tlen_app. change (len "${") with 2. change (len "}") with 1. lia.
    + rewrite !bytes_app, <- !app_assoc. reflexivity.
Qed.

Lemma regex_template (segs : list (string * string)) (last : string)
    (f : string -> string) :
  wellFormed segs last = true ->
  forallb (fun seg => wordName (snd seg)) segs = true ->
  ExpandVariablesRegex (bytes (template segs last)) f
  = Some (bytes (expanded f segs last)).
Proof.
  intros H W. unfold ExpandVariablesRegex.
  rewrite (find_template segs last 0 H W).
  pose proof (loopRegex_template f segs "" last []) as E.
  cbn [append app] in E. change (len "") with 0 in E. rewrite E.
  rewrite blen_bytes, bslice_bytes, template_split, tlen_app.
  replace (0 + len (templateBody segs)) with (len (templateBody segs) + 0) by lia.
  rewrite slice_app_right, slice_whole by lia.
  cbn [option_map]. now rewrite expanded_split, bytes_app.
Qed.

(** A source without a closing brace, or without ["${"], has no match. *)
Lemma nth_error_close (name : string) (n : nat) (b : byte) :
  hasClose name = false -> nth_error (bytes name) n = Some b ->
  Byte.eqb b rbrace = false.
Proof.
  revert n. induction name as [|c name IH]; intros n H E; [now destruct n|].
  cbn [hasClose] in H. apply orb_false_iff in H. destruct H as [Hc H].
  rewrite bytes_cons in E. destruct n as [|n]; cbn [nth_error] in E.
  - inversion E. rewrite byte_eqb_ascii. exact Hc.
  - exact (IH n H E).
Qed.

Lemma matchHere_no_close (s : string) :
  hasClose s = false -> matchHere (bytes s) = None.
Proof.
  intros H. destruct s as [|c [|d s]]; [reflexivity | reflexivity |].
  rewrite !bytes_cons. cbn [matchHere].
  destruct (_ && _); [|reflexivity].
  destruct (0 <? nameRun (bytes s))%nat; [|reflexivity].
  destruct (nth_error (bytes s) (nameRun (bytes s))) as [b|] eqn:E; [|reflexivity].
  cbn [hasClose] in H. apply orb_false_iff in H. destruct H as [_ H].
  apply orb_false_iff in H. destruct H as [_ H].
  now rewrite (nth_error_close s _ b H E).
Qed.

Lemma find_no_close (s : string) (off : Z) :
  hasClose s = false -> FindAllSubmatchIndex (bytes s) off O = [].
Proof.
  revert off. induction s as [|c s IH]; intros off H; [reflexivity|].
  pose proof (matchHere_no_close _ H) as N.
  cbn [hasClose] in H. apply orb_false_iff in H. destruct H as [_ H].
  rewrite bytes_cons in *. cbn [FindAllSubmatchIndex]. rewrite N.
  now apply IH.
Qed.

Lemma regex_no_match (s : string) (f : string -> string) :
  FindAllSubmatchIndex (bytes s) 0 O = [] ->
  ExpandVariablesRegex (bytes s) f = Some (bytes s).
Proof.
  intros H. unfold ExpandVariablesRegex. rewrite H. cbn [loopRegex].
  rewrite blen_bytes, bslice_bytes, slice_whole. reflexivity.
Qed.

(** X16.  The version with the regular expression agrees with the other
    two on well-formed templates whose names are made of letters, digits,
    underscores and hyphens: each placeholder is replaced by the mapping of
    its name. *)
Theorem regex_version_agrees_on_word_names (segs : list (string * string))
    (last : string) (f : string -> string) :
  wellFormed segs last = true ->
  forallb (fun seg => wordName (snd seg)) segs = true ->
  ExpandVariablesRegex (bytes (template segs last)) f
  = Some (bytes (expanded f segs last)) /\
  ExpandVariablesRegex (bytes (template segs last)) f
  = ExpandVariables (bytes (template segs last)) f.
Proof.
  intros H W. pose proof (regex_template segs last f H W) as E.
  split; [exact E|].
  now rewrite E, expand_agree, (expand_template segs last f H).
Qed.

Lemma regex_version_witness :
  ExpandVariablesRegex
    (bytes (template [("foo ", "first"); (" bar ", "second")] " baz")) testMapping
  = Some (bytes (expanded testMapping
                   [("foo ", "first"); (" bar ", "second")] " baz")) /\
  ExpandVariablesRegex
    (bytes (template [("foo ", "first"); (" bar ", "second")] " baz")) testMapping
  = ExpandVariables
      (bytes (template [("foo ", "first"); (" bar ", "second")] " baz")) testMapping.
Proof.
  exact (regex_version_agrees_on_word_names
           [("foo ", "first"); (" bar ", "second")] " baz" testMapping
           eq_refl eq_refl).
Defined.

(** X17.  The version with the regular expression returns a copy of the
    source when ["${"] or ["}"] does not occur in it; an unterminated
    placeholder does not double the text before it. *)
Theorem regex_version_keeps_malformed (s : string) (f : string -> string) :
  hasOpen s = false \/ hasClose s = false ->
  ExpandVariablesRegex (bytes s) f = Some (bytes s).
Proof.
  intros [H|H]; apply regex_no_match.
  - rewrite <- (app_nil_r (bytes s)). now rewrite find_plain.
  - now apply find_no_close.
Qed.

Lemma regex_version_keeps_witness :
  ExpandVariablesRegex (bytes "a${ and ${b") testMapping
  = Some (bytes "a${ and ${b").
Proof.
  apply (regex_version_keeps_malformed "a${ and ${b" testMapping).
  right. reflexivity.
Defined.


(** ** Names the regular expression does not accept *)

(** The run of a name that is not of the class ends at one of its own
    characters. *)
Lemma nameRun_other (name : string) (r : list byte) :
  wordName name = false ->
  exists b,
    nth_error (bytes name ++ r) (nameRun (bytes name ++ r)) = Some b /\
    nth_error (bytes name) (nameRun (bytes name ++ r)) = Some b.
Proof.
  induction name as [|c name IH]; intros H; [discriminate|].
  cbn [wordName] in H. rewrite bytes_cons. cbn [app nameRun].
  destruct (isNameByte (byte_of_ascii c)).
  - cbn [andb] in H. destruct (IH H) as [b [E1 E2]].
    exists b. now split.
  - exists (byte_of_ascii c). now split.
Qed.

Lemma matchHere_other (name : string) (r : list byte) :
  wordName name = false -> hasClose name = false ->
  matchHere (dollar :: lbrace :: bytes name ++ r) = None.
Proof.
  intros W H. cbn [matchHere].
  destruct (_ && _); [|reflexivity].
  destruct (0 <? _)%nat; [|reflexivity].
  destruct (nameRun_other name r W) as [b [-> E]].
  now rewrite (nth_error_close name _ b H E).
Qed.

Lemma hasOpen_cons (c : ascii) (s : string) :
  Ascii.eqb c "$" = false -> hasOpen (String c s) = hasOpen s.
Proof. intros H. cbn [hasOpen]. now rewrite H. Qed.

Lemma hasOpen_app (a : string) (c : ascii) (s : string) :
  Ascii.eqb c "{" = false ->
  hasOpen a = false -> hasOpen (String c s) = false ->
  hasOpen (a ++ String c s) = false.
Proof.
  intros Hc Ha Hs. induction a as [|x a IH]; [exact Hs|].
  cbn [hasOpen] in Ha. apply orb_false_iff in Ha. destruct Ha as [Hx Ha].
  cbn [append hasOpen]. rewrite (IH Ha), orb_false_r.
  destruct a as [|y a]; [|exact Hx].
  cbn [append]. now rewrite Hc, andb_false_r.
Qed.

Lemma find_no_match (b : byte) (rest : list byte) (off : Z) :
  matchHere (b :: rest) = None ->
  FindAllSubmatchIndex (b :: rest) off O
  = FindAllSubmatchIndex rest (off + 1) O.
Proof. intros H. cbn [FindAllSubmatchIndex]. now rewrite H. Qed.

Lemma find_none_other (pre name post : string) (off : Z) :
  hasOpen pre = false -> hasOpen name = false -> hasClose name = false ->
  wordName name = false -> hasOpen post = false ->
  FindAllSubmatchIndex (bytes (pre ++ "${" ++ name ++ "}" ++ post)) off O = [].
Proof.
  intros Hp Hn Hc W Ho.
  rewrite bytes_app, find_plain; [|exact Hp|reflexivity].
  assert (E : bytes ("${" ++ name ++ "}" ++ post)
              = (dollar :: lbrace :: bytes name ++ bytes ("}" ++ post))%list).
  { cbn [append]. rewrite !bytes_cons, bytes_app. reflexivity. }
  rewrite E, find_no_match by (now apply matchHere_other).
  assert (F : (lbrace :: bytes name ++ bytes ("}" ++ post))%list
              = (bytes (String "{" (name ++ String "}" post)) ++ [])%list).
  { rewrite app_nil_r, bytes_cons. now rewrite (bytes_app name). }
  rewrite F, find_plain; [reflexivity| |exact I].
  rewrite hasOpen_cons by reflexivity.
  apply hasOpen_app; [reflexivity | exact Hn |].
  now rewrite hasOpen_cons.
Qed.

(** X21.  Where the versions differ: a placeholder whose name has a
    character outside letters, digits, underscore and hyphen is left as it
    is by [ExpandVariablesRegex] and replaced by [ExpandVariables]. *)
Theorem regex_version_ignores_other_names (pre name post : string)
    (f : string -> string) :
  hasOpen pre = false -> hasOpen name = false -> hasClose name = false ->
  wordName name = false -> hasOpen post = false ->
  ExpandVariablesRegex (bytes (pre ++ "${" ++ name ++ "}" ++ post)) f
  = Some (bytes (pre ++ "${" ++ name ++ "}" ++ post)) /\
  ExpandVariables (bytes (pre ++ "${" ++ name ++ "}" ++ post)) f
  = Some (bytes (pre ++ f name ++ post)).
Proof.
  intros Hp Hn Hc W Ho. split.
  - apply regex_no_match. now apply find_none_other.
  - rewrite expand_agree.
    rewrite (expand_first pre name post post f Hp Hc);
      [reflexivity | | now apply expand_none].
    intros ->. discriminate.
Qed.

Lemma regex_version_ignores_witness :
  ExpandVariablesRegex (bytes ("path: " ++ "${" ++ "@env:HOME" ++ "}" ++ "!"))
    testMapping
  = Some (bytes ("path: " ++ "${" ++ "@env:HOME" ++ "}" ++ "!")) /\
  ExpandVariables (bytes ("path: " ++ "${" ++ "@env:HOME" ++ "}" ++ "!"))
    testMapping
  = Some (bytes ("path: " ++ testMapping "@env:HOME" ++ "!")).
Proof.
  exact (regex_version_ignores_other_names "path: " "@env:HOME" "!" testMapping
           eq_refl eq_refl eq_refl eq_refl eq_refl).
Defined.

End TextutilProofs.
(* ================================================================== *)
(** * Properties of package spinner *)
(* ================================================================== *)

Module SpinnerProofs.
Import Go Spinner.

(** ** Strings *)

Lemma len_nonneg (m : string) : 0 <= len m.
Proof. unfold len. lia. Qed.

Lemma len_String (c : ascii) (m : string) : len (String c m) = len m + 1.
Proof. unfold len. simpl String.length. lia. Qed.

Lemma len_app (a b : string) : len (a ++ b) = len a + len b.
Proof.
  induction a as [|c a IH]; [reflexivity|].
  simpl append. rewrite !len_String, IH. lia.
Qed.

Lemma index_head (c : ascii) (m : string) : index (String c m) 0 = Some c.
Proof.
  unfold index. rewrite len_String.
  pose proof (len_nonneg m).
  replace (0 <? len m + 1) with true by (symmetry; apply Z.ltb_lt; lia).
  reflexivity.
Qed.

Lemma index_empty (i : Z) : index "" i = None.
Proof.
  unfold index. destruct ((0 <=? i) && (i <? len "")); reflexivity.
Qed.

Lemma substring_all (m : string) : String.substring 0 (String.length m) m = m.
Proof. induction m as [|c m IH]; simpl; [reflexivity | now rewrite IH]. Qed.

Lemma slice_tail (c : ascii) (m : string) :
  slice (String c m) 1 (len (String c m)) = Some m.
Proof.
  unfold slice. rewrite len_String. pose proof (len_nonneg m).
  replace ((0 <=? 1) && (1 <=? len m + 1) && (len m + 1 <=? len m + 1)) with true
    by (symmetry; rewrite !andb_true_iff, !Z.leb_le; lia).
  replace (Z.to_nat (len m + 1 - 1)) with (String.length m) by (unfold len; lia).
  change (Z.to_nat 1) with 1%nat. simpl String.substring.
  now rewrite substring_all.
Qed.

Lemma get_last (p : string) (c : ascii) :
  String.get (String.length p) (p ++ String c "") = Some c.
Proof. induction p as [|a p IH]; simpl; [reflexivity | exact IH]. Qed.

Lemma substring_prefix (p q : string) :
  String.substring 0 (String.length p) (p ++ q) = p.
Proof.
  induction p as [|a p IH]; simpl.
  - destruct q; reflexivity.
  - now rewrite IH.
Qed.

(** The last character of a non-empty string and what stands before it, as
    [m[len(m)-1]] and [m[:len(m)-1]] compute them. *)
Lemma index_last (p : string) (c : ascii) :
  index (p ++ String c "") (len (p ++ String c "") - 1) = Some c.
Proof.
  unfold index. rewrite len_app, len_String. pose proof (len_nonneg p).
  change (len "") with 0.
  replace ((0 <=? len p + (0 + 1) - 1) && (len p + (0 + 1) - 1 <? len p + (0 + 1)))
    with true by (symmetry; rewrite andb_true_iff, Z.leb_le, Z.ltb_lt; lia).
  replace (Z.to_nat (len p + (0 + 1) - 1)) with (String.length p)
    by (unfold len; lia).
  apply get_last.
Qed.

Lemma slice_init (p : string) (c : ascii) :
  slice (p ++ String c "") 0 (len (p ++ String c "") - 1) = Some p.
Proof.
  unfold slice. rewrite len_app, len_String. pose proof (len_nonneg p).
  change (len "") with 0.
  replace ((0 <=? 0) && (0 <=? len p + (0 + 1) - 1)
           && (len p + (0 + 1) - 1 <=? len p + (0 + 1)))
    with true by (symmetry; rewrite !andb_true_iff, !Z.leb_le; lia).
  replace (Z.to_nat (len p + (0 + 1) - 1 - 0)) with (String.length p)
    by (unfold len; lia).
  change (Z.to_nat 0) with 0%nat. now rewrite substring_prefix.
Qed.

Lemma last_split (m : string) :
  m <> "" -> exists p c, m = p ++ String c "".
Proof.
  induction m as [|a m IH]; intros H; [congruence|].
  destruct m as [|b m].
  - now exists "", a.
  - destruct IH as [p [c E]]; [discriminate|].
    exists (String a p), c. simpl. now rewrite E.
Qed.

Lemma slice_firstChars (m : string) (n : Z) :
  0 <= n <= len m -> slice m 0 n = Some (spec_firstChars n m).
Proof.
  intros H. unfold slice, spec_firstChars.
  replace ((0 <=? 0) && (0 <=? n) && (n <=? len m)) with true
    by (symmetry; rewrite !andb_true_iff, !Z.leb_le; lia).
  now rewrite Z.sub_0_r.
Qed.

Lemma slice_negative (m : string) (n : Z) : n < 0 -> slice m 0 n = None.
Proof.
  intros H. unfold slice.
  replace (0 <=? n) with false by (symmetry; apply Z.leb_gt; lia).
  reflexivity.
Qed.

Lemma substring_split (m : string) (n : nat) :
  (n <= String.length m)%nat ->
  exists rest, m = String.substring 0 n m ++ rest
               /\ String.length (String.substring 0 n m) = n.
Proof.
  revert n. induction m as [|c m IH]; intros n H; simpl in H.
  - assert (n = O) by lia. subst. now exists "".
  - destruct n as [|n]; [now exists (String c m)|].
    destruct (IH n) as [rest [E L]]; [lia|].
    exists rest. simpl. split; [now rewrite <- E | now rewrite L].
Qed.

Lemma firstChars_split (m : string) (n : Z) :
  0 <= n <= len m ->
  exists rest, m = spec_firstChars n m ++ rest /\ len (spec_firstChars n m) = n.
Proof.
  intros H. unfold spec_firstChars, len in *.
  destruct (substring_split m (Z.to_nat n)) as [rest [E L]]; [lia|].
  exists rest. split; [exact E | rewrite L; lia].
Qed.

Lemma padded_starts (m : string) : exists r, spec_padded m = String " " r.
Proof.
  unfold spec_padded. destruct m as [|c m]; simpl; [now exists ""|].
  destruct (Ascii.eqb_spec c " ") as [->|N]; [now exists m|].
  now eexists.
Qed.

(** ** The monad *)

Lemma bind_returned {A B} (m : M A) (k : A -> M B) (st st' : World) (a : A) :
  m st = (Returned a, st') -> bind m k st = k a st'.
Proof. intros H. unfold bind. now rewrite H. Qed.

Lemma bind_panicked {A B} (m : M A) (k : A -> M B) (st st' : World) :
  m st = (Panicked, st') -> bind m k st = (Panicked, st').
Proof. intros H. unfold bind. now rewrite H. Qed.

Lemma at_index (m : string) (i : Z) (c : ascii) (st : World) :
  index m i = Some c -> at_ m i st = (Returned c, st).
Proof. intros H. unfold at_. now rewrite H. Qed.

Lemma sub_slice (m r : string) (lo hi : Z) (st : World) :
  slice m lo hi = Some r -> sub m lo hi st = (Returned r, st).
Proof. intros H. unfold sub. now rewrite H. Qed.

Lemma sub_panics (m : string) (lo hi : Z) (st : World) :
  slice m lo hi = None -> sub m lo hi st = (Panicked, st).
Proof. intros H. unfold sub. now rewrite H. Qed.

(** Runs the first statement of a [bind] with the given tactic. *)
Ltac step tac := erewrite bind_returned; [| solve [tac]].

(** ** [setMsg] *)

Lemma setMsg_empty (st : World) : setMsg "" st = (Returned tt, st).
Proof. reflexivity. Qed.

(** The first two statements of [setMsg] compute the stripped message. *)
Lemma stripped_cases (m m1 : string) :
  m <> "" -> spec_stripped m m1 ->
  exists p c, m = p ++ String c "" /\ m1 = if Ascii.eqb c LFc then p else m.
Proof.
  intros Hm [E | [E N]].
  - exists m1, LFc. split; [exact E|]. now rewrite Ascii.eqb_refl.
  - destruct (last_split m Hm) as [p [c Ep]]. exists p, c. split; [exact Ep|].
    destruct (Ascii.eqb_spec c LFc) as [->|_]; [|now symmetry].
    exfalso. exact (N p Ep).
Qed.

Lemma stripped_exists (m : string) :
  m <> "" -> exists m1, spec_stripped m m1.
Proof.
  intros Hm. destruct (last_split m Hm) as [p [c Ep]].
  destruct (Ascii.eqb_spec c LFc) as [->|N].
  - exists p. now left.
  - exists m. right. split; [reflexivity|].
    intros q Eq. apply N.
    assert (I : index m (len m - 1) = Some LFc) by (rewrite Eq; apply index_last).
    rewrite Ep, index_last in I. congruence.
Qed.

(** What [setMsg] does on a non-empty argument, case by case: it panics
    when nothing is left after the line terminator is stripped, and when the
    message is longer than a negative [maxMsgLen]; otherwise it returns,
    having stored the padded, truncated message and saved the previous
    one. *)
Lemma setMsg_cases (st : World) (m m1 : string) :
  m <> "" -> spec_stripped m m1 ->
  setMsg m st =
  if String.eqb m1 "" || (len m1 >? maxMsgLen (spinner st)) && (maxMsgLen (spinner st) <? 0)
  then (Panicked, st)
  else
    (Returned tt,
     mkWorld
       (set_msg
          (spec_padded
             (if len m1 >? maxMsgLen (spinner st)
              then spec_firstChars (maxMsgLen (spinner st)) m1 ++ "..."
              else m1))
          (spec_savePrevious (spinner st)))
       (sinks st) (tasks st) (suspended st)).
Proof.
  intros Hm Hs.
  unfold setMsg.
  destruct (String.eqb_spec m "") as [E|_]; [contradiction|].
  destruct (stripped_cases m m1 Hm Hs) as [p [c [Ep E1]]].
  step ltac:(apply at_index; rewrite Ep; apply index_last).
  assert (S1 : (if Ascii.eqb c LFc then sub m 0 (len m - 1) else ret m) st
               = (Returned m1, st)).
  { rewrite E1. destruct (Ascii.eqb c LFc); [|reflexivity].
    apply sub_slice. rewrite Ep. apply slice_init. }
  step ltac:(exact S1).
  step ltac:(reflexivity).
  set (mx := maxMsgLen (spinner st)) in *.
  rewrite Z.gtb_ltb.
  destruct (Z.ltb_spec mx (len m1)) as [L|L].
  - (* the message is longer than the threshold *)
    destruct (Z.ltb_spec mx 0) as [Neg|Pos].
    + rewrite orb_true_r.
      apply bind_panicked. apply bind_panicked. apply sub_panics.
      now apply slice_negative.
    + rewrite andb_false_r, orb_false_r.
      destruct (String.eqb_spec m1 "") as [E0|_].
      { subst m1. rewrite E0 in L. change (len "") with 0 in L. lia. }
      step ltac:(erewrite bind_returned;
                 [reflexivity | apply sub_slice, slice_firstChars; lia]).
      set (m2 := spec_firstChars mx m1 ++ "...").
      assert (N2 : exists c0 r, m2 = String c0 r).
      { subst m2. destruct (spec_firstChars mx m1); simpl; eauto. }
      destruct N2 as [c0 [r E2]].
      step ltac:(apply at_index; rewrite E2; apply index_head).
      step ltac:(reflexivity).
      replace (if negb (Ascii.eqb c0 " ") then " " ++ m2 else m2)
        with (spec_padded m2)
        by (unfold spec_padded; rewrite E2; simpl; now destruct (Ascii.eqb c0 " ")).
      unfold spec_savePrevious.
      destruct (msg (spinner st)) as [|a old] eqn:Eo; [reflexivity|].
      change (negb (String.eqb (String a old) "")) with true. cbv iota.
      step ltac:(erewrite bind_returned; [reflexivity | apply sub_slice, slice_tail]).
      reflexivity.
  - (* no truncation *)
    rewrite andb_false_l, orb_false_r.
    step ltac:(reflexivity).
    destruct (String.eqb_spec m1 "") as [E0|N0].
    + apply bind_panicked. rewrite E0. unfold at_. now rewrite index_empty.
    + destruct m1 as [|c0 r] eqn:E2; [contradiction|]. rewrite <- E2 in *.
      step ltac:(apply at_index; rewrite E2; apply index_head).
      step ltac:(reflexivity).
      replace (if negb (Ascii.eqb c0 " ") then " " ++ m1 else m1)
        with (spec_padded m1)
        by (unfold spec_padded; rewrite E2; simpl; now destruct (Ascii.eqb c0 " ")).
      unfold spec_savePrevious.
      destruct (msg (spinner st)) as [|a old] eqn:Eo; [reflexivity|].
      change (negb (String.eqb (String a old) "")) with true. cbv iota.
      step ltac:(erewrite bind_returned; [reflexivity | apply sub_slice, slice_tail]).
      reflexivity.
Qed.

(** C3, as the code has it.  Let [m1] be a message with its trailing line
    terminator stripped, not empty.  When [m1] is longer than a non-negative
    [maxMsgLen], [setMsg] returns and stores the first [maxMsgLen] characters
    of [m1] followed by ["..."]; when its length is exactly [maxMsgLen] it
    stores [m1] itself.  In both cases what is stored has gone through the
    leading-space padding. *)
Theorem C3_setMsg_truncates_then_pads (st : World) (m m1 : string) :
  spec_stripped m m1 -> m1 <> "" ->
  (0 <= maxMsgLen (spinner st) -> len m1 > maxMsgLen (spinner st) ->
   exists st' pre rest,
     setMsg m st = (Returned tt, st') /\
     m1 = pre ++ rest /\ len pre = maxMsgLen (spinner st) /\
     msg (spinner st') = spec_padded (pre ++ "...")) /\
  (len m1 = maxMsgLen (spinner st) ->
   exists st',
     setMsg m st = (Returned tt, st') /\
     msg (spinner st') = spec_padded m1).
Proof.
  intros Hs H1.
  assert (Hm : m <> "").
  { destruct Hs as [E | [E _]]; subst m; [|exact H1].
    destruct m1; [contradiction | discriminate]. }
  pose proof (setMsg_cases st m m1 Hm Hs) as C.
  destruct (String.eqb_spec m1 "") as [E|_]; [contradiction|].
  cbn [orb] in C. split.
  - intros Pos Long.
    replace (maxMsgLen (spinner st) <? 0) with false in C
      by (symmetry; apply Z.ltb_ge; lia).
    rewrite andb_false_r in C.
    replace (len m1 >? maxMsgLen (spinner st)) with true in C
      by (symmetry; apply Z.gtb_lt; lia).
    destruct (firstChars_split m1 (maxMsgLen (spinner st))) as [rest [E L]];
      [lia|].
    eexists. exists (spec_firstChars (maxMsgLen (spinner st)) m1), rest.
    split; [exact C|]. repeat split; assumption.
  - intros Eq.
    replace (len m1 >? maxMsgLen (spinner st)) with false in C
      by (symmetry; rewrite Z.gtb_ltb; apply Z.ltb_ge; lia).
    cbn [andb] in C. eexists. split; [exact C | reflexivity].
Qed.

(** ** Relations kept by every statement *)

Section Preserves.
Variable R : World -> World -> Prop.
Hypothesis R_refl : forall st, R st st.
Hypothesis R_trans : forall a b c, R a b -> R b c -> R a c.

Lemma preserves_ret {A} (a : A) : preserves R (ret a).
Proof. intros st. apply R_refl. Qed.

Lemma preserves_panic {A} : preserves R (@panic A).
Proof. intros st. apply R_refl. Qed.

Lemma preserves_block {A} : preserves R (@block A).
Proof. intros st. apply R_refl. Qed.

Lemma preserves_field {A} (f : Spinner -> A) : preserves R (field f).
Proof. intros st. apply R_refl. Qed.

Lemma preserves_at (m : string) (i : Z) : preserves R (at_ m i).
Proof. intros st. unfold at_. destruct (index m i); apply R_refl. Qed.

Lemma preserves_sub (m : string) (lo hi : Z) : preserves R (sub m lo hi).
Proof. intros st. unfold sub. destruct (slice m lo hi); apply R_refl. Qed.

Lemma preserves_bind {A B} (m : M A) (k : A -> M B) :
  preserves R m -> (forall a, preserves R (k a)) -> preserves R (bind m k).
Proof.
  intros Hm Hk st. unfold bind. specialize (Hm st).
  destruct (m st) as [[a| |] st']; simpl in *; try exact Hm.
  apply R_trans with st'; [exact Hm | apply Hk].
Qed.

Lemma preserves_forRange {A} (l : list A) (body : A -> M unit) :
  (forall x, preserves R (body x)) -> preserves R (forRange l body).
Proof.
  intros Hb. induction l as [|x l IH]; simpl.
  - apply preserves_ret.
  - apply preserves_bind; [apply Hb | intros _; exact IH].
Qed.

Lemma preserves_deferUnlock {A} (body : M A) :
  preserves R body -> preserves R Unlock -> preserves R (deferUnlock body).
Proof.
  intros Hb Hu st. unfold deferUnlock. specialize (Hb st).
  destruct (body st) as [[a| |] st']; cbn [snd] in *; try exact Hb;
    (apply R_trans with st'; [exact Hb | apply Hu]).
Qed.

End Preserves.

(** Applies the structural rules; what is left are the assignments and the
    writes, which depend on the relation.  Expects [R_refl] and [R_trans]
    among the hypotheses. *)
Ltac preserves_structure :=
  repeat first
    [ apply preserves_ret; assumption
    | apply preserves_panic; assumption
    | apply preserves_block; assumption
    | apply preserves_field; assumption
    | apply preserves_at; assumption
    | apply preserves_sub; assumption
    | apply preserves_bind; [assumption | | intros ?]
    | apply preserves_forRange; [assumption | assumption | intros ?]
    | apply preserves_deferUnlock; [assumption | | ]
    | match goal with
      | |- preserves _ (if ?b then _ else _) => destruct b
      | |- preserves _ (match ?x with Some _ => _ | None => _ end) => destruct x
      end ].

(** ** [setMsg] touches the message and the pending debug messages only *)

Lemma sameButMsg_refl (st : World) : sameButMsg st st.
Proof. unfold sameButMsg. repeat split. Qed.

Lemma sameButMsg_trans (a b c : World) :
  sameButMsg a b -> sameButMsg b c -> sameButMsg a c.
Proof.
  unfold sameButMsg. intros H1 H2.
  repeat match goal with H : _ /\ _ |- _ => destruct H end.
  repeat split; congruence.
Qed.

Lemma setMsg_sameButMsg (m : string) : preserves sameButMsg (setMsg m).
Proof.
  pose proof sameButMsg_refl as R_refl. pose proof sameButMsg_trans as R_trans.
  unfold setMsg. preserves_structure;
    intros st; unfold sameButMsg; cbn; repeat split.
Qed.

(** ** The message on display is empty or starts with a space *)

Lemma msgStep_refl (st : World) : msgStep st st.
Proof. now left. Qed.

Lemma msgStep_trans (a b c : World) : msgStep a b -> msgStep b c -> msgStep a c.
Proof.
  unfold msgStep. intros [E1|S1] [E2|S2].
  - left. congruence.
  - now right.
  - right. now rewrite E2.
  - now right.
Qed.

Lemma setMsg_msgStep (m : string) : preserves msgStep (setMsg m).
Proof.
  intros st. destruct (String.eqb_spec m "") as [->|N]; [now left|].
  destruct (stripped_exists m N) as [m1 Hs].
  rewrite (setMsg_cases st m m1 N Hs).
  destruct (_ || _); [now left|].
  right. cbn. apply padded_starts.
Qed.

Lemma Lock_msgStep : preserves msgStep Lock.
Proof. intros st. unfold Lock. destruct (mu (spinner st)); now left. Qed.

Create HintDb msg_step.
#[local] Hint Resolve setMsg_msgStep Lock_msgStep : msg_step.

Ltac msg_structure :=
  pose proof msgStep_refl as R_refl; pose proof msgStep_trans as R_trans;
  preserves_structure;
  try solve [auto with msg_step];
  try (intros st; left; reflexivity).

Section MsgInvariant.
Context {ext : Externals}.

Lemma erase_msgStep : preserves msgStep erase.
Proof. unfold erase. msg_structure. Qed.
#[local] Hint Resolve erase_msgStep : msg_step.

Lemma stopTail_msgStep : preserves msgStep stopTail.
Proof. unfold stopTail. msg_structure. Qed.
#[local] Hint Resolve stopTail_msgStep : msg_step.

Lemma Stop_msgStep : preserves msgStep Stop.
Proof. unfold Stop, send. msg_structure. Qed.

Lemma Start_msgStep : preserves msgStep Start.
Proof. unfold Start, go_run. msg_structure. Qed.

Lemma IncWithMessage_msgStep (m : string) : preserves msgStep (IncWithMessage m).
Proof. unfold IncWithMessage. msg_structure. Qed.

Lemma Debugf_msgStep (f : string) : preserves msgStep (Debugf f).
Proof. unfold Debugf. msg_structure. Qed.

Lemma frame_msgStep (i : nat) : preserves msgStep (frame i).
Proof. unfold frame. msg_structure. Qed.
#[local] Hint Resolve frame_msgStep : msg_step.

Lemma taskStep_msgStep (j : nat) : preserves msgStep (taskStep j).
Proof.
  intros st. unfold taskStep.
  set (ts := tasks st).
  destruct (nth_error ts j) as [[i|i]|]; [| |now left].
  - destruct (0 <? stopChan (spinner st))%nat.
    + set (sus := suspended st). clearbody ts sus. revert st.
      refine (_ : preserves msgStep _).
      unfold setTasks. msg_structure.
    + now left.
  - clearbody ts. revert st.
    refine (_ : preserves msgStep _).
    unfold setTasks. msg_structure.
Qed.

Lemma act_msgStep (a : Action) : preserves msgStep (act a).
Proof.
  destruct a as [c|j]; [|apply taskStep_msgStep].
  destruct c; cbn [act call].
  - apply Start_msgStep.
  - apply Stop_msgStep.
  - apply IncWithMessage_msgStep.
  - apply IncWithMessage_msgStep.
  - apply IncWithMessage_msgStep.
  - apply Debugf_msgStep.
Qed.

Lemma execAll_msg (acts : list Action) (st : World) :
  spec_emptyOrSpace (msg (spinner st)) = true ->
  spec_emptyOrSpace (msg (spinner (execAll acts st))) = true.
Proof.
  revert st. induction acts as [|a acts IH]; intros st H; [exact H|].
  apply IH. destruct (act_msgStep a st) as [E|[r E]]; unfold exec.
  - now rewrite E.
  - now rewrite E.
Qed.

Lemma New_msg (opts : list Option) : msg (New opts) = "".
Proof.
  unfold New.
  assert (G : forall sp, msg sp = "" -> msg (fold_left applyOption opts sp) = "").
  { induction opts as [|o opts IH]; intros sp H; [exact H|].
    apply IH. now destruct o. }
  now apply G.
Qed.

(** C4, as the code has it.  After any sequence of calls and goroutine
    steps on a freshly constructed spinner the message on display is empty
    or starts with a space.  [setMsg] puts exactly one space before a
    (stripped, truncated) message that does not start with a space, and what
    it stores then has exactly one leading space; it stores a message that
    starts with a space as it is, with all the spaces it came with. *)
Theorem C4_msg_is_empty_or_starts_with_a_space
    (opts : list Option) (sk : Writer -> string) (acts : list Action)
    (st : World) (m m1 : string) :
  spec_emptyOrSpace (msg (spinner (execAll acts (boot opts sk)))) = true /\
  (spec_stripped m m1 -> m1 <> "" ->
   (len m1 > maxMsgLen (spinner st) -> 0 <= maxMsgLen (spinner st)) ->
   exists st',
     setMsg m st = (Returned tt, st') /\
     (spec_startsWithSpace (spec_truncated (maxMsgLen (spinner st)) m1) = false ->
      msg (spinner st') = String " " (spec_truncated (maxMsgLen (spinner st)) m1)
      /\ spec_oneLeadingSpace (msg (spinner st')) = true) /\
     (spec_startsWithSpace (spec_truncated (maxMsgLen (spinner st)) m1) = true ->
      msg (spinner st') = spec_truncated (maxMsgLen (spinner st)) m1)).
Proof.
  split.
  - apply execAll_msg. cbn. now rewrite New_msg.
  - intros Hs H1 Hmx.
    assert (Hm : m <> "").
    { destruct Hs as [E | [E _]]; subst m; [|exact H1].
      destruct m1; [contradiction | discriminate]. }
    pose proof (setMsg_cases st m m1 Hm Hs) as C.
    destruct (String.eqb_spec m1 "") as [E|_]; [contradiction|].
    cbn [orb] in C.
    assert (F : (len m1 >? maxMsgLen (spinner st)) && (maxMsgLen (spinner st) <? 0)
                = false).
    { rewrite Z.gtb_ltb.
      destruct (Z.ltb_spec (maxMsgLen (spinner st)) (len m1)) as [L|L];
        [|reflexivity].
      apply Z.ltb_ge. apply Hmx. lia. }
    rewrite F in C. eexists. split; [exact C|].
    cbn [spinner msg set_msg]. fold (spec_truncated (maxMsgLen (spinner st)) m1).
    unfold spec_padded. split; intros S; rewrite S.
    + split; [reflexivity|]. cbn. now rewrite S.
    + reflexivity.
Qed.

End MsgInvariant.

Lemma C4_witness :
  spec_emptyOrSpace
    (msg (spinner (execAll (ext := linux)
                     [Fg CStart; Fg (CIncWithMessage "loading"); Bg 0; Bg 0;
                      Fg CStop]
                     (boot [WithStartMessage " ready"] (fun _ => ""))))) = true /\
  exists st',
    setMsg ("hello" ++ LF) (boot [] (fun _ => "")) = (Returned tt, st') /\
    msg (spinner st') = " hello".
Proof.
  destruct (C4_msg_is_empty_or_starts_with_a_space (ext := linux)
              [WithStartMessage " ready"] (fun _ => "")
              [Fg CStart; Fg (CIncWithMessage "loading"); Bg 0; Bg 0; Fg CStop]
              (boot [] (fun _ => "")) ("hello" ++ LF) "hello") as [A B].
  split; [exact A|].
  destruct B as [st' [E [P _]]].
  - now left.
  - discriminate.
  - cbn. lia.
  - exists st'. split; [exact E|]. now apply P.
Defined.

(** C4 read to the letter fails: a message that comes with two leading
    spaces is displayed with both. *)
Lemma C4_counterexample :
  msg (spinner (exec (ext := linux) (boot [] (fun _ => ""))
                  (Fg (CIncWithMessage "  x")))) = "  x" /\
  spec_oneLeadingSpace
    (msg (spinner (exec (ext := linux) (boot [] (fun _ => ""))
                     (Fg (CIncWithMessage "  x"))))) = false.
Proof. split; reflexivity. Qed.

Lemma C3_witness :
  (exists st' pre rest,
     setMsg "abcdef" (boot [WithMaxMessageLength 3] (fun _ => ""))
     = (Returned tt, st') /\
     "abcdef" = pre ++ rest /\ len pre = 3 /\
     msg (spinner st') = spec_padded (pre ++ "...")) /\
  (exists st',
     setMsg ("abc" ++ LF) (boot [WithMaxMessageLength 3] (fun _ => ""))
     = (Returned tt, st') /\
     msg (spinner st') = " abc").
Proof.
  split.
  - destruct (C3_setMsg_truncates_then_pads
                (boot [WithMaxMessageLength 3] (fun _ => "")) "abcdef" "abcdef")
      as [A _].
    + right. split; [reflexivity|]. intros p E.
      assert (I : index "abcdef" (len "abcdef" - 1) = Some LFc)
        by (rewrite E; apply index_last).
      discriminate I.
    + discriminate.
    + apply A; cbn; lia.
  - destruct (C3_setMsg_truncates_then_pads
                (boot [WithMaxMessageLength 3] (fun _ => "")) ("abc" ++ LF) "abc")
      as [_ B].
    + now left.
    + discriminate.
    + apply B. reflexivity.
Defined.

(** C3 read to the letter fails twice: what is stored for a message without
    a leading space is the truncated message behind a space, and under a
    negative [maxMsgLen] nothing is stored, [setMsg] panics. *)
Lemma C3_counterexample :
  (setMsg "abcdef" (boot [WithMaxMessageLength 3] (fun _ => ""))
   = (Returned tt,
      mkWorld (set_msg " abc..." (New [WithMaxMessageLength 3]))
              (fun _ => "") [] false)
   /\ String.eqb " abc..." "abc..." = false) /\
  setMsg "abc" (boot [WithMaxMessageLength (-1)] (fun _ => ""))
  = (Panicked, boot [WithMaxMessageLength (-1)] (fun _ => "")).
Proof. repeat split; reflexivity. Qed.

(** ** Lone line terminator *)

Lemma setMsg_lone_newline_panics (st : World) :
  0 <= maxMsgLen (spinner st) -> setMsg LF st = (Panicked, st).
Proof.
  intros H.
  rewrite (setMsg_cases st LF ""); [reflexivity | discriminate | now left].
Qed.

Lemma setMsg_negative_maxMsgLen_panics (st : World) (m : string) :
  m <> "" -> maxMsgLen (spinner st) < 0 -> setMsg m st = (Panicked, st).
Proof.
  intros Hm H. destruct (stripped_exists m Hm) as [m1 Hs].
  rewrite (setMsg_cases st m m1 Hm Hs).
  replace (len m1 >? maxMsgLen (spinner st)) with true
    by (symmetry; apply Z.gtb_lt; pose proof (len_nonneg m1); lia).
  replace (maxMsgLen (spinner st) <? 0) with true by (symmetry; now apply Z.ltb_lt).
  now rewrite orb_true_r.
Qed.

(** C2, at inputs where the code departs from it.  On a spinner made by
    [New()], [IncWithMessage("\n")] panics: [setMsg] strips the line
    terminator and then reads [m[0]] of the empty string.  The count has
    been incremented by then.  [Start] panics in the same way when the start
    message is ["\n"]; it leaves the spinner marked active, starts no
    goroutine, and leaves the mutex locked, since [Start] does not defer its
    [Unlock]. *)
Theorem C2_lone_line_terminator_panics {ext : Externals} (sk : Writer -> string) :
  call (CIncWithMessage LF) (boot [] sk)
  = (Panicked, mkWorld (set_completed 1 (New [])) sk [] false) /\
  call CStart (boot [WithStartMessage LF] sk)
  = (Panicked,
     mkWorld (set_mu true (set_active true (New [WithStartMessage LF])))
             sk [] false).
Proof. split; reflexivity. Qed.

(** ** The mutex *)

Lemma Lock_free (st : World) :
  mu (spinner st) = false ->
  Lock st
  = (Returned tt,
     mkWorld (set_mu true (spinner st)) (sinks st) (tasks st) (suspended st)).
Proof. intros H. unfold Lock. now rewrite H. Qed.

Lemma Lock_locked (st : World) :
  mu (spinner st) = true -> Lock st = (Blocked, st).
Proof. intros H. unfold Lock. now rewrite H. Qed.

Lemma Unlock_after_Lock (st : World) :
  mu (spinner st) = false ->
  snd (Unlock (mkWorld (set_mu true (spinner st)) (sinks st) (tasks st)
                       (suspended st))) = st.
Proof.
  intros H. destruct st as [sp sk ts su]. destruct sp. cbn in *. now subst.
Qed.

Lemma deferUnlock_returned {A} (body : M A) (st st' : World) (a : A) :
  body st = (Returned a, st') ->
  deferUnlock body st = (Returned a, snd (Unlock st')).
Proof. intros H. unfold deferUnlock. now rewrite H. Qed.

Lemma deferUnlock_panicked {A} (body : M A) (st st' : World) :
  body st = (Panicked, st') ->
  deferUnlock body st = (Panicked, snd (Unlock st')).
Proof. intros H. unfold deferUnlock. now rewrite H. Qed.

Lemma setMsg_not_blocked (m : string) (st : World) :
  fst (setMsg m st) <> Blocked.
Proof.
  destruct (String.eqb_spec m "") as [->|N]; [discriminate|].
  destruct (stripped_exists m N) as [m1 Hs].
  rewrite (setMsg_cases st m m1 N Hs).
  destruct (_ || _); discriminate.
Qed.

(** Where the calls that count do return: [Inc()] always, and
    [IncWithMessage(m)] when something is left of [m] after the line
    terminator is stripped and [maxMsgLen] is not negative. *)
Lemma Inc_returns (st : World) :
  mu (spinner st) = false -> fst (Inc st) = Returned tt.
Proof.
  intros Hm. unfold Inc, IncWithMessage.
  step ltac:(apply Lock_free; exact Hm).
  unfold deferUnlock.
  erewrite bind_returned by reflexivity.
  erewrite bind_returned by reflexivity.
  destruct (_ >=? _); reflexivity.
Qed.

Lemma IncWithMessage_returns (st : World) (m m1 : string) :
  mu (spinner st) = false ->
  spec_stripped m m1 -> m1 <> "" -> 0 <= maxMsgLen (spinner st) ->
  fst (IncWithMessage m st) = Returned tt.
Proof.
  intros Hm Hs H1 Hmax.
  assert (Hne : m <> "").
  { destruct Hs as [E | [E _]]; subst m; [|exact H1].
    destruct m1; [contradiction | discriminate]. }
  unfold IncWithMessage.
  step ltac:(apply Lock_free; exact Hm).
  unfold deferUnlock.
  erewrite bind_returned by reflexivity.
  erewrite bind_returned by reflexivity.
  destruct (_ >=? _); [reflexivity|].
  erewrite bind_returned by reflexivity.
  rewrite (setMsg_cases _ m m1 Hne Hs).
  destruct (String.eqb_spec m1 "") as [E|_]; [contradiction|].
  cbn [orb spinner set_completed set_mu maxMsgLen].
  replace (maxMsgLen (spinner st) <? 0) with false
    by (symmetry; apply Z.ltb_ge; lia).
  rewrite andb_false_r. reflexivity.
Qed.

(** ** Misuse *)

Section Misuse.
Context {ext : Externals}.

Lemma Stop_inactive (st : World) :
  mu (spinner st) = false -> active (spinner st) = false ->
  Stop st = (Returned tt, st).
Proof.
  intros Hm H. unfold Stop.
  step ltac:(apply Lock_free; exact Hm).
  erewrite deferUnlock_returned.
  - now rewrite Unlock_after_Lock.
  - step ltac:(reflexivity). cbn [spinner active set_mu]. now rewrite H.
Qed.

Lemma Start_active (st : World) :
  mu (spinner st) = false -> active (spinner st) = true ->
  Start st = (Returned tt, st).
Proof.
  intros Hm H. unfold Start.
  step ltac:(apply Lock_free; exact Hm).
  step ltac:(reflexivity). cbn [spinner active set_mu]. rewrite H.
  pose proof (Unlock_after_Lock st Hm) as U.
  unfold Unlock in *. cbn [snd] in U. now rewrite U.
Qed.

Lemma IncWithMessage_complete (st : World) (m : string) :
  mu (spinner st) = false ->
  count (spinner st) <= completed (spinner st) ->
  IncWithMessage m st = (Returned tt, st).
Proof.
  intros Hm H. unfold IncWithMessage.
  step ltac:(apply Lock_free; exact Hm).
  erewrite deferUnlock_returned.
  - now rewrite Unlock_after_Lock.
  - step ltac:(reflexivity). step ltac:(reflexivity).
    cbn [spinner completed count set_mu].
    replace (completed (spinner st) >=? count (spinner st)) with true
      by (symmetry; rewrite Z.geb_leb; now apply Z.leb_le).
    reflexivity.
Qed.

(** C5.  When the mutex is free: [Start()] on an active spinner, [Stop()]
    on an inactive one, and [Inc()] or [IncWithMessage(m)] once [completed]
    has reached [count], each return and leave the world as it was: every
    field of the spinner, every sink, the goroutines.  Any number of
    [Stop()] calls on an inactive spinner leaves the world as it was. *)
Theorem C5_misuse_is_a_silent_noop (st : World) (m : string) (k : nat) :
  mu (spinner st) = false ->
  (active (spinner st) = true -> act (Fg CStart) st = (Returned tt, st)) /\
  (active (spinner st) = false ->
   act (Fg CStop) st = (Returned tt, st) /\
   execAll (repeat (Fg CStop) k) st = st) /\
  (count (spinner st) <= completed (spinner st) ->
   act (Fg CInc) st = (Returned tt, st) /\
   act (Fg (CIncWithMessage m)) st = (Returned tt, st)).
Proof.
  intros Hm. cbn [act call].
  repeat split.
  - now apply Start_active.
  - now apply Stop_inactive.
  - induction k as [|k IH]; [reflexivity|].
    cbn [repeat execAll fold_left]. unfold exec at 2. cbn [act call].
    rewrite Stop_inactive by assumption. exact IH.
  - now apply IncWithMessage_complete.
  - now apply IncWithMessage_complete.
Qed.

End Misuse.

Lemma C5_witness :
  (act (ext := linux) (Fg CStart)
     (exec (ext := linux) (boot [WithCount 0] (fun _ => "")) (Fg CStart))
   = (Returned tt,
      exec (ext := linux) (boot [WithCount 0] (fun _ => "")) (Fg CStart))) /\
  (act (ext := linux) (Fg CStop) (boot [] (fun _ => ""))
   = (Returned tt, boot [] (fun _ => "")) /\
   execAll (ext := linux) (repeat (Fg CStop) 3) (boot [] (fun _ => ""))
   = boot [] (fun _ => "")) /\
  (act (ext := linux) (Fg CInc) (boot [WithCount 0] (fun _ => ""))
   = (Returned tt, boot [WithCount 0] (fun _ => "")) /\
   act (ext := linux) (Fg (CIncWithMessage "late")) (boot [WithCount 0] (fun _ => ""))
   = (Returned tt, boot [WithCount 0] (fun _ => ""))).
Proof.
  split; [|split].
  - apply (C5_misuse_is_a_silent_noop (ext := linux)
             (exec (ext := linux) (boot [WithCount 0] (fun _ => "")) (Fg CStart))
             "" 0); reflexivity.
  - apply (C5_misuse_is_a_silent_noop (ext := linux)
             (boot [] (fun _ => "")) "" 3); reflexivity.
  - apply (C5_misuse_is_a_silent_noop (ext := linux)
             (boot [WithCount 0] (fun _ => "")) "late" 0);
      [reflexivity | cbn; lia].
Defined.

(** ** Counting *)

Lemma wrap_id (z : Z) : is_int z -> wrap z = z.
Proof.
  unfold is_int, MinInt, MaxInt, wrap. intros H.
  rewrite Z.mod_small; lia.
Qed.

Lemma IncWithMessage_counts (st : World) (m : string) :
  mu (spinner st) = false ->
  0 <= completed (spinner st) <= count (spinner st) ->
  count (spinner st) <= MaxInt ->
  completed (spinner (snd (IncWithMessage m st)))
  = Z.min (completed (spinner st) + 1) (count (spinner st))
  /\ count (spinner (snd (IncWithMessage m st))) = count (spinner st)
  /\ mu (spinner (snd (IncWithMessage m st))) = false.
Proof.
  intros Hmu H1 H2.
  destruct (Z.leb_spec (count (spinner st)) (completed (spinner st))) as [L|L].
  - rewrite IncWithMessage_complete by assumption. cbn. repeat split; [lia | assumption].
  - unfold IncWithMessage.
    step ltac:(apply Lock_free; exact Hmu).
    unfold deferUnlock.
    erewrite bind_returned by reflexivity.
    erewrite bind_returned by reflexivity.
    cbn [spinner completed count set_mu].
    replace (completed (spinner st) >=? count (spinner st)) with false
      by (symmetry; rewrite Z.geb_leb; apply Z.leb_gt; lia).
    erewrite bind_returned by reflexivity.
    match goal with |- context [setMsg m ?s1] =>
      pose proof (setMsg_not_blocked m s1) as NB;
      destruct (setMsg_sameButMsg m s1)
        as (_ & _ & _ & _ & _ & _ & _ & _ & _ & _ & _ & _ & Ec & Ed & _);
      destruct (setMsg m s1) as [[[]| |] s2]
    end; cbn [fst snd] in *; try contradiction;
      cbn; rewrite Ec, Ed; cbn;
      rewrite wrap_id by (unfold is_int, MinInt, MaxInt in *; lia);
      repeat split; lia.
Qed.

Section Counting.
Context {ext : Externals}.

Lemma exec_isInc (st : World) (c : Call) :
  isInc c = true ->
  exists m, exec st (Fg c) = snd (IncWithMessage m st).
Proof.
  intros Hc. unfold exec. cbn [act].
  destruct c; try discriminate; cbn [call].
  - now exists "".
  - now exists m.
  - now exists formatted.
Qed.

Lemma execAll_counts (calls : list Call) (st : World) :
  mu (spinner st) = false ->
  0 <= completed (spinner st) <= count (spinner st) ->
  count (spinner st) <= MaxInt ->
  forallb isInc calls = true ->
  completed (spinner (execAll (map Fg calls) st))
  = Z.min (completed (spinner st) + Z.of_nat (List.length calls))
          (count (spinner st)).
Proof.
  revert st. induction calls as [|c calls IH]; intros st Hs H1 H2 Hc.
  - cbn. lia.
  - cbn [forallb] in Hc. apply andb_true_iff in Hc. destruct Hc as [Hc Hrest].
    cbn [map execAll fold_left].
    destruct (exec_isInc st c Hc) as [m E].
    destruct (IncWithMessage_counts st m Hs H1 H2) as (A & B & C).
    rewrite <- E in A, B, C.
    change (fold_left exec (map Fg calls) (exec st (Fg c)))
      with (execAll (map Fg calls) (exec st (Fg c))).
    rewrite IH; [| assumption | lia | lia | assumption].
    rewrite A, B. cbn [List.length]. lia.
Qed.

(** C1.  On a spinner with a total count [n >= 0] whose [completed] is [0],
    after [k] calls, each of them [Inc()], [IncWithMessage(m)] or
    [IncWithMessagef], [completed] is [min(k, n)].  Hence [n] calls give [n],
    further calls change nothing, and [completed] never goes down and never
    exceeds [count].  A call counts whether [setMsg] returns or panics. *)
Theorem C1_completed_is_min_of_calls_and_count
    (st : World) (calls more : list Call) :
  mu (spinner st) = false ->
  completed (spinner st) = 0 ->
  0 <= count (spinner st) <= MaxInt ->
  forallb isInc calls = true ->
  forallb isInc more = true ->
  completed (spinner (execAll (map Fg calls) st))
  = Z.min (Z.of_nat (List.length calls)) (count (spinner st))
  /\ (Z.of_nat (List.length calls) = count (spinner st) ->
      completed (spinner (execAll (map Fg calls) st)) = count (spinner st)
      /\ completed (spinner (execAll (map Fg (calls ++ more)) st))
         = count (spinner st))
  /\ completed (spinner (execAll (map Fg calls) st))
     <= completed (spinner (execAll (map Fg (calls ++ more)) st))
     <= count (spinner st).
Proof.
  intros Hs H0 Hn Hc Hm.
  assert (A : completed (spinner (execAll (map Fg calls) st))
              = Z.min (Z.of_nat (List.length calls)) (count (spinner st))).
  { rewrite execAll_counts by (assumption || lia). rewrite H0. reflexivity. }
  assert (B : completed (spinner (execAll (map Fg (calls ++ more)) st))
              = Z.min (Z.of_nat (List.length (calls ++ more))) (count (spinner st))).
  { rewrite execAll_counts; [rewrite H0; reflexivity | assumption | lia | lia |].
    rewrite forallb_app, Hc, Hm. reflexivity. }
  rewrite length_app in B.
  split; [exact A|]. split.
  - intros E. rewrite A, B. lia.
  - rewrite A, B. lia.
Qed.

End Counting.

Lemma C1_witness :
  completed (spinner (execAll (ext := linux)
     (map Fg [CInc; CIncWithMessage "two"; CInc])
     (boot [WithCount 3] (fun _ => ""))))
  = Z.min 3 3
  /\ completed (spinner (execAll (ext := linux)
       (map Fg ([CInc; CIncWithMessage "two"; CInc] ++ [CInc; CIncWithMessage LF]))
       (boot [WithCount 3] (fun _ => "")))) = 3.
Proof.
  destruct (C1_completed_is_min_of_calls_and_count (ext := linux)
              (boot [WithCount 3] (fun _ => ""))
              [CInc; CIncWithMessage "two"; CInc] [CInc; CIncWithMessage LF])
    as (A & B & _); try reflexivity.
  - cbn. unfold MaxInt. lia.
  - split; [exact A|]. now apply B.
Defined.

(** ** The debug sink *)

Lemma sapp_assoc (a b c : string) : (a ++ b) ++ c = a ++ b ++ c.
Proof. induction a as [|x a IH]; simpl; [reflexivity | now rewrite IH]. Qed.

Lemma sapp_nil_r (a : string) : a ++ "" = a.
Proof. induction a as [|x a IH]; simpl; [reflexivity | now rewrite IH]. Qed.

Lemma spec_lines_app (l : list string) (m : string) :
  spec_lines (l ++ [m]) = spec_lines l ++ m ++ LF.
Proof.
  induction l as [|x l IH]; simpl.
  - reflexivity.
  - rewrite IH. now rewrite !sapp_assoc.
Qed.

Lemma writeTo_other (wr k : Writer) (x : string) (sk : Writer -> string) :
  wr <> k -> writeTo wr x sk k = sk k.
Proof.
  intros H. unfold writeTo.
  destruct (Nat.eqb_spec k wr) as [E|_]; [congruence | reflexivity].
Qed.

Lemma writeTo_same (wr : Writer) (x : string) (sk : Writer -> string) :
  writeTo wr x sk wr = sk wr ++ x.
Proof. unfold writeTo. now rewrite Nat.eqb_refl. Qed.

Lemma forRange_Fprintln (l : list string) (d : Writer) (st : World) :
  exists sk',
    forRange l (fun m => Fprintln d m) st
    = (Returned tt, mkWorld (spinner st) sk' (tasks st) (suspended st))
    /\ sk' d = sinks st d ++ spec_lines l
    /\ forall k, d <> k -> sk' k = sinks st k.
Proof.
  revert st. induction l as [|m l IH]; intros st.
  - exists (sinks st). destruct st. cbn. rewrite sapp_nil_r. repeat split.
  - cbn [forRange].
    destruct (IH (snd (Fprintln d m st))) as [sk' [E [A B]]].
    exists sk'. split; [|split].
    + erewrite bind_returned; [|reflexivity]. exact E.
    + rewrite A. cbn. rewrite writeTo_same. now rewrite !sapp_assoc.
    + intros k Hk. rewrite B by assumption. cbn. now apply writeTo_other.
Qed.

Lemma bind_assoc {A B C} (m : M A) (k : A -> M B) (h : B -> M C) (st : World) :
  bind (bind m k) h st = bind m (fun a => bind (k a) h) st.
Proof. unfold bind. destruct (m st) as [[a| |] st']; reflexivity. Qed.

Section DebugSink.
Context {ext : Externals}.

Lemma erase_run (d : Writer) (st : World) :
  debugw (spinner st) = Some d -> w (spinner st) <> d ->
  exists sk',
    erase st
    = (Returned tt,
       mkWorld (set_lastOutput "" (set_debugMsgs [] (spinner st))) sk'
               (tasks st) (suspended st))
    /\ sk' d = sinks st d ++ spec_lines (debugMsgs (spinner st)).
Proof.
  intros Hd Hw. unfold erase.
  step ltac:(reflexivity). step ltac:(reflexivity).
  set (n := RuneCountInString (lastOutput (spinner st))).
  destruct (String.eqb GOOS "windows").
  - step ltac:(reflexivity). step ltac:(reflexivity).
    cbn [spinner]. rewrite Hd.
    rewrite bind_assoc. step ltac:(reflexivity). rewrite bind_assoc.
    match goal with |- context [bind (forRange ?l _) _ ?s] =>
      destruct (forRange_Fprintln l d s) as [sk' [E [A B]]] end.
    exists sk'. split.
    + step ltac:(exact E). reflexivity.
    + rewrite A. cbn. now rewrite writeTo_other.
  - step ltac:(reflexivity). step ltac:(reflexivity).
    cbn [spinner]. rewrite Hd.
    rewrite bind_assoc. step ltac:(reflexivity). rewrite bind_assoc.
    match goal with |- context [bind (forRange ?l _) _ ?s] =>
      destruct (forRange_Fprintln l d s) as [sk' [E [A B]]] end.
    exists sk'. split.
    + step ltac:(exact E). reflexivity.
    + rewrite A. cbn. now rewrite !writeTo_other.
Qed.


Lemma frame_active (d : Writer) (i : nat) (st : World) :
  debugw (spinner st) = Some d -> w (spinner st) <> d ->
  mu (spinner st) = false -> active (spinner st) = true ->
  exists sk' line,
    frame i st
    = (Returned true,
       mkWorld (set_lastOutput line (set_debugMsgs [] (spinner st))) sk'
               (tasks st) (suspended st))
    /\ sk' d = sinks st d ++ spec_lines (debugMsgs (spinner st)).
Proof.
  intros Hd Hw Hmu Ha. unfold frame.
  step ltac:(apply Lock_free; exact Hmu).
  step ltac:(reflexivity). cbn [spinner active set_mu]. rewrite Ha. cbn [negb].
  match goal with |- context [bind erase _ ?s1] =>
    destruct (erase_run d s1) as [sk' [E A]]; [exact Hd | exact Hw |]
  end.
  step ltac:(exact E).
  step ltac:(reflexivity). step ltac:(reflexivity). step ltac:(reflexivity).
  step ltac:(reflexivity). step ltac:(reflexivity). step ltac:(reflexivity).
  step ltac:(reflexivity).
  exists (writeTo (w (spinner st))
            (let line := CR ++ nth i frames "" ++ msg (spinner st) ++ " " in
             if count (spinner st) >? 1
             then line ++ "(" ++ fmt_d (completed (spinner st)) ++ "/"
                       ++ fmt_d (count (spinner st)) ++ ") "
             else line) sk').
  exists (let line := CR ++ nth i frames "" ++ msg (spinner st) ++ " " in
          if count (spinner st) >? 1
          then line ++ "(" ++ fmt_d (completed (spinner st)) ++ "/"
                    ++ fmt_d (count (spinner st)) ++ ") "
          else line).
  split.
  - clear E A Ha Hd Hw. destruct st as [sp sk ts su]. destruct sp.
    cbn in Hmu |- *. subst. reflexivity.
  - rewrite writeTo_other by assumption. exact A.
Qed.

Lemma frame_inactive (i : nat) (st : World) :
  mu (spinner st) = false -> active (spinner st) = false ->
  frame i st = (Returned false, st).
Proof.
  intros Hmu Ha. unfold frame.
  step ltac:(apply Lock_free; exact Hmu).
  step ltac:(reflexivity). cbn [spinner active set_mu]. rewrite Ha. cbn [negb].
  step ltac:(reflexivity).
  exact (f_equal (fun x => (Returned false, x)) (Unlock_after_Lock st Hmu)).
Qed.

Lemma bg_phase (d : Writer) (b : bool) (c : Z) (h : string) (st : World) (j : nat) :
  Phase d b c h st -> Phase d b c h (exec st (Bg j)).
Proof.
  intros P.
  pose proof P as (Hd & Hw & Hmu & Hs & Hc & Hn & Hm & Hsm & Ha & Hk & Hh).
  unfold exec. cbn [act]. unfold taskStep.
  destruct (nth_error (tasks st) j) as [[i|i]|]; [| |exact P].
  - rewrite Hc. cbn. exact P.
  - destruct b.
    + destruct (frame_active d i st Hd Hw Hmu Ha) as [sk' [line [E A]]].
      erewrite bind_returned by exact E. cbn.
      unfold Phase. cbn. repeat split; try assumption.
      unfold spec_history. cbn. rewrite A.
      rewrite <- Hh. unfold spec_history. now rewrite sapp_assoc.
    + rewrite (bind_returned _ _ _ _ _ (frame_inactive i st Hmu Ha)). exact P.
Qed.

Lemma bgs_phase (d : Writer) (b : bool) (c : Z) (h : string) (js : list nat) (st : World) :
  Phase d b c h st -> Phase d b c h (execAll (map Bg js) st).
Proof.
  revert st. induction js as [|j js IH]; intros st P; [exact P|].
  cbn [map execAll fold_left]. apply IH. now apply bg_phase.
Qed.

Lemma Start_phase (d : Writer) (c : Z) (h : string) (st : World) :
  Phase d false c h st -> Phase d true c h (exec st (Fg CStart)).
Proof.
  intros (Hd & Hw & Hmu & Hs & Hc & Hn & Hm & Hsm & Ha & Hk & Hh).
  unfold exec. cbn [act call]. unfold Start.
  step ltac:(apply Lock_free; exact Hmu).
  step ltac:(reflexivity). cbn [spinner active set_mu]. rewrite Ha.
  step ltac:(reflexivity).
  rewrite bind_assoc. step ltac:(reflexivity).
  cbn [spinner set_active set_mu startMsg]. rewrite Hsm.
  cbn. unfold Phase, spec_history in *. cbn. repeat split; assumption.
Qed.

Lemma setMsg_history (d : Writer) (st : World) (t : string) :
  spec_history d
    (mkWorld (set_msg (String " " t) (spec_savePrevious (spinner st)))
             (sinks st) (tasks st) (suspended st))
  = spec_history d st ++ t ++ LF.
Proof.
  unfold spec_history, spec_savePrevious. cbn.
  destruct (msg (spinner st)) as [|a old]; cbn.
  - rewrite sapp_nil_r. now rewrite !sapp_assoc.
  - rewrite spec_lines_app. now rewrite !sapp_assoc.
Qed.

Lemma Inc_phase (d : Writer) (b : bool) (c : Z) (h : string) (st : World)
    (m : string) :
  Phase d b c h st -> 0 <= c < 2 ->
  spec_stripped m m -> m <> "" -> len m <= 5 -> spec_startsWithSpace m = false ->
  Phase d b (c + 1) (h ++ m ++ LF) (exec st (Fg (CIncWithMessage m))).
Proof.
  intros (Hd & Hw & Hmu & Hs & Hc & Hn & Hm & Hsm & Ha & Hk & Hh)
         Hc2 Hst Hne Hl Hsp.
  unfold exec. cbn [act call]. unfold IncWithMessage.
  step ltac:(apply Lock_free; exact Hmu).
  erewrite deferUnlock_returned; cycle 1.
  { step ltac:(reflexivity). step ltac:(reflexivity).
    cbn [spinner completed count set_mu].
    replace (completed (spinner st) >=? count (spinner st)) with false
      by (symmetry; rewrite Z.geb_leb; apply Z.leb_gt; lia).
    step ltac:(reflexivity).
    rewrite (setMsg_cases _ m m Hne Hst).
    destruct (String.eqb_spec m "") as [E|_]; [contradiction|].
    cbn [orb spinner set_completed set_mu maxMsgLen].
    replace (len m >? maxMsgLen (spinner st)) with false
      by (symmetry; rewrite Z.gtb_ltb; apply Z.ltb_ge; lia).
    cbn [andb]. unfold spec_padded. rewrite Hsp.
    change (" " ++ m) with (String " " m). reflexivity. }
  cbn [snd Unlock].
  unfold Phase.
  match goal with |- context [spec_history d ?W] =>
    replace (spec_history d W) with (h ++ m ++ LF) end.
  - unfold spec_savePrevious. cbn. destruct (msg (spinner st)); cbn;
      rewrite wrap_id by (unfold is_int, MinInt, MaxInt; lia);
      repeat split; try assumption; lia.
  - rewrite <- Hh. symmetry.
    etransitivity; [|apply (setMsg_history d st m)].
    unfold spec_history, spec_savePrevious. cbn.
    destruct (msg (spinner st)); reflexivity.
Qed.

Lemma index_last_exists (m : string) :
  m <> "" -> exists c, index m (len m - 1) = Some c.
Proof.
  intros H. destruct (last_split m H) as [p [c E]].
  exists c. rewrite E. apply index_last.
Qed.

Lemma Stop_phase (d : Writer) (c : Z) (h : string) (st : World) :
  Phase d true c h st ->
  sinks (exec st (Fg CStop)) d = h /\ After d (exec st (Fg CStop)).
Proof.
  intros (Hd & Hw & Hmu & Hs & Hc & Hn & Hm & Hsm & Ha & Hk & Hh).
  unfold exec. cbn [act call]. unfold Stop.
  step ltac:(apply Lock_free; exact Hmu).
  match goal with |- context [deferUnlock ?body ?s1] =>
    assert (B : exists st2,
              body s1 = (Returned tt, st2) /\ sinks st2 d = h /\
              debugw (spinner st2) = Some d /\ w (spinner st2) <> d /\
              suspended st2 = false /\ active (spinner st2) = false)
  end.
  { step ltac:(reflexivity). cbn [spinner active set_mu]. rewrite Ha. cbn [negb].
    step ltac:(reflexivity).
    unfold send. rewrite bind_assoc. step ltac:(reflexivity).
    cbn [spinner set_active set_mu stopChan]. rewrite Hc. cbn [Nat.ltb Nat.leb].
    step ltac:(reflexivity).
    unfold stopTail. step ltac:(reflexivity).
    cbn [spinner set_stopChan set_active set_mu msg].
    (* the message on display becomes a pending debug message *)
    match goal with |- context [bind ?pushOld _ ?s0] =>
      assert (Push : exists dm,
                pushOld s0
                = (Returned tt,
                   mkWorld (set_debugMsgs dm (spinner s0)) (sinks st) (tasks st)
                           false)
                /\ sinks st d ++ spec_lines dm = h)
    end.
    { destruct (msg (spinner st)) as [|a old] eqn:Em.
      - exists (debugMsgs (spinner st)). split.
        + cbn. rewrite Hs. destruct (spinner st); reflexivity.
        + rewrite <- Hh. unfold spec_history. rewrite Em. now rewrite sapp_nil_r.
      - exists (debugMsgs (spinner st) ++ [old])%list. split.
        + change (negb (String.eqb (String a old) "")) with true. cbv iota.
          erewrite bind_returned; [|apply sub_slice, slice_tail].
          cbn. now rewrite Hs.
        + rewrite <- Hh. unfold spec_history. rewrite Em.
          now rewrite spec_lines_app. }
    destruct Push as [dm [Ep Eh]].
    step ltac:(exact Ep).
    match goal with |- context [bind erase _ ?s1] =>
      destruct (erase_run d s1) as [sk' [Ee A]]; [exact Hd | exact Hw |]
    end.
    step ltac:(exact Ee).
    cbn in A. rewrite Eh in A.
    step ltac:(reflexivity).
    cbn [spinner set_lastOutput set_debugMsgs set_stopChan set_active set_mu
         stopMsg].
    destruct (String.eqb_spec (stopMsg (spinner st)) "") as [E0|N0]; cbn [negb].
    - eexists. split; [reflexivity|]. cbn. repeat split; assumption.
    - destruct (index_last_exists _ N0) as [c0 Ec0].
      step ltac:(apply at_index; exact Ec0).
      destruct (negb (Ascii.eqb c0 LFc)).
      + step ltac:(reflexivity). step ltac:(reflexivity). step ltac:(reflexivity).
        eexists. split; [reflexivity|]. cbn.
        rewrite writeTo_other by assumption. repeat split; assumption.
      + step ltac:(reflexivity). step ltac:(reflexivity). step ltac:(reflexivity).
        eexists. split; [reflexivity|]. cbn.
        rewrite writeTo_other by assumption. repeat split; assumption. }
  destruct B as (st2 & Eb & E1 & E2 & E3 & E4 & E5).
  rewrite (deferUnlock_returned _ _ _ _ Eb).
  unfold After. cbn. repeat split; assumption.
Qed.

Lemma bg_after (d : Writer) (st : World) (j : nat) :
  After d st ->
  After d (exec st (Bg j)) /\ sinks (exec st (Bg j)) d = sinks st d.
Proof.
  intros A. pose proof A as (Hd & Hw & Hmu & Hs & Ha).
  unfold exec. cbn [act]. unfold taskStep.
  destruct (nth_error (tasks st) j) as [[i|i]|]; [| |now split].
  - destruct (0 <? stopChan (spinner st))%nat.
    + rewrite Hs. cbn. unfold After. cbn. repeat split; assumption.
    + cbn. now split.
  - rewrite (bind_returned _ _ _ _ _ (frame_inactive i st Hmu Ha)).
    cbn. now split.
Qed.

Lemma bgs_after (d : Writer) (js : list nat) (st : World) :
  After d st -> sinks (execAll (map Bg js) st) d = sinks st d.
Proof.
  revert st. induction js as [|j js IH]; intros st A; [reflexivity|].
  cbn [map execAll fold_left]. destruct (bg_after d st j A) as [A' E].
  change (fold_left exec (map Bg js) (exec st (Bg j)))
    with (execAll (map Bg js) (exec st (Bg j))).
  now rewrite IH.
Qed.

Lemma execAll_app (l1 l2 : list Action) (st : World) :
  execAll (l1 ++ l2) st = execAll l2 (execAll l1 st).
Proof. unfold execAll. apply fold_left_app. Qed.

Lemma New_initial (opts : list Option) :
  msg (New opts) = "" /\ completed (New opts) = 0 /\ active (New opts) = false /\
  stopChan (New opts) = O /\ debugMsgs (New opts) = [] /\ mu (New opts) = false.
Proof.
  unfold New.
  match goal with |- context [fold_left applyOption opts ?sp0] =>
    assert (G : forall sp,
              msg sp = "" /\ completed sp = 0 /\ active sp = false /\
              stopChan sp = O /\ debugMsgs sp = [] /\ mu sp = false ->
              msg (fold_left applyOption opts sp) = "" /\
              completed (fold_left applyOption opts sp) = 0 /\
              active (fold_left applyOption opts sp) = false /\
              stopChan (fold_left applyOption opts sp) = O /\
              debugMsgs (fold_left applyOption opts sp) = [] /\
              mu (fold_left applyOption opts sp) = false);
    [| apply G; repeat split ]
  end.
  induction opts as [|o opts IH]; intros sp H; [exact H|].
  apply IH. now destruct o.
Qed.

(** C6, as the code has it.  Take a spinner constructed with a debug writer
    that names another sink than the output writer, with a total count of at
    least 2, no start message and room for five characters.  After
    [Start()], [IncWithMessage("step1")], [IncWithMessage("step2")] and
    [Stop()], with any steps of the animation goroutines before, between and
    after the calls, the debug sink has received exactly the two lines
    ["step1"] and ["step2"], in this order, each ended by a line terminator
    and without the leading space. *)
Theorem C6_debug_sink_receives_the_two_steps
    (opts : list Option) (sk : Writer -> string) (d : Writer)
    (bg0 bg1 bg2 bg3 bg4 : list nat) :
  debugw (New opts) = Some d ->
  w (New opts) <> d ->
  2 <= count (New opts) ->
  5 <= maxMsgLen (New opts) ->
  startMsg (New opts) = "" ->
  sinks
    (execAll
       (map Bg bg0 ++ [Fg CStart] ++
        map Bg bg1 ++ [Fg (CIncWithMessage "step1")] ++
        map Bg bg2 ++ [Fg (CIncWithMessage "step2")] ++
        map Bg bg3 ++ [Fg CStop] ++ map Bg bg4)
       (boot opts sk)) d
  = sk d ++ "step1" ++ LF ++ "step2" ++ LF.
Proof.
  intros Hd Hw Hn Hm Hsm.
  destruct (New_initial opts) as (I1 & I2 & I3 & I4 & I5 & I6).
  assert (P0 : Phase d false 0 (sk d) (boot opts sk)).
  { unfold Phase, spec_history. cbn. rewrite I1, I5. cbn.
    rewrite !sapp_nil_r. repeat split; assumption. }
  assert (NoLF : forall x, index x (len x - 1) <> Some LFc ->
                           spec_stripped x x).
  { intros x Hx. right. split; [reflexivity|]. intros p E. apply Hx.
    rewrite E. apply index_last. }
  repeat rewrite execAll_app.
  apply (bgs_phase d _ _ _ bg0) in P0.
  apply Start_phase in P0.
  apply (bgs_phase d _ _ _ bg1) in P0.
  apply (Inc_phase d _ _ _ _ "step1") in P0;
    [| lia | apply NoLF; discriminate | discriminate | cbn; lia | reflexivity].
  apply (bgs_phase d _ _ _ bg2) in P0.
  apply (Inc_phase d _ _ _ _ "step2") in P0;
    [| lia | apply NoLF; discriminate | discriminate | cbn; lia | reflexivity].
  apply (bgs_phase d _ _ _ bg3) in P0.
  apply Stop_phase in P0. destruct P0 as [E A].
  cbn [execAll fold_left] in *.
  change (fold_left exec (map Bg bg4) ?s) with (execAll (map Bg bg4) s).
  rewrite (bgs_after d bg4 _ A). rewrite E.
  now rewrite !sapp_assoc.
Qed.


End DebugSink.

Lemma C6_witness :
  sinks
    (execAll (ext := linux)
       (map Bg [0%nat; 0%nat] ++ [Fg CStart] ++
        map Bg [0%nat] ++ [Fg (CIncWithMessage "step1")] ++
        map Bg [] ++ [Fg (CIncWithMessage "step2")] ++
        map Bg [0%nat; 0%nat; 0%nat] ++ [Fg CStop] ++ map Bg [0%nat; 0%nat])
       (boot [WithDebugWriter 7%nat; WithCount 2] (fun _ => ""))) 7%nat
  = "" ++ "step1" ++ LF ++ "step2" ++ LF.
Proof.
  apply (C6_debug_sink_receives_the_two_steps (ext := linux)
           [WithDebugWriter 7%nat; WithCount 2] (fun _ => "") 7%nat
           [0%nat; 0%nat] [0%nat] [] [0%nat; 0%nat; 0%nat] [0%nat; 0%nat]).
  - reflexivity.
  - discriminate.
  - cbn. lia.
  - cbn. lia.
  - reflexivity.
Defined.

(** C6 read to the letter fails.  Without [Start()] the final [Stop()] does
    nothing, so the debug sink receives nothing; and with the default total
    count of 1 the second [IncWithMessage] does nothing, so that even after
    [Start()] only ["step1"] arrives. *)
Lemma C6_counterexample :
  sinks
    (execAll (ext := linux)
       [Fg (CIncWithMessage "step1"); Fg (CIncWithMessage "step2"); Fg CStop]
       (boot [WithDebugWriter 7%nat] (fun _ => ""))) 7%nat = "" /\
  sinks
    (execAll (ext := linux)
       [Fg CStart; Fg (CIncWithMessage "step1"); Fg (CIncWithMessage "step2");
        Fg CStop]
       (boot [WithDebugWriter 7%nat] (fun _ => ""))) 7%nat = "step1" ++ LF.
Proof. split; reflexivity. Qed.

(** ** Two goroutines calling [Inc] *)

Lemma step_keeps_Inv (n : Z) (t : Tid) (c c' : Conc) :
  Inv n c -> step t c = Some c' -> Inv n c'.
Proof.
  intros (Hn & H0 & Hmax & Hsum & Hh1 & Hh2 & Hfree) S.
  assert (Ho : holds (other t) c) by (destruct t; assumption).
  assert (Ht : holds t c) by (destruct t; assumption).
  unfold step in S.
  destruct (pc (thread t c)) eqn:Epc.
  - (* Idle: s.mu.Lock() *)
    destruct (todo (thread t c)) as [|k] eqn:Etodo; [discriminate|].
    destruct (mu (spinner (world c))) eqn:Emu.
    { rewrite (Lock_locked _ Emu) in S. discriminate. }
    rewrite (Lock_free _ Emu) in S.
    inversion S; subst c'; clear S.
    assert (Io : pc (thread (other t) c) = Idle).
    { unfold holds in Ho. destruct (pc (thread (other t) c)); try reflexivity;
        destruct Ho as [Ho _]; congruence. }
    destruct t; cbn in *; unfold Inv, holds, pending in *; cbn;
      rewrite ?Epc, ?Etodo, ?Io in *; repeat split; try assumption; try lia;
      try discriminate.
  - (* if s.completed >= s.count *)
    unfold holds in Ht. rewrite Epc in Ht. destruct Ht as [Hm Io].
    assert (L : completed (spinner (world c)) < count (spinner (world c))).
    { destruct t; cbn in *; unfold pending in Hsum; rewrite Epc, Io in Hsum; lia. }
    replace (completed (spinner (world c)) >=? count (spinner (world c)))
      with false in S by (symmetry; rewrite Z.geb_leb; apply Z.leb_gt; lia).
    inversion S; subst c'; clear S.
    destruct t; cbn in *; unfold Inv, holds, pending in *; cbn;
      rewrite ?Epc, ?Io in *; repeat split; try assumption; try lia;
      try discriminate.
  - (* s.completed++, the read *)
    unfold holds in Ht. rewrite Epc in Ht. destruct Ht as [Hm Io].
    inversion S; subst c'; clear S.
    destruct t; cbn in *; unfold Inv, holds, pending in *; cbn;
      rewrite ?Epc, ?Io in *; repeat split; try assumption; try lia;
      try discriminate.
  - (* s.completed++, the write *)
    unfold holds in Ht. rewrite Epc in Ht. destruct Ht as (Hm & Io & Etmp).
    inversion S; subst c'; clear S.
    assert (W : wrap (tmp + 1) = tmp + 1).
    { apply wrap_id. unfold is_int, MinInt, MaxInt in *.
      destruct t; cbn in *; unfold pending in Hsum; rewrite Epc, Io in Hsum; lia. }
    destruct t; cbn in *; unfold Inv, holds, pending in *; cbn;
      rewrite ?Epc, ?Io, ?W in *; repeat split; try assumption; try lia;
      try discriminate.
  - (* s.setMsg("") *)
    unfold holds in Ht. rewrite Epc in Ht. destruct Ht as [Hm Io].
    inversion S; subst c'; clear S.
    destruct t; cbn in *; unfold Inv, holds, pending in *; cbn;
      rewrite ?Epc, ?Io in *; repeat split; try assumption; try lia;
      try discriminate.
  - (* the deferred s.mu.Unlock() *)
    unfold holds in Ht. rewrite Epc in Ht. destruct Ht as [Hm Io].
    inversion S; subst c'; clear S.
    destruct t; cbn in *; unfold Inv, holds, pending in *; cbn;
      rewrite ?Epc, ?Io in *; repeat split; try assumption; try lia;
      try discriminate.
Qed.

Lemma run_keeps_Inv (n : Z) (sched : list Tid) (c : Conc) :
  Inv n c -> Inv n (run sched c).
Proof.
  revert c. induction sched as [|t sched IH]; intros c I; [exact I|].
  cbn [run fold_left]. apply IH. unfold runStep.
  destruct (step t c) as [c'|] eqn:S; [|exact I].
  exact (step_keeps_Inv n t c c' I S).
Qed.

Lemma start2_Inv (st : World) (a b : nat) :
  mu (spinner st) = false ->
  completed (spinner st) = 0 ->
  count (spinner st) = Z.of_nat (a + b) -> Z.of_nat (a + b) <= MaxInt ->
  Inv (Z.of_nat (a + b)) (start2 st a b).
Proof.
  intros Hm H0 Hn Hmax. unfold Inv, start2, holds, pending. cbn.
  repeat split; intros; try assumption; lia.
Qed.

Lemma finished_Inv (n : Z) (c : Conc) :
  Inv n c -> finished c = true -> completed (spinner (world c)) = n.
Proof.
  intros (Hn & H0 & Hmax & Hsum & _) F.
  unfold finished, isDone in F. apply andb_true_iff in F. destruct F as [F1 F2].
  unfold pending in Hsum.
  destruct (pc (th1 c)); try discriminate.
  destruct (todo (th1 c)); try discriminate.
  destruct (pc (th2 c)); try discriminate.
  destruct (todo (th2 c)); try discriminate.
  cbn in Hsum. lia.
Qed.

(** No deadlock: as long as a goroutine has something left to do, one of
    the two can move. *)
Lemma Inv_progress (n : Z) (c : Conc) :
  Inv n c -> finished c = false ->
  exists t c', step t c = Some c'.
Proof.
  intros (_ & _ & _ & _ & Hh1 & Hh2 & Hfree) F.
  unfold finished, isDone in F.
  assert (Busy : forall t, pc (thread t c) <> Idle -> exists c', step t c = Some c').
  { intros t N. unfold step. destruct (pc (thread t c)); try contradiction;
      try (eexists; reflexivity).
    destruct (_ >=? _); eexists; reflexivity. }
  destruct (pc (th1 c)) eqn:E1;
    try (exists T1; apply Busy; cbn; rewrite E1; discriminate).
  destruct (pc (th2 c)) eqn:E2;
    try (exists T2; apply Busy; cbn; rewrite E2; discriminate).
  specialize (Hfree eq_refl eq_refl).
  destruct (todo (th1 c)) as [|k1] eqn:D1.
  - destruct (todo (th2 c)) as [|k2] eqn:D2; [discriminate|].
    exists T2. unfold step. cbn. rewrite E2, D2, (Lock_free _ Hfree). eauto.
  - exists T1. unfold step. cbn. rewrite E1, D1, (Lock_free _ Hfree). eauto.
Qed.

Lemma run_cons (t : Tid) (sched : list Tid) (c : Conc) :
  run (t :: sched) c = run sched (runStep c t).
Proof. reflexivity. Qed.

Ltac one_step :=
  rewrite run_cons; unfold runStep at 1, step at 1;
  cbn [thread th1 th2 pc todo world setThread setWorld spinner completed count
       mu Lock Unlock assign snd fst set_mu set_completed].

(** Run alone, the steps of a call do what [Inc()] does as a whole: three
    steps when the count is complete, six otherwise. *)
Lemma solo_call_is_Inc (st : World) (k : nat) (th' : Thread) :
  mu (spinner st) = false ->
  run (if completed (spinner st) >=? count (spinner st)
       then [T1; T1; T1] else solo T1 1)
      (mkConc st (mkThread Idle (S k)) th')
  = mkConc (snd (Inc st)) (mkThread Idle k) th'.
Proof.
  intros Hm. destruct st as [sp sk ts su]. destruct sp. cbn in Hm. subst.
  unfold Inc, IncWithMessage, deferUnlock, bind.
  cbn [spinner completed count Lock mu field set_mu fst snd].
  destruct (completed0 >=? count0) eqn:E.
  - do 2 one_step. rewrite E. one_step. reflexivity.
  - change (solo T1 1) with [T1; T1; T1; T1; T1; T1].
    do 2 one_step. rewrite E. do 4 one_step. reflexivity.
Qed.

(** C10.  Two goroutines make [a] and [b] calls of [Inc()], 1000 together,
    on a spinner with a total count of 1000, nothing completed and the mutex
    free.  Under every schedule [completed] never exceeds 1000, and once
    both goroutines have made all their calls it is exactly 1000.  Until
    then one of the goroutines can always move. *)
Theorem C10_concurrent_Inc_loses_nothing
    (st : World) (a b : nat) (sched : list Tid) :
  mu (spinner st) = false ->
  count (spinner st) = 1000 -> completed (spinner st) = 0 ->
  (a + b = 1000)%nat ->
  completed (spinner (world (run sched (start2 st a b)))) <= 1000 /\
  (finished (run sched (start2 st a b)) = true ->
   completed (spinner (world (run sched (start2 st a b)))) = 1000) /\
  (finished (run sched (start2 st a b)) = false ->
   exists t c', step t (run sched (start2 st a b)) = Some c').
Proof.
  intros Hm Hn H0 Hab.
  assert (I : Inv 1000 (run sched (start2 st a b))).
  { apply run_keeps_Inv.
    replace 1000 with (Z.of_nat (a + b)) by lia.
    apply start2_Inv; [assumption | assumption | lia | unfold MaxInt; lia]. }
  split; [|split].
  - destruct I as (_ & _ & _ & Hsum & _). unfold pending in Hsum.
    destruct (pc (th1 _)), (pc (th2 _)); lia.
  - now apply finished_Inv.
  - now apply Inv_progress with 1000.
Qed.

Lemma C10_witness :
  finished (run (alternate 6000)
              (start2 (boot [WithCount 1000] (fun _ => "")) 400 600)) = true /\
  completed (spinner (world (run (alternate 6000)
     (start2 (boot [WithCount 1000] (fun _ => "")) 400 600)))) = 1000.
Proof.
  assert (F : finished (run (alternate 6000)
                (start2 (boot [WithCount 1000] (fun _ => "")) 400 600)) = true)
    by (vm_compute; reflexivity).
  split; [exact F|].
  exact (proj1 (proj2 (C10_concurrent_Inc_loses_nothing
                  (boot [WithCount 1000] (fun _ => "")) 400 600 (alternate 6000)
                  eq_refl eq_refl eq_refl eq_refl)) F).
Defined.

(* ------------------------------------------------------------------ *)
(** ** The life cycle, the counter and the debug messages in any state *)
(* ------------------------------------------------------------------ *)

Lemma extends_refl (sk : Writer -> string) : extends sk sk.
Proof. intros k. exists "". now rewrite sapp_nil_r. Qed.

Lemma extends_trans (a b c : Writer -> string) :
  extends a b -> extends b c -> extends a c.
Proof.
  intros H1 H2 k. destruct (H1 k) as [x Hx]. destruct (H2 k) as [y Hy].
  exists (x ++ y). now rewrite Hy, Hx, sapp_assoc.
Qed.

Lemma extends_writeTo (wr : Writer) (x : string) (sk : Writer -> string) :
  extends sk (writeTo wr x sk).
Proof.
  intros k. unfold writeTo. destruct (Nat.eqb k wr).
  - now exists x.
  - exists "". now rewrite sapp_nil_r.
Qed.

Lemma forRange_Fprint (l : list string) (g : string -> string) (wr : Writer)
    (st : World) :
  exists sk',
    forRange l (fun c => Fprint wr (g c)) st
    = (Returned tt, mkWorld (spinner st) sk' (tasks st) (suspended st))
    /\ extends (sinks st) sk'.
Proof.
  revert st. induction l as [|x l IH]; intros st.
  - exists (sinks st). split; [now destruct st | apply extends_refl].
  - cbn [forRange]. erewrite bind_returned by reflexivity.
    match goal with |- context [forRange l _ ?s] =>
      destruct (IH s) as [sk' [E X]] end.
    exists sk'. split; [exact E|].
    eapply extends_trans; [|exact X]. apply extends_writeTo.
Qed.

Section AnyState.
Context {ext : Externals}.

Lemma erase_any (st : World) :
  exists sk',
    erase st = (Returned tt, mkWorld (erased (spinner st)) sk' (tasks st) (suspended st))
    /\ extends (sinks st) sk'.
Proof.
  unfold erase.
  step ltac:(reflexivity). step ltac:(reflexivity).
  set (n := RuneCountInString (lastOutput (spinner st))).
  assert (W : exists sk1,
            (if String.eqb GOOS "windows"
             then Fprint (w (spinner st)) (CR ++ Repeat " " n ++ CR)
             else forRange [BS; "W"; BS; ESC ++ "[K"]
                    (fun c => Fprint (w (spinner st)) (Repeat c n)) ;;
                  Fprint (w (spinner st)) (CR ++ ESC ++ "[K")) st
            = (Returned tt, mkWorld (spinner st) sk1 (tasks st) (suspended st))
            /\ extends (sinks st) sk1).
  { destruct (String.eqb GOOS "windows").
    - eexists. split; [reflexivity | apply extends_writeTo].
    - destruct (forRange_Fprint [BS; "W"; BS; ESC ++ "[K"]
                  (fun c => Repeat c n) (w (spinner st)) st) as [sk0 [E X]].
      eexists. split.
      + erewrite bind_returned by exact E. reflexivity.
      + eapply extends_trans; [exact X | apply extends_writeTo]. }
  destruct W as [sk1 [E1 X1]].
  step ltac:(exact E1).
  step ltac:(reflexivity). cbn [spinner]. unfold erased.
  destruct (debugw (spinner st)) as [d|].
  - rewrite bind_assoc. step ltac:(reflexivity). rewrite bind_assoc.
    match goal with |- context [bind (forRange ?l _) _ ?s] =>
      destruct (forRange_Fprint l (fun m => m ++ LF) d s) as [sk' [E X]] end.
    exists sk'. split.
    + step ltac:(exact E). reflexivity.
    + eapply extends_trans; [exact X1 | exact X].
  - exists sk1. split; [reflexivity | exact X1].
Qed.

Lemma set_stopMsg_same (sp : Spinner) : set_stopMsg (stopMsg sp) sp = sp.
Proof. now destruct sp. Qed.

Lemma erased_fields (sp : Spinner) :
  stopMsg (erased sp) = stopMsg sp /\ w (erased sp) = w sp.
Proof. unfold erased. now destruct (debugw sp). Qed.

Lemma savePrevious_fields (sp : Spinner) :
  stopMsg (spec_savePrevious sp) = stopMsg sp /\
  w (spec_savePrevious sp) = w sp /\
  debugw (spec_savePrevious sp) = debugw sp.
Proof. unfold spec_savePrevious. now destruct (msg sp). Qed.

Lemma stopTail_any (st : World) :
  exists sk1,
    extends (sinks st) sk1 /\
    stopTail st
    = (Returned tt,
       mkWorld (stopped (spinner st))
               (if String.eqb (stopMsg (spinner st)) "" then sk1
                else writeTo (w (spinner st)) (withNewline (stopMsg (spinner st))) sk1)
               (tasks st) (suspended st)).
Proof.
  unfold stopTail. step ltac:(reflexivity).
  assert (Push : (if negb (String.eqb (msg (spinner st)) "")
                  then (t <- sub (msg (spinner st)) 1 (len (msg (spinner st))) ;;
                        assign (fun sp => set_debugMsgs (debugMsgs sp ++ [t])%list sp))
                  else ret tt) st
                 = (Returned tt,
                    mkWorld (spec_savePrevious (spinner st)) (sinks st) (tasks st)
                            (suspended st))).
  { unfold spec_savePrevious. destruct (msg (spinner st)) as [|a old].
    - now destruct st.
    - change (negb (String.eqb (String a old) "")) with true. cbv iota.
      erewrite bind_returned; [|apply sub_slice, slice_tail]. reflexivity. }
  step ltac:(exact Push).
  match goal with |- context [bind erase _ ?s1] =>
    destruct (erase_any s1) as [sk1 [Ee X]] end.
  cbn [spinner sinks tasks suspended] in Ee, X.
  exists sk1. split; [exact X|].
  step ltac:(exact Ee). step ltac:(reflexivity).
  cbn [spinner]. unfold stopped.
  destruct (erased_fields (spec_savePrevious (spinner st))) as [Es Ew].
  destruct (savePrevious_fields (spinner st)) as [Es' [Ew' _]].
  rewrite Es' in Es. rewrite Ew' in Ew.
  set (x := erased (spec_savePrevious (spinner st))) in *.
  rewrite <- Es, <- Ew. clearbody x. clear Es Ew Es' Ew' Ee Push.
  unfold withNewline.
  destruct (String.eqb_spec (stopMsg x) "") as [E0|N0]; cbn [negb].
  - rewrite E0. cbn [index len String.length]. cbn.
    rewrite <- E0. now rewrite set_stopMsg_same.
  - destruct (index_last_exists _ N0) as [c0 Ec0]. rewrite Ec0.
    step ltac:(apply at_index; exact Ec0).
    destruct (Ascii.eqb c0 LFc); cbn [negb].
    + step ltac:(reflexivity). step ltac:(reflexivity). step ltac:(reflexivity).
      cbn [spinner]. now rewrite set_stopMsg_same.
    + step ltac:(reflexivity). step ltac:(reflexivity). step ltac:(reflexivity).
      cbn. now destruct x.
Qed.


Lemma noblock_bind {A B} (m : M A) (k : A -> M B) :
  noblock m -> (forall a, noblock (k a)) -> noblock (bind m k).
Proof.
  intros Hm Hk st. unfold bind. specialize (Hm st).
  destruct (m st) as [[a| |] st']; cbn [fst] in *;
    [apply Hk | discriminate | contradiction].
Qed.

Lemma noblock_setMsg (m : string) : noblock (setMsg m).
Proof. intros st. apply setMsg_not_blocked. Qed.

Lemma sameCycle_refl (st : World) : sameCycle st st.
Proof. unfold sameCycle. repeat split. Qed.

Lemma sameCycle_trans (a b c : World) :
  sameCycle a b -> sameCycle b c -> sameCycle a c.
Proof.
  unfold sameCycle. intros H1 H2.
  repeat match goal with H : _ /\ _ |- _ => destruct H end.
  repeat split; congruence.
Qed.

Lemma sameButMsg_sameCycle (st st' : World) : sameButMsg st st' -> sameCycle st st'.
Proof.
  unfold sameButMsg, sameCycle. intros H.
  repeat match goal with H : _ /\ _ |- _ => destruct H end.
  repeat split; assumption.
Qed.

Lemma setMsg_sameCycle (m : string) : preserves sameCycle (setMsg m).
Proof. intros st. apply sameButMsg_sameCycle, setMsg_sameButMsg. Qed.

(** A method that takes the mutex, defers its release and does not touch
    the life cycle leaves it as it was, however the method ends. *)
Lemma locked_call_ctl {A} (body : M A) (st : World) :
  noblock body -> preserves sameCycle body ->
  ctl (snd ((Lock ;; deferUnlock body) st)) = ctl st.
Proof.
  intros Hn Hp. destruct (mu (spinner st)) eqn:Hmu.
  - unfold bind. now rewrite Lock_locked.
  - erewrite bind_returned by (apply Lock_free; exact Hmu).
    unfold deferUnlock.
    match goal with |- context [body ?s1] =>
      specialize (Hn s1); specialize (Hp s1); destruct (body s1) as [[a| |] s2]
    end; cbn [fst snd] in *; try contradiction;
      destruct Hp as (E1 & E2 & E3 & E4 & E5); cbn in *;
      unfold ctl; cbn; rewrite E1, E2, E3, E4, E5, Hmu; reflexivity.
Qed.

Lemma IncWithMessage_ctl (m : string) (st : World) :
  ctl (snd (IncWithMessage m st)) = ctl st.
Proof.
  unfold IncWithMessage. apply locked_call_ctl.
  - apply noblock_bind; [discriminate|]. intros c.
    apply noblock_bind; [discriminate|]. intros n.
    destruct (c >=? n); [discriminate|].
    apply noblock_bind; [discriminate|]. intros _. apply noblock_setMsg.
  - pose proof sameCycle_refl as R_refl. pose proof sameCycle_trans as R_trans.
    preserves_structure.
    + intros s. unfold sameCycle. cbn. now repeat split.
    + apply setMsg_sameCycle.
Qed.

Lemma Debugf_ctl (f : string) (st : World) :
  ctl (snd (Debugf f st)) = ctl st.
Proof.
  unfold Debugf. unfold bind at 1. cbn [field].
  destruct (debugw (spinner st)); [|reflexivity].
  apply locked_call_ctl.
  - discriminate.
  - intros s. unfold sameCycle. cbn. now repeat split.
Qed.


Lemma erased_cycle (sp : Spinner) :
  mu (erased sp) = mu sp /\ active (erased sp) = active sp /\
  stopChan (erased sp) = stopChan sp /\ lastOutput (erased sp) = "" /\
  count (erased sp) = count sp /\ completed (erased sp) = completed sp /\
  msg (erased sp) = msg sp /\ debugw (erased sp) = debugw sp.
Proof. unfold erased. destruct (debugw sp) eqn:E; cbn; now rewrite ?E. Qed.

Lemma savePrevious_cycle (sp : Spinner) :
  mu (spec_savePrevious sp) = mu sp /\
  active (spec_savePrevious sp) = active sp /\
  stopChan (spec_savePrevious sp) = stopChan sp /\
  count (spec_savePrevious sp) = count sp /\
  completed (spec_savePrevious sp) = completed sp.
Proof. unfold spec_savePrevious. now destruct (msg sp). Qed.

Lemma stopped_cycle (sp : Spinner) :
  mu (stopped sp) = mu sp /\ active (stopped sp) = active sp /\
  stopChan (stopped sp) = stopChan sp /\ lastOutput (stopped sp) = "" /\
  count (stopped sp) = count sp /\ completed (stopped sp) = completed sp.
Proof.
  unfold stopped.
  cbn [mu active stopChan lastOutput count completed set_stopMsg].
  destruct (erased_cycle (spec_savePrevious sp)) as (E1 & E2 & E3 & E4 & E5 & E6 & _).
  destruct (savePrevious_cycle sp) as (F1 & F2 & F3 & F5 & F6).
  repeat split; congruence.
Qed.

Lemma frame_any (i : nat) (st : World) :
  mu (spinner st) = false -> active (spinner st) = true ->
  exists sk1,
    extends (sinks st) sk1 /\
    frame i st
    = (Returned true,
       mkWorld (set_mu false
                  (set_lastOutput (frameLine i (spinner st))
                     (erased (set_mu true (spinner st)))))
               (writeTo (w (spinner st)) (frameLine i (spinner st)) sk1)
               (tasks st) (suspended st)).
Proof.
  intros Hmu Ha. unfold frame.
  step ltac:(apply Lock_free; exact Hmu).
  step ltac:(reflexivity). cbn [spinner active set_mu]. rewrite Ha. cbn [negb].
  match goal with |- context [bind erase _ ?s1] =>
    destruct (erase_any s1) as [sk1 [E X]] end.
  cbn [spinner sinks tasks suspended] in E, X.
  exists sk1. split; [exact X|].
  step ltac:(exact E).
  destruct (erased_cycle (set_mu true (spinner st)))
    as (_ & _ & _ & _ & Ec & Ed & Em & _).
  assert (Ew : w (erased (set_mu true (spinner st))) = w (spinner st))
    by (unfold erased; now destruct (debugw _)).
  step ltac:(reflexivity). step ltac:(reflexivity). step ltac:(reflexivity).
  step ltac:(reflexivity). step ltac:(reflexivity). step ltac:(reflexivity).
  step ltac:(reflexivity).
  cbn [spinner]. unfold frameLine.
  rewrite Ec, Ed, Em, Ew. cbn [count completed msg set_mu]. reflexivity.
Qed.

Lemma Start_ctl (st : World) :
  ctl (snd (Start st)) = ctlCall CStart (panicked (fst (Start st))) (ctl st).
Proof.
  destruct (mu (spinner st)) eqn:Hmu.
  { unfold Start, bind. rewrite Lock_locked by exact Hmu.
    unfold ctl, ctlCall. cbn. now rewrite Hmu. }
  destruct (active (spinner st)) eqn:Ha.
  { rewrite Start_active by assumption.
    unfold ctl, ctlCall. cbn. now rewrite Hmu, Ha. }
  unfold Start.
  erewrite !bind_returned by (apply Lock_free; exact Hmu).
  erewrite !(bind_returned (field active)) by reflexivity.
  cbn [spinner active set_mu]. rewrite Ha.
  erewrite !(bind_returned (assign _)) by reflexivity.
  rewrite !bind_assoc.
  erewrite !(bind_returned (field startMsg)) by reflexivity.
  match goal with |- context [bind (setMsg ?m) _ ?s1] =>
    pose proof (setMsg_not_blocked m s1) as NB;
    pose proof (setMsg_sameButMsg m s1) as SB;
    unfold bind at 1 3;
    destruct (setMsg m s1) as [[[]| |] s2]
  end; cbn [fst snd] in *; try contradiction;
    pose proof (proj1 (proj2 (proj2 (proj2 (proj2 (proj2 (proj2 SB))))))) as E0;
    apply sameButMsg_sameCycle in SB; destruct SB as (E1 & E2 & E3 & E4 & E5);
    cbn in E0, E1, E2, E3, E4, E5.
  - unfold ctl, ctlCall. cbn.
    now rewrite Hmu, Ha, E1, E2, E3, E4, E5.
  - unfold ctl, ctlCall. cbn.
    now rewrite Hmu, Ha, E0, E1, E2, E3, E4, E5.
Qed.

Lemma Stop_ctl (st : World) :
  ctl (snd (Stop st)) = ctlCall CStop false (ctl st).
Proof.
  destruct (mu (spinner st)) eqn:Hmu.
  { unfold Stop, bind. rewrite Lock_locked by exact Hmu.
    unfold ctl, ctlCall. cbn. now rewrite Hmu. }
  destruct (active (spinner st)) eqn:Ha.
  2:{ rewrite Stop_inactive by assumption.
      unfold ctl, ctlCall. cbn. now rewrite Hmu, Ha. }
  unfold Stop.
  erewrite bind_returned by (apply Lock_free; exact Hmu).
  unfold ctl at 2, ctlCall. cbn [c_mu c_active c_chan c_susp c_tasks c_drawn].
  rewrite Hmu, Ha. cbn [orb negb].
  destruct (stopChan (spinner st) <? 1)%nat eqn:Hc.
  - match goal with |- context [deferUnlock ?body ?s1] =>
      assert (B : exists sk',
                body s1
                = (Returned tt,
                   mkWorld (stopped (set_stopChan (S (stopChan (spinner st)))
                                       (set_active false (set_mu true (spinner st)))))
                           sk' (tasks st) (suspended st)))
    end.
    { step ltac:(reflexivity). cbn [spinner active set_mu]. rewrite Ha. cbn [negb].
      step ltac:(reflexivity).
      unfold send. rewrite bind_assoc. step ltac:(reflexivity).
      cbn [spinner set_active set_mu stopChan]. rewrite Hc.
      step ltac:(reflexivity).
      match goal with |- context [stopTail ?s2] =>
        destruct (stopTail_any s2) as [sk1 [_ E]] end.
      rewrite E. eexists. reflexivity. }
    destruct B as [sk' B]. erewrite deferUnlock_returned by exact B.
    unfold ctl. cbn [snd Unlock spinner suspended tasks].
    match goal with |- context [stopped ?x] =>
      destruct (stopped_cycle x) as (_ & E2 & E3 & E4 & _) end.
    cbn [set_mu mu active stopChan lastOutput].
    rewrite E2, E3, E4. reflexivity.
  - unfold deferUnlock.
    match goal with |- context [bind (field active) ?k ?s1] =>
      assert (B : bind (field active) k s1
                  = (Blocked,
                     mkWorld (set_active false (set_mu true (spinner st)))
                             (sinks st) (tasks st) true))
    end.
    { step ltac:(reflexivity). cbn [spinner active set_mu]. rewrite Ha. cbn [negb].
      step ltac:(reflexivity).
      unfold send. rewrite bind_assoc.
      unfold bind at 1. cbn [field spinner set_active set_mu stopChan].
      rewrite Hc. reflexivity. }
    rewrite B. reflexivity.
Qed.

Lemma taskStep_ctl (j : nat) (st : World) :
  ctl (snd (taskStep j st)) = ctlTask j (ctl st).
Proof.
  unfold taskStep, ctlTask. cbn [ctl c_tasks c_chan c_susp c_mu c_active c_drawn].
  destruct (nth_error (tasks st) j) as [[i|i]|]; [| |reflexivity].
  - destruct (0 <? stopChan (spinner st))%nat eqn:Hc; [|reflexivity].
    step ltac:(reflexivity). step ltac:(reflexivity).
    cbn [suspended]. destruct (suspended st) eqn:Hs; [|reflexivity].
    step ltac:(reflexivity). step ltac:(reflexivity).
    match goal with |- context [deferUnlock stopTail ?s2] =>
      destruct (stopTail_any s2) as [sk1 [_ E]];
      rewrite (deferUnlock_returned _ _ _ _ E)
    end.
    unfold ctl. cbn [snd Unlock spinner suspended tasks].
    match goal with |- context [stopped ?x] =>
      destruct (stopped_cycle x) as (_ & E2 & E3 & E4 & _) end.
    cbn [set_mu mu active stopChan lastOutput].
    rewrite E2, E3, E4. reflexivity.
  - destruct (mu (spinner st)) eqn:Hmu.
    { unfold frame, bind. rewrite Lock_locked by exact Hmu.
      unfold ctl. cbn. now rewrite Hmu. }
    destruct (active (spinner st)) eqn:Ha.
    + destruct (frame_any i st Hmu Ha) as [sk1 [_ E]].
      step ltac:(exact E). unfold ctl. cbn [snd setTasks spinner suspended tasks].
      destruct (erased_cycle (set_mu true (spinner st))) as (_ & E2 & E3 & _).
      cbn [set_mu set_lastOutput mu active stopChan lastOutput].
      rewrite E2, E3. cbn [set_mu active stopChan]. rewrite Ha.
      replace (String.eqb (frameLine i (spinner st)) "") with false; [reflexivity|].
      unfold frameLine. destruct (count (spinner st) >? 1); reflexivity.
    + rewrite (bind_returned _ _ _ _ _ (frame_inactive i st Hmu Ha)).
      unfold ctl. cbn. now rewrite Hmu, Ha.
Qed.

Lemma act_ctl (a : Action) (st : World) :
  ctl (exec st a) = ctlStep a (panicked (fst (act a st))) (ctl st).
Proof.
  unfold exec. destruct a as [c|j]; cbn [act ctlStep].
  - destruct c; cbn [call ctlCall].
    + apply Start_ctl.
    + apply Stop_ctl.
    + apply IncWithMessage_ctl.
    + apply IncWithMessage_ctl.
    + apply IncWithMessage_ctl.
    + apply Debugf_ctl.
  - apply taskStep_ctl.
Qed.


Lemma ctl_invariant (I : Ctl -> Prop) :
  (forall a p k, I k -> I (ctlStep a p k)) ->
  forall acts st, I (ctl st) -> I (ctl (execAll acts st)).
Proof.
  intros Hstep acts. induction acts as [|a acts IH]; intros st H; [exact H|].
  cbn [execAll fold_left]. apply IH. rewrite act_ctl. now apply Hstep.
Qed.

Lemma replaceTask_remove (ts : list Task) (j : nat) (t : Task) :
  nth_error ts j = Some t ->
  S (List.length (replaceTask ts j None)) = List.length ts.
Proof.
  revert j. induction ts as [|x ts IH]; intros j H; [now destruct j|].
  destruct j as [|j]; cbn in *; [reflexivity|].
  now rewrite (IH j H).
Qed.

Lemma replaceTask_keep (ts : list Task) (j : nat) (t : Task) :
  List.length (replaceTask ts j (Some t)) = List.length ts.
Proof.
  revert j. induction ts as [|x ts IH]; intros j; [now destruct j|].
  destruct j as [|j]; cbn; [reflexivity | now rewrite IH].
Qed.

Lemma accounted_step (a : Action) (p : bool) (k : Ctl) :
  accounted k -> accounted (ctlStep a p k).
Proof.
  unfold accounted. destruct k as [m ac c s ts d].
  cbn [c_mu c_active c_chan c_susp c_tasks c_drawn].
  intros (Hc & Ht & Hs).
  assert (Hs' : s = true -> m = true /\ ac = false) by exact Hs.
  destruct a as [call|j]; cbn [ctlStep].
  - destruct call; cbn [ctlCall c_mu c_active c_chan c_susp c_tasks c_drawn];
      try (split; [|split]; assumption).
    + destruct m, ac; cbn [orb c_mu c_active c_chan c_susp c_tasks];
        try (split; [|split]; assumption).
      destruct s; [destruct (Hs' eq_refl); discriminate|].
      destruct p; cbn [c_mu c_active c_chan c_susp c_tasks].
      * cbn [b2n] in *. repeat split; try assumption; try lia; discriminate.
      * rewrite length_app. cbn [List.length b2n] in *.
        repeat split; try assumption; try lia; discriminate.
    + destruct m, ac; cbn [orb negb c_mu c_active c_chan c_susp c_tasks];
        try (split; [|split]; assumption).
      destruct s; [destruct (Hs' eq_refl); discriminate|].
      destruct (Nat.ltb_spec c 1); cbn [c_mu c_active c_chan c_susp c_tasks b2n] in *.
      * repeat split; try lia; discriminate.
      * repeat split; try lia.
  - unfold ctlTask. cbn [c_mu c_active c_chan c_susp c_tasks c_drawn].
    destruct (nth_error ts j) as [[i|i]|] eqn:Hn;
      [| |split; [|split]; assumption].
    + destruct (Nat.ltb_spec 0 c).
      * pose proof (replaceTask_remove ts j _ Hn) as L.
        destruct s; cbn [c_mu c_active c_chan c_susp c_tasks b2n] in *.
        -- destruct (Hs' eq_refl) as [_ ->]. cbn [b2n] in *.
           repeat split; try lia; discriminate.
        -- repeat split; try lia; discriminate.
      * cbn [c_mu c_active c_chan c_susp c_tasks]. rewrite replaceTask_keep.
        split; [|split]; assumption.
    + destruct m; cbn [c_mu c_active c_chan c_susp c_tasks];
        [split; [|split]; assumption|].
      destruct s; [destruct (Hs' eq_refl); discriminate|].
      destruct ac; cbn [c_mu c_active c_chan c_susp c_tasks b2n] in *.
      * rewrite replaceTask_keep. repeat split; try lia; discriminate.
      * pose proof (replaceTask_remove ts j _ Hn) as L.
        repeat split; try lia; discriminate.
Qed.

Lemma staleCycle_step (a : Action) (p : bool) (k : Ctl) :
  In k staleCycle -> In (ctlStep a p k) staleCycle.
Proof.
  unfold staleCycle. cbn [In]. intros H.
  repeat (destruct H as [H|H]; [subst k|]); [| | | | |destruct H];
    (destruct a as [[]|[|[|j]]]; destruct p; cbn;
     repeat (first [left; reflexivity | right])).
Qed.


(** ** The counter under all calls *)

Lemma sameCount_refl (st : World) : sameCount st st.
Proof. now split. Qed.

Lemma sameCount_trans (a b c : World) :
  sameCount a b -> sameCount b c -> sameCount a c.
Proof. unfold sameCount. intros [H1 H2] [H3 H4]. split; congruence. Qed.

Lemma setMsg_sameCount (m : string) : preserves sameCount (setMsg m).
Proof.
  intros st. pose proof (setMsg_sameButMsg m st) as H. unfold sameButMsg in H.
  repeat match goal with H : _ /\ _ |- _ => destruct H end.
  split; assumption.
Qed.

Lemma Lock_sameCount : preserves sameCount Lock.
Proof. intros st. unfold Lock. destruct (mu (spinner st)); now split. Qed.

Ltac count_structure :=
  pose proof sameCount_refl as R_refl; pose proof sameCount_trans as R_trans;
  preserves_structure;
  try solve [apply setMsg_sameCount | apply Lock_sameCount];
  try (intros st; split; reflexivity).

Lemma erase_sameCount : preserves sameCount erase.
Proof. unfold erase. count_structure. Qed.

Lemma stopTail_sameCount : preserves sameCount stopTail.
Proof. unfold stopTail. count_structure. Qed.

Lemma Stop_sameCount : preserves sameCount Stop.
Proof. unfold Stop, send. count_structure. Qed.

Lemma Start_sameCount : preserves sameCount Start.
Proof. unfold Start, go_run. count_structure. Qed.

Lemma Debugf_sameCount (f : string) : preserves sameCount (Debugf f).
Proof. unfold Debugf. count_structure. Qed.

Lemma frame_sameCount (i : nat) : preserves sameCount (frame i).
Proof. unfold frame. count_structure. Qed.

Lemma taskStep_sameCount (j : nat) : preserves sameCount (taskStep j).
Proof.
  intros st. unfold taskStep.
  set (ts := tasks st).
  destruct (nth_error ts j) as [[i|i]|]; [| |now split].
  - destruct (0 <? stopChan (spinner st))%nat.
    + set (sus := suspended st). clearbody ts sus. revert st.
      refine (_ : preserves sameCount _).
      unfold setTasks. count_structure.
    + now split.
  - clearbody ts. revert st.
    refine (_ : preserves sameCount _).
    unfold setTasks. count_structure.
Qed.

Lemma IncWithMessage_inBounds (m : string) (st : World) :
  count (spinner st) <= MaxInt -> inBounds (spinner st) ->
  count (spinner (snd (IncWithMessage m st))) = count (spinner st) /\
  inBounds (spinner (snd (IncWithMessage m st))).
Proof.
  unfold inBounds. intros Hc Hb.
  destruct (mu (spinner st)) eqn:Hmu.
  { unfold IncWithMessage, bind. rewrite Lock_locked by exact Hmu. now split. }
  destruct (Z.leb_spec (count (spinner st)) (completed (spinner st))) as [L|L].
  - rewrite IncWithMessage_complete by assumption. now split.
  - destruct (IncWithMessage_counts st m Hmu) as (E1 & E2 & _); [lia | exact Hc |].
    rewrite E1, E2. split; [reflexivity | lia].
Qed.

Lemma act_inBounds (a : Action) (st : World) :
  count (spinner st) <= MaxInt -> inBounds (spinner st) ->
  count (spinner (exec st a)) = count (spinner st) /\
  inBounds (spinner (exec st a)).
Proof.
  intros Hc Hb. unfold exec.
  assert (K : forall c : M unit, preserves sameCount c ->
            count (spinner (snd (c st))) = count (spinner st) /\
            inBounds (spinner (snd (c st)))).
  { intros c H. destruct (H st) as [E1 E2]. unfold inBounds in *.
    now rewrite E1, E2. }
  destruct a as [c|j]; cbn [act]; [|apply K, taskStep_sameCount].
  destruct c; cbn [call].
  - apply K, Start_sameCount.
  - apply K, Stop_sameCount.
  - now apply IncWithMessage_inBounds.
  - now apply IncWithMessage_inBounds.
  - now apply IncWithMessage_inBounds.
  - apply K, Debugf_sameCount.
Qed.

Lemma execAll_inBounds (acts : list Action) (st : World) :
  count (spinner st) <= MaxInt -> inBounds (spinner st) ->
  count (spinner (execAll acts st)) = count (spinner st) /\
  inBounds (spinner (execAll acts st)).
Proof.
  revert st. induction acts as [|a acts IH]; intros st Hc Hb; [now split|].
  cbn [execAll fold_left].
  destruct (act_inBounds a st Hc Hb) as [E B].
  destruct (IH (exec st a)) as [E' B']; [lia | exact B |].
  split; [unfold execAll in E'; congruence | exact B'].
Qed.


(** ** The pending debug messages without a debug writer *)

Lemma keepsDebug_refl (st : World) : keepsDebug st st.
Proof. split; [reflexivity|]. intros _. exists []. now rewrite app_nil_r. Qed.

Lemma keepsDebug_trans (a b c : World) :
  keepsDebug a b -> keepsDebug b c -> keepsDebug a c.
Proof.
  intros [H1 H2] [H3 H4]. split; [congruence|]. intros N.
  destruct (H2 N) as [x Hx]. destruct H4 as [y Hy]; [congruence|].
  exists (x ++ y)%list. now rewrite Hy, Hx, <- app_assoc.
Qed.

Lemma keepsDebug_same (st st' : World) :
  debugw (spinner st') = debugw (spinner st) ->
  debugMsgs (spinner st') = debugMsgs (spinner st) ->
  keepsDebug st st'.
Proof.
  intros H1 H2. split; [exact H1|]. intros _. exists [].
  now rewrite app_nil_r.
Qed.

Lemma erase_keepsDebug : preserves keepsDebug erase.
Proof.
  intros st. destruct (erase_any st) as [sk' [E _]]. rewrite E. cbn [snd spinner].
  destruct (erased_cycle (spinner st)) as (_ & _ & _ & _ & _ & _ & _ & Ed).
  split; [exact Ed|]. intros N. exists []. rewrite app_nil_r.
  unfold erased. now rewrite N.
Qed.

Lemma Lock_keepsDebug : preserves keepsDebug Lock.
Proof.
  intros st. unfold Lock. destruct (mu (spinner st)); now apply keepsDebug_same.
Qed.

Ltac debug_structure :=
  pose proof keepsDebug_refl as R_refl; pose proof keepsDebug_trans as R_trans;
  repeat first
    [ apply erase_keepsDebug
    | apply Lock_keepsDebug
    | apply preserves_ret; assumption
    | apply preserves_panic; assumption
    | apply preserves_block; assumption
    | apply preserves_field; assumption
    | apply preserves_at; assumption
    | apply preserves_sub; assumption
    | apply preserves_bind; [assumption | | intros ?]
    | apply preserves_forRange; [assumption | assumption | intros ?]
    | apply preserves_deferUnlock; [assumption | | ]
    | match goal with
      | |- preserves _ (if ?b then _ else _) => destruct b
      | |- preserves _ (match ?x with Some _ => _ | None => _ end) => destruct x
      end ];
  try (intros st; apply keepsDebug_same; reflexivity);
  try (intros st; split; [reflexivity | intros _; eexists; reflexivity]).

Lemma setMsg_keepsDebug (m : string) : preserves keepsDebug (setMsg m).
Proof. unfold setMsg. debug_structure. Qed.

Lemma stopTail_keepsDebug : preserves keepsDebug stopTail.
Proof. unfold stopTail. debug_structure. Qed.

Lemma Stop_keepsDebug : preserves keepsDebug Stop.
Proof. unfold Stop, send, stopTail. debug_structure. Qed.

Lemma Start_keepsDebug : preserves keepsDebug Start.
Proof. unfold Start, go_run, setMsg. debug_structure. Qed.

Lemma IncWithMessage_keepsDebug (m : string) :
  preserves keepsDebug (IncWithMessage m).
Proof. unfold IncWithMessage, setMsg. debug_structure. Qed.

Lemma Debugf_keepsDebug (f : string) : preserves keepsDebug (Debugf f).
Proof. unfold Debugf. debug_structure. Qed.

Lemma frame_keepsDebug (i : nat) : preserves keepsDebug (frame i).
Proof. unfold frame. debug_structure. Qed.

Lemma taskStep_keepsDebug (j : nat) : preserves keepsDebug (taskStep j).
Proof.
  intros st. unfold taskStep.
  set (ts := tasks st).
  destruct (nth_error ts j) as [[i|i]|]; [| |apply keepsDebug_refl].
  - destruct (0 <? stopChan (spinner st))%nat.
    + set (sus := suspended st). clearbody ts sus. revert st.
      refine (_ : preserves keepsDebug _).
      unfold setTasks, stopTail. debug_structure.
    + now apply keepsDebug_same.
  - clearbody ts. revert st.
    refine (_ : preserves keepsDebug _).
    unfold setTasks, frame. debug_structure.
Qed.

Lemma act_keepsDebug (a : Action) : preserves keepsDebug (act a).
Proof.
  destruct a as [c|j]; [|apply taskStep_keepsDebug].
  destruct c; cbn [act call].
  - apply Start_keepsDebug.
  - apply Stop_keepsDebug.
  - apply IncWithMessage_keepsDebug.
  - apply IncWithMessage_keepsDebug.
  - apply IncWithMessage_keepsDebug.
  - apply Debugf_keepsDebug.
Qed.

Lemma execAll_keepsDebug (acts : list Action) (st : World) :
  keepsDebug st (execAll acts st).
Proof.
  revert st. induction acts as [|a acts IH]; intros st; [apply keepsDebug_refl|].
  cbn [execAll fold_left].
  eapply keepsDebug_trans; [apply (act_keepsDebug a st) | apply IH].
Qed.


(** ** The theorems *)

Lemma New_ctl (opts : list Option) (sk : Writer -> string) :
  ctl (boot opts sk) = atRest.
Proof.
  unfold boot, ctl, atRest. cbn [spinner suspended tasks].
  assert (G : forall sp,
            mu (fold_left applyOption opts sp) = mu sp /\
            active (fold_left applyOption opts sp) = active sp /\
            stopChan (fold_left applyOption opts sp) = stopChan sp /\
            lastOutput (fold_left applyOption opts sp) = lastOutput sp).
  { induction opts as [|o opts IH]; intros sp; [now repeat split|].
    cbn [fold_left]. destruct (IH (applyOption sp o)) as (E1 & E2 & E3 & E4).
    rewrite E1, E2, E3, E4. now destruct o. }
  unfold New. match goal with |- context [fold_left applyOption opts ?sp] =>
    destruct (G sp) as (E1 & E2 & E3 & E4) end.
  now rewrite E1, E2, E3, E4.
Qed.

(** X8.  The counter under every schedule: whatever methods are called and
    whatever steps the goroutines take, [count] stays what the options made
    it, and [completed] stays between 0 and [count] (at 0 when [count] is
    negative). *)
Theorem completed_stays_within_count (opts : list Option)
    (sk : Writer -> string) (acts : list Action) :
  count (New opts) <= MaxInt ->
  count (spinner (execAll acts (boot opts sk))) = count (New opts) /\
  0 <= completed (spinner (execAll acts (boot opts sk)))
    <= Z.max 0 (count (New opts)).
Proof.
  intros H.
  destruct (execAll_inBounds acts (boot opts sk)) as [E B].
  - exact H.
  - unfold inBounds, boot. cbn [spinner].
    destruct (New_initial opts) as (_ & -> & _). lia.
  - split; [exact E|]. unfold inBounds in B. now rewrite E in B.
Qed.

(** X9.  The goroutines are accounted for: after any calls and goroutine
    steps on a new spinner the channel holds at most one signal, and there
    are no more goroutines than the active flag, the signals in the channel
    and a suspended [Stop] stand for; so never more than two. *)
Theorem goroutines_are_accounted_for (opts : list Option)
    (sk : Writer -> string) (acts : list Action) :
  (stopChan (spinner (execAll acts (boot opts sk))) <= 1)%nat /\
  (List.length (tasks (execAll acts (boot opts sk)))
   <= b2n (active (spinner (execAll acts (boot opts sk))))
      + stopChan (spinner (execAll acts (boot opts sk)))
      + b2n (suspended (execAll acts (boot opts sk))))%nat /\
  (List.length (tasks (execAll acts (boot opts sk))) <= 2)%nat.
Proof.
  assert (A : accounted (ctl (execAll acts (boot opts sk)))).
  { apply ctl_invariant; [apply accounted_step|].
    rewrite New_ctl. unfold accounted, atRest. cbn.
    repeat split; try lia; discriminate. }
  destruct A as (Hc & Ht & Hs). cbn [ctl c_mu c_active c_chan c_susp c_tasks] in *.
  split; [exact Hc|]. split; [exact Ht|].
  revert Ht Hs.
  destruct (suspended _); destruct (active _); cbn [b2n]; intros Ht Hs;
    try lia; destruct (Hs eq_refl); discriminate.
Qed.

Lemma framesOf_running (n i : nat) (d : bool) (st : World) :
  ctl st = running i d ->
  exists i' d', ctl (execAll (framesOf n) st) = running i' d'.
Proof.
  revert i d st. induction n as [|n IH]; intros i d st H; [now exists i, d|].
  cbn [framesOf execAll fold_left].
  apply (IH (nextFrame i) true).
  rewrite !act_ctl, H. reflexivity.
Qed.

(** X10.  A round trip: from rest, [Start] (when it returns), any number
    of frames, [Stop] while the goroutine stands at its [select], and the
    goroutine's next step lead back to rest: inactive, mutex free, channel
    empty, no goroutine, nothing left on the line. *)
Theorem start_frames_stop_is_a_round_trip (st : World) (n : nat) :
  ctl st = atRest -> fst (Start st) = Returned tt ->
  ctl (execAll ([Fg CStart] ++ framesOf n ++ [Fg CStop; Bg 0]) st) = atRest.
Proof.
  intros H R. rewrite !execAll_app.
  assert (S1 : ctl (execAll [Fg CStart] st) = running 0 false).
  { cbn [execAll fold_left]. rewrite act_ctl, H. cbn [act call]. rewrite R.
    reflexivity. }
  destruct (framesOf_running n _ _ _ S1) as [i' [d' S2]].
  cbn [execAll fold_left] in *. rewrite !act_ctl, S2. reflexivity.
Qed.

(** X11.  A stop signal is left behind: when the goroutine has passed its
    [select] and [Stop] runs before the goroutine takes the mutex, the
    goroutine returns through the test of [active], and the signal [Stop]
    sent stays in the channel of the inactive spinner. *)
Theorem stop_after_select_leaves_a_signal (st : World) (i : nat) (d : bool) :
  ctl st = running i d ->
  ctl (execAll [Bg 0; Fg CStop; Bg 0] st) = stale.
Proof.
  intros H. cbn [execAll fold_left]. rewrite !act_ctl, H. reflexivity.
Qed.

(** X12.  The signal left behind stops every later animation: from then
    on, under all calls and goroutine steps, each goroutine [Start] creates
    stands at its first [select] until it receives and returns, none takes
    the mutex, and no frame is written ([lastOutput] stays empty). *)
Theorem stale_signal_stops_every_later_animation (st : World)
    (acts : list Action) :
  ctl st = stale ->
  lastOutput (spinner (execAll acts st)) = "" /\
  (forall t, In t (tasks (execAll acts st)) -> t = AtSelect 0) /\
  (List.length (tasks (execAll acts st)) <= 1)%nat.
Proof.
  intros H.
  assert (A : In (ctl (execAll acts st)) staleCycle).
  { apply (ctl_invariant (fun k => In k staleCycle));
      [intros a p k; apply staleCycle_step|].
    rewrite H. now left. }
  unfold ctl in A. cbn [staleCycle In] in A.
  assert (B : forall m a c s ts,
            mkCtl (mu (spinner (execAll acts st))) (active (spinner (execAll acts st)))
                  (stopChan (spinner (execAll acts st))) (suspended (execAll acts st))
                  (tasks (execAll acts st))
                  (negb (String.eqb (lastOutput (spinner (execAll acts st))) ""))
            = mkCtl m a c s ts false ->
            lastOutput (spinner (execAll acts st)) = "" /\
            tasks (execAll acts st) = ts).
  { intros m a c s ts E. inversion E as [[E1 E2 E3 E4 E5 E6]].
    apply negb_false_iff, String.eqb_eq in E6. now split. }
  repeat (destruct A as [A|A];
          [symmetry in A; destruct (B _ _ _ _ _ A) as [-> ->]; cbn;
           repeat split; try lia; intros t [<-|[]]; reflexivity|]).
  destruct A.
Qed.

(** X13.  [Stop] on an active spinner whose mutex is free and whose channel
    is empty returns; the output writer has then received, after what
    [erase] wrote, the stop message with a line terminator at its end (added
    when it was missing, and stored in [stopMsg]); the spinner is inactive
    and nothing is left on the line. *)
Theorem Stop_writes_the_stop_message (st : World) :
  mu (spinner st) = false -> active (spinner st) = true ->
  stopChan (spinner st) = O ->
  exists st' x,
    Stop st = (Returned tt, st') /\
    sinks st' (w (spinner st))
    = sinks st (w (spinner st)) ++ x ++ withNewline (stopMsg (spinner st)) /\
    stopMsg (spinner st') = withNewline (stopMsg (spinner st)) /\
    active (spinner st') = false /\ lastOutput (spinner st') = "" /\
    mu (spinner st') = false /\ stopChan (spinner st') = 1%nat.
Proof.
  intros Hmu Ha Hc. unfold Stop.
  erewrite bind_returned by (apply Lock_free; exact Hmu).
  match goal with |- context [deferUnlock ?body ?s1] =>
    assert (B : exists sk1,
              extends (sinks st) sk1 /\
              body s1
              = (Returned tt,
                 mkWorld (stopped (set_stopChan 1
                                     (set_active false (set_mu true (spinner st)))))
                         (if String.eqb (stopMsg (spinner st)) "" then sk1
                          else writeTo (w (spinner st))
                                 (withNewline (stopMsg (spinner st))) sk1)
                         (tasks st) (suspended st)))
  end.
  { step ltac:(reflexivity). cbn [spinner active set_mu]. rewrite Ha. cbn [negb].
    step ltac:(reflexivity).
    unfold send. rewrite bind_assoc. step ltac:(reflexivity).
    cbn [spinner set_active set_mu stopChan]. rewrite Hc. cbn [Nat.ltb Nat.leb].
    step ltac:(reflexivity).
    match goal with |- context [stopTail ?s2] =>
      destruct (stopTail_any s2) as [sk1 [X E]] end.
    exists sk1. split; [exact X | exact E]. }
  destruct B as [sk1 [X B]]. erewrite deferUnlock_returned by exact B.
  destruct (X (w (spinner st))) as [x Hx].
  eexists. exists x. split; [reflexivity|].
  cbn [snd Unlock spinner sinks].
  match goal with |- context [stopped ?y] =>
    destruct (stopped_cycle y) as (_ & E2 & E3 & E4 & _) end.
  cbn [set_mu mu active stopChan lastOutput stopMsg].
  rewrite E2, E3, E4. unfold stopped at 1. cbn [stopMsg set_stopMsg].
  repeat split; try reflexivity.
  destruct (String.eqb_spec (stopMsg (spinner st)) "") as [E0|N0].
  - rewrite E0, Hx. unfold withNewline. cbn. now rewrite !sapp_nil_r.
  - rewrite writeTo_same, Hx. now rewrite sapp_assoc.
Qed.

(** X14.  [Debugf] without a debug writer changes nothing and does not
    wait for the mutex.  With a debug writer other than the output writer,
    the message is queued, and the next frame writes the queue to the debug
    writer, one message a line, the new message last. *)
Theorem Debugf_reaches_the_debug_writer (st : World) (f : string) :
  (debugw (spinner st) = None -> Debugf f st = (Returned tt, st)) /\
  (forall d j i,
     debugw (spinner st) = Some d -> w (spinner st) <> d ->
     mu (spinner st) = false -> active (spinner st) = true ->
     nth_error (tasks st) j = Some (AtLock i) ->
     sinks (execAll [Fg (CDebugf f); Bg j] st) d
     = sinks st d ++ spec_lines (debugMsgs (spinner st)) ++ f ++ LF /\
     debugMsgs (spinner (execAll [Fg (CDebugf f); Bg j] st)) = []).
Proof.
  split.
  - intros H. unfold Debugf, bind. cbn [field]. now rewrite H.
  - intros d j i Hd Hw Hmu Ha Hj.
    assert (D : Debugf f st
                = (Returned tt,
                   mkWorld (set_debugMsgs (debugMsgs (spinner st) ++ [f])%list
                              (spinner st))
                           (sinks st) (tasks st) (suspended st))).
    { unfold Debugf. step ltac:(reflexivity). rewrite Hd.
      step ltac:(apply Lock_free; exact Hmu).
      erewrite deferUnlock_returned by reflexivity.
      cbn. destruct st as [sp sk ts su]. destruct sp. cbn in *. now subst. }
    assert (F : exists sk' sp',
              execAll [Fg (CDebugf f); Bg j] st
              = mkWorld (set_lastOutput (fst sp') (set_debugMsgs [] (snd sp'))) sk'
                        (replaceTask (tasks st) j (Some (AtSelect (nextFrame i))))
                        (suspended st)
              /\ sk' d = sinks st d
                         ++ spec_lines (debugMsgs (spinner st) ++ [f])%list).
    { cbn [execAll fold_left]. unfold exec. cbn [act call]. rewrite D.
      cbn [snd]. unfold taskStep. cbn [tasks]. rewrite Hj.
      match goal with |- context [bind (frame i) _ ?s1] =>
        destruct (frame_active d i s1) as [sk' [line [E A]]];
          [exact Hd | exact Hw | exact Hmu | exact Ha |]
      end.
      erewrite bind_returned by exact E.
      exists sk'. eexists (_, _). split; [|exact A]. reflexivity. }
    destruct F as [sk' [sp' [-> A]]]. cbn [sinks spinner].
    split; [|reflexivity].
    rewrite A. now rewrite spec_lines_app.
Qed.

(** X15.  Without a debug writer the pending debug messages are never
    emptied: after any calls and goroutine steps the list still begins
    with what it held before. *)
Theorem pending_debug_messages_are_kept (st : World) (acts : list Action) :
  debugw (spinner st) = None ->
  debugw (spinner (execAll acts st)) = None /\
  exists more,
    debugMsgs (spinner (execAll acts st))
    = (debugMsgs (spinner st) ++ more)%list.
Proof.
  intros H. destruct (execAll_keepsDebug acts st) as [E G].
  split; [congruence | exact (G H)].
Qed.

End AnyState.


Lemma completed_stays_within_count_witness :
  count (spinner (execAll (ext := linux)
                    [Fg CStart; Fg CInc; Bg 0; Fg (CIncWithMessage "two");
                     Fg CInc; Fg CStop; Fg CInc]
                    (boot [WithCount 2] (fun _ => ""))))
  = count (New [WithCount 2]) /\
  0 <= completed (spinner (execAll (ext := linux)
                             [Fg CStart; Fg CInc; Bg 0;
                              Fg (CIncWithMessage "two"); Fg CInc; Fg CStop;
                              Fg CInc]
                             (boot [WithCount 2] (fun _ => ""))))
    <= Z.max 0 (count (New [WithCount 2])).
Proof.
  apply (completed_stays_within_count (ext := linux)).
  vm_compute. discriminate.
Defined.

Lemma start_frames_stop_witness :
  ctl (execAll (ext := linux)
         ([Fg CStart] ++ framesOf 2 ++ [Fg CStop; Bg 0])
         (boot [WithStartMessage "loading"] (fun _ => "")))
  = atRest.
Proof.
  apply (start_frames_stop_is_a_round_trip (ext := linux)).
  - reflexivity.
  - reflexivity.
Defined.

Lemma stop_after_select_witness :
  ctl (execAll (ext := linux) [Bg 0; Fg CStop; Bg 0]
         (exec (ext := linux) (boot [] (fun _ => "")) (Fg CStart)))
  = stale.
Proof.
  apply (stop_after_select_leaves_a_signal (ext := linux) _ 0 false).
  reflexivity.
Defined.

Lemma stale_signal_witness :
  lastOutput
    (spinner
       (execAll (ext := linux)
          [Fg CStart; Bg 0; Bg 0; Fg CStop; Fg CStart; Bg 0; Bg 0]
          (execAll (ext := linux) [Fg CStart; Bg 0; Fg CStop; Bg 0]
             (boot [] (fun _ => ""))))) = "" /\
  (forall t,
     In t (tasks
             (execAll (ext := linux)
                [Fg CStart; Bg 0; Bg 0; Fg CStop; Fg CStart; Bg 0; Bg 0]
                (execAll (ext := linux) [Fg CStart; Bg 0; Fg CStop; Bg 0]
                   (boot [] (fun _ => ""))))) ->
     t = AtSelect 0) /\
  (List.length
     (tasks
        (execAll (ext := linux)
           [Fg CStart; Bg 0; Bg 0; Fg CStop; Fg CStart; Bg 0; Bg 0]
           (execAll (ext := linux) [Fg CStart; Bg 0; Fg CStop; Bg 0]
              (boot [] (fun _ => ""))))) <= 1)%nat.
Proof.
  apply (stale_signal_stops_every_later_animation (ext := linux)).
  reflexivity.
Defined.

Lemma Stop_writes_witness :
  exists st' x,
    Stop (ext := linux)
      (exec (ext := linux) (boot [WithStopMessage "done"] (fun _ => ""))
         (Fg CStart))
    = (Returned tt, st') /\
    sinks st' Stderr = "" ++ x ++ withNewline "done" /\
    stopMsg (spinner st') = withNewline "done" /\
    active (spinner st') = false /\ lastOutput (spinner st') = "" /\
    mu (spinner st') = false /\ stopChan (spinner st') = 1%nat.
Proof.
  apply (Stop_writes_the_stop_message (ext := linux)
           (exec (ext := linux) (boot [WithStopMessage "done"] (fun _ => ""))
              (Fg CStart))).
  - reflexivity.
  - reflexivity.
  - reflexivity.
Defined.

Lemma Debugf_witness :
  Debugf "note" (boot [] (fun _ => ""))
  = (Returned tt, boot [] (fun _ => "")) /\
  sinks (execAll (ext := linux) [Fg (CDebugf "note"); Bg 0]
           (execAll (ext := linux) [Fg CStart; Bg 0]
              (boot [WithDebugWriter 7%nat] (fun _ => "")))) 7%nat
  = "" ++ spec_lines [] ++ "note" ++ LF.
Proof.
  split.
  - apply (proj1 (Debugf_reaches_the_debug_writer (ext := linux)
                    (boot [] (fun _ => "")) "note")).
    reflexivity.
  - apply (proj2 (Debugf_reaches_the_debug_writer (ext := linux)
                    (execAll (ext := linux) [Fg CStart; Bg 0]
                       (boot [WithDebugWriter 7%nat] (fun _ => "")))
                    "note") 7%nat 0%nat 0%nat).
    + reflexivity.
    + vm_compute. discriminate.
    + reflexivity.
    + reflexivity.
    + reflexivity.
Defined.

Lemma pending_debug_messages_witness :
  debugw (spinner (execAll (ext := linux)
                     [Fg (CIncWithMessage "b"); Bg 0; Bg 0; Fg CStop]
                     (execAll (ext := linux) [Fg CStart; Fg (CIncWithMessage "a")]
                        (boot [WithCount 3] (fun _ => ""))))) = None /\
  exists more,
    debugMsgs (spinner (execAll (ext := linux)
                          [Fg (CIncWithMessage "b"); Bg 0; Bg 0; Fg CStop]
                          (execAll (ext := linux)
                             [Fg CStart; Fg (CIncWithMessage "a")]
                             (boot [WithCount 3] (fun _ => "")))))
    = (debugMsgs (spinner (execAll (ext := linux)
                             [Fg CStart; Fg (CIncWithMessage "a")]
                             (boot [WithCount 3] (fun _ => ""))))
       ++ more)%list.
Proof.
  apply (pending_debug_messages_are_kept (ext := linux)).
  reflexivity.
Defined.

(** ** Calls that wait *)

Section Deadlocks.
Context {ext : Externals}.

Lemma hasSelect_app (ts : list Task) (i : nat) :
  hasSelect (ts ++ [AtSelect i]) = true.
Proof.
  unfold hasSelect. rewrite existsb_app. cbn. now rewrite orb_true_r.
Qed.

Lemma hasSelect_replace (ts : list Task) (j i : nat) (t : Task) :
  nth_error ts j = Some t ->
  hasSelect (replaceTask ts j (Some (AtSelect i))) = true.
Proof.
  unfold hasSelect. revert j. induction ts as [|x ts IH]; intros j H;
    [now destruct j|].
  destruct j as [|j]; cbn in *; [reflexivity|].
  now rewrite (IH j H), orb_true_r.
Qed.

Lemma hasSelect_nth (ts : list Task) :
  hasSelect ts = true -> exists j i, nth_error ts j = Some (AtSelect i).
Proof.
  unfold hasSelect. induction ts as [|x ts IH]; intros H; [discriminate|].
  cbn in H. destruct x as [i|i].
  - now exists 0%nat, i.
  - cbn in H. destruct (IH H) as [j [i' E]]. now exists (S j), i'.
Qed.

Lemma releasable_step (a : Action) (p : bool) (k : Ctl) :
  releasable k -> releasable (ctlStep a p k).
Proof.
  unfold releasable. destruct k as [m ac c s ts d].
  cbn [c_mu c_active c_chan c_susp c_tasks c_drawn].
  intros (Hc & Hs & Ha).
  destruct a as [call|j]; cbn [ctlStep].
  - destruct call; cbn [ctlCall c_mu c_active c_chan c_susp c_tasks c_drawn];
      try (split; [|split]; assumption).
    + destruct m, ac; cbn [orb c_mu c_active c_chan c_susp c_tasks];
        try (split; [|split]; assumption).
      destruct s; [destruct (Hs eq_refl); discriminate|].
      destruct p; cbn [c_mu c_active c_chan c_susp c_tasks].
      * split; [exact Hc|]. split; intros; discriminate.
      * split; [exact Hc|]. split; [intros; discriminate|].
        intros. apply hasSelect_app.
    + destruct m, ac; cbn [orb negb c_mu c_active c_chan c_susp c_tasks];
        try (split; [|split]; assumption).
      destruct s; [destruct (Hs eq_refl); discriminate|].
      destruct (Nat.ltb_spec c 1); cbn [c_mu c_active c_chan c_susp c_tasks].
      * split; [lia|]. split; intros; discriminate.
      * assert (c = 1%nat) by lia. subst c.
        split; [lia|]. split; [|intros; discriminate].
        intros _. repeat split. now apply Ha.
  - unfold ctlTask. cbn [c_mu c_active c_chan c_susp c_tasks c_drawn].
    destruct (nth_error ts j) as [[i|i]|] eqn:Hn;
      [| |split; [|split]; assumption].
    + destruct (Nat.ltb_spec 0 c).
      * assert (c = 1%nat) by lia. subst c.
        destruct s; cbn [c_mu c_active c_chan c_susp c_tasks Nat.pred].
        -- destruct (Hs eq_refl) as (_ & -> & _).
           split; [lia|]. split; intros; discriminate.
        -- split; [lia|]. split; intros; discriminate.
      * assert (c = 0%nat) by lia. subst c.
        cbn [c_mu c_active c_chan c_susp c_tasks].
        split; [lia|]. split.
        -- intros E. destruct (Hs E) as (_ & _ & ? & _). discriminate.
        -- intros; discriminate.
    + destruct m; cbn [c_mu c_active c_chan c_susp c_tasks];
        [split; [|split]; assumption|].
      destruct s; [destruct (Hs eq_refl); discriminate|].
      destruct ac; cbn [c_mu c_active c_chan c_susp c_tasks].
      * split; [exact Hc|]. split; [intros; discriminate|].
        intros. now apply (hasSelect_replace ts j _ (AtLock i)).
      * split; [exact Hc|]. split; intros; discriminate.
Qed.

Lemma lockedForGood_step (a0 d0 : bool) (a : Action) (p : bool) (k : Ctl) :
  lockedForGood a0 d0 k -> lockedForGood a0 d0 (ctlStep a p k).
Proof.
  unfold lockedForGood. destruct k as [m ac c s ts d].
  cbn [c_mu c_active c_chan c_susp c_tasks c_drawn].
  intros (-> & -> & -> & ->).
  destruct a as [call|j]; cbn [ctlStep].
  - destruct call; cbn; now repeat split.
  - unfold ctlTask. cbn [c_mu c_active c_chan c_susp c_tasks c_drawn].
    destruct (nth_error ts j) as [[i|i]|]; [| |now repeat split].
    + destruct (0 <? c)%nat; cbn; now repeat split.
    + cbn. now repeat split.
Qed.

Lemma Lock_blocks {A} (k : unit -> M A) (st : World) :
  mu (spinner st) = true -> fst (bind Lock k st) = Blocked.
Proof. intros H. unfold bind. now rewrite Lock_locked. Qed.

(** X18.  A [Stop] that waits for room in the channel is always released:
    in every state a new spinner can reach, when a [Stop] is suspended in
    its send there is a goroutine whose next step receives from the channel,
    after which the [Stop] has run to its end and unlocked the mutex. *)
Theorem suspended_Stop_is_released (opts : list Option)
    (sk : Writer -> string) (acts : list Action) :
  suspended (execAll acts (boot opts sk)) = true ->
  exists j,
    suspended (exec (execAll acts (boot opts sk)) (Bg j)) = false /\
    mu (spinner (exec (execAll acts (boot opts sk)) (Bg j))) = false /\
    active (spinner (exec (execAll acts (boot opts sk)) (Bg j))) = false.
Proof.
  intros H.
  assert (K : releasable (ctl (execAll acts (boot opts sk)))).
  { apply ctl_invariant; [apply releasable_step|].
    rewrite New_ctl. unfold releasable, atRest. cbn.
    split; [lia|]. split; intros; discriminate. }
  destruct K as (_ & Ks & _). cbn [ctl c_mu c_active c_chan c_susp c_tasks] in Ks.
  destruct (Ks H) as (Hm & Ha & Hc & Ht).
  destruct (hasSelect_nth _ Ht) as [j [i Hj]].
  exists j.
  pose proof (act_ctl (Bg j) (execAll acts (boot opts sk))) as E.
  cbn [ctlStep] in E. unfold ctlTask in E.
  cbn [ctl c_mu c_active c_chan c_susp c_tasks c_drawn] in E.
  rewrite Hj, Hc, H, Ha in E. cbn [Nat.ltb Nat.leb] in E.
  inversion E as [[E1 E2 E3 E4 E5 E6]]. now repeat split.
Qed.

(** X19.  A [Start] that panics in [setMsg] leaves the mutex locked for
    good: after any later calls and goroutine steps it is still locked, the
    spinner is still marked active, and [Start], [Stop] and
    [IncWithMessage] wait for it without end. *)
Theorem panicking_Start_locks_for_good (st : World) (acts : list Action)
    (m : string) :
  suspended st = false -> fst (Start st) = Panicked ->
  mu (spinner (execAll acts (snd (Start st)))) = true /\
  active (spinner (execAll acts (snd (Start st)))) = true /\
  fst (Start (execAll acts (snd (Start st)))) = Blocked /\
  fst (Stop (execAll acts (snd (Start st)))) = Blocked /\
  fst (IncWithMessage m (execAll acts (snd (Start st)))) = Blocked.
Proof.
  intros Hs Hp.
  assert (Hmu : mu (spinner st) = false).
  { destruct (mu (spinner st)) eqn:E; [|reflexivity].
    unfold Start in Hp. now rewrite Lock_blocks in Hp. }
  assert (Ha : active (spinner st) = false).
  { destruct (active (spinner st)) eqn:E; [|reflexivity].
    now rewrite Start_active in Hp. }
  assert (K : lockedForGood true
                (negb (String.eqb (lastOutput (spinner st)) ""))
                (ctl (execAll acts (snd (Start st))))).
  { apply ctl_invariant; [intros a p k; apply lockedForGood_step|].
    rewrite Start_ctl, Hp. unfold ctl, lockedForGood. cbn.
    rewrite Hmu, Ha, Hs. cbn. now repeat split. }
  destruct K as (Km & _ & Ka & _). cbn [ctl c_mu c_active] in Km, Ka.
  repeat split; try assumption.
  - unfold Start. now apply Lock_blocks.
  - unfold Stop. now apply Lock_blocks.
  - unfold IncWithMessage. now apply Lock_blocks.
Qed.

End Deadlocks.

Lemma suspended_Stop_witness :
  exists j,
    suspended
      (exec (ext := linux)
         (execAll (ext := linux)
            [Fg CStart; Bg 0; Fg CStop; Fg CStart; Fg CStop]
            (boot [] (fun _ => ""))) (Bg j)) = false /\
    mu (spinner
          (exec (ext := linux)
             (execAll (ext := linux)
                [Fg CStart; Bg 0; Fg CStop; Fg CStart; Fg CStop]
                (boot [] (fun _ => ""))) (Bg j))) = false /\
    active (spinner
              (exec (ext := linux)
                 (execAll (ext := linux)
                    [Fg CStart; Bg 0; Fg CStop; Fg CStart; Fg CStop]
                    (boot [] (fun _ => ""))) (Bg j))) = false.
Proof.
  apply (suspended_Stop_is_released (ext := linux) []  (fun _ => "")
           [Fg CStart; Bg 0; Fg CStop; Fg CStart; Fg CStop]).
  reflexivity.
Defined.

Lemma panicking_Start_witness :
  mu (spinner (execAll (ext := linux) [Fg CStop; Bg 0; Fg CInc]
                 (snd (Start
                         (boot [WithStartMessage LF] (fun _ => ""))))))
  = true /\
  active (spinner (execAll (ext := linux) [Fg CStop; Bg 0; Fg CInc]
                     (snd (Start
                             (boot [WithStartMessage LF] (fun _ => ""))))))
  = true /\
  fst (Start
         (execAll (ext := linux) [Fg CStop; Bg 0; Fg CInc]
            (snd (Start
                    (boot [WithStartMessage LF] (fun _ => ""))))))
  = Blocked /\
  fst (Stop (ext := linux)
         (execAll (ext := linux) [Fg CStop; Bg 0; Fg CInc]
            (snd (Start
                    (boot [WithStartMessage LF] (fun _ => ""))))))
  = Blocked /\
  fst (IncWithMessage "next"
         (execAll (ext := linux) [Fg CStop; Bg 0; Fg CInc]
            (snd (Start
                    (boot [WithStartMessage LF] (fun _ => ""))))))
  = Blocked.
Proof.
  apply (panicking_Start_locks_for_good (ext := linux)
           (boot [WithStartMessage LF] (fun _ => ""))
           [Fg CStop; Bg 0; Fg CInc] "next").
  - reflexivity.
  - reflexivity.
Defined.

(** ** The output and [lastOutput] *)

Section Output.
Context {ext : Externals}.

Lemma sameOut_refl (st : World) : sameOut st st.
Proof. now repeat split. Qed.

Lemma sameOut_trans (a b c : World) :
  sameOut a b -> sameOut b c -> sameOut a c.
Proof.
  unfold sameOut. intros (H1 & H2 & H3) (H4 & H5 & H6).
  repeat split; congruence.
Qed.

Lemma sameOut_shown (st st' : World) : sameOut st st' -> shown st -> shown st'.
Proof.
  unfold sameOut, shown. intros (H1 & H2 & H3) [x Hx].
  exists x. now rewrite H1, H2, H3.
Qed.

Lemma shown_empty (st : World) : lastOutput (spinner st) = "" -> shown st.
Proof.
  intros H. exists (sinks st (w (spinner st))). now rewrite H, sapp_nil_r.
Qed.

Lemma setMsg_sameOut (m : string) : preserves sameOut (setMsg m).
Proof.
  intros st. pose proof (setMsg_sameButMsg m st) as H. unfold sameButMsg in H.
  repeat match goal with H : _ /\ _ |- _ => destruct H end.
  repeat split; assumption.
Qed.

Lemma Lock_sameOut : preserves sameOut Lock.
Proof. intros st. unfold Lock. destruct (mu (spinner st)); now repeat split. Qed.

Ltac out_structure :=
  pose proof sameOut_refl as R_refl; pose proof sameOut_trans as R_trans;
  repeat first
    [ apply setMsg_sameOut
    | apply Lock_sameOut
    | apply preserves_ret; assumption
    | apply preserves_panic; assumption
    | apply preserves_block; assumption
    | apply preserves_field; assumption
    | apply preserves_at; assumption
    | apply preserves_sub; assumption
    | apply preserves_bind; [assumption | | intros ?]
    | apply preserves_deferUnlock; [assumption | | ]
    | match goal with
      | |- preserves _ (if ?b then _ else _) => destruct b
      | |- preserves _ (match ?x with Some _ => _ | None => _ end) => destruct x
      end ];
  try (intros st; repeat split; reflexivity).

Lemma Start_sameOut : preserves sameOut Start.
Proof. unfold Start, go_run. out_structure. Qed.

Lemma IncWithMessage_sameOut (m : string) : preserves sameOut (IncWithMessage m).
Proof. unfold IncWithMessage. out_structure. Qed.

Lemma Debugf_sameOut (f : string) : preserves sameOut (Debugf f).
Proof. unfold Debugf. out_structure. Qed.

Lemma stopTail_shown (st : World) : shown (snd (deferUnlock stopTail st)).
Proof.
  destruct (stopTail_any st) as [sk1 [_ E]].
  rewrite (deferUnlock_returned _ _ _ _ E). apply shown_empty.
  cbn [snd Unlock spinner set_mu lastOutput].
  apply stopped_cycle.
Qed.

Lemma Stop_shown (st : World) : shown st -> shown (snd (Stop st)).
Proof.
  intros H.
  destruct (mu (spinner st)) eqn:Hmu.
  { unfold Stop, bind. now rewrite Lock_locked. }
  destruct (active (spinner st)) eqn:Ha.
  2:{ now rewrite Stop_inactive. }
  unfold Stop.
  erewrite bind_returned by (apply Lock_free; exact Hmu).
  destruct (stopChan (spinner st) <? 1)%nat eqn:Hc.
  - match goal with |- context [deferUnlock ?body ?s1] =>
      assert (B : exists sk',
                body s1
                = (Returned tt,
                   mkWorld (stopped (set_stopChan (S (stopChan (spinner st)))
                                       (set_active false (set_mu true (spinner st)))))
                           sk' (tasks st) (suspended st)))
    end.
    { erewrite bind_returned by reflexivity.
      cbn [spinner active set_mu]. rewrite Ha. cbn [negb].
      erewrite bind_returned by reflexivity.
      unfold send. rewrite bind_assoc. erewrite bind_returned by reflexivity.
      cbn [spinner set_active set_mu stopChan]. rewrite Hc.
      erewrite bind_returned by reflexivity.
      match goal with |- context [stopTail ?s2] =>
        destruct (stopTail_any s2) as [sk1 [_ E]] end.
      rewrite E. eexists. reflexivity. }
    destruct B as [sk' B]. erewrite deferUnlock_returned by exact B.
    apply shown_empty. cbn [snd Unlock spinner set_mu lastOutput].
    apply stopped_cycle.
  - unfold deferUnlock.
    match goal with |- context [bind (field active) ?k ?s1] =>
      assert (B : bind (field active) k s1
                  = (Blocked,
                     mkWorld (set_active false (set_mu true (spinner st)))
                             (sinks st) (tasks st) true))
    end.
    { erewrite bind_returned by reflexivity.
      cbn [spinner active set_mu]. rewrite Ha. cbn [negb].
      erewrite bind_returned by reflexivity.
      unfold send. rewrite bind_assoc.
      unfold bind at 1. cbn [field spinner set_active set_mu stopChan].
      rewrite Hc. reflexivity. }
    rewrite B. exact H.
Qed.

Lemma taskStep_shown (j : nat) (st : World) :
  shown st -> shown (snd (taskStep j st)).
Proof.
  intros H. unfold taskStep.
  destruct (nth_error (tasks st) j) as [[i|i]|]; [| |exact H].
  - destruct (0 <? stopChan (spinner st))%nat eqn:Hc; [|exact H].
    erewrite bind_returned by reflexivity.
    erewrite bind_returned by reflexivity.
    destruct (suspended st) eqn:Hs; [|exact H].
    erewrite bind_returned by reflexivity.
    erewrite bind_returned by reflexivity.
    apply stopTail_shown.
  - destruct (mu (spinner st)) eqn:Hmu.
    { unfold frame, bind. now rewrite Lock_locked. }
    destruct (active (spinner st)) eqn:Ha.
    + destruct (frame_any i st Hmu Ha) as [sk1 [_ E]].
      erewrite bind_returned by exact E.
      cbn [snd setTasks]. unfold shown. cbn [spinner sinks].
      assert (Ew : w (erased (set_mu true (spinner st))) = w (spinner st))
        by (unfold erased; now destruct (debugw _)).
      cbn [set_mu set_lastOutput w lastOutput]. rewrite Ew. cbn [set_mu w].
      exists (sk1 (w (spinner st))). apply writeTo_same.
    + rewrite (bind_returned _ _ _ _ _ (frame_inactive i st Hmu Ha)). exact H.
Qed.

Lemma act_shown (a : Action) (st : World) : shown st -> shown (exec st a).
Proof.
  intros H. unfold exec. destruct a as [c|j]; cbn [act];
    [|now apply taskStep_shown].
  destruct c; cbn [call].
  - exact (sameOut_shown _ _ (Start_sameOut st) H).
  - now apply Stop_shown.
  - exact (sameOut_shown _ _ (IncWithMessage_sameOut _ st) H).
  - exact (sameOut_shown _ _ (IncWithMessage_sameOut _ st) H).
  - exact (sameOut_shown _ _ (IncWithMessage_sameOut _ st) H).
  - exact (sameOut_shown _ _ (Debugf_sameOut _ st) H).
Qed.

(** X22.  What [erase] counts is what was written last: after any calls
    and goroutine steps on a new spinner, what the output writer has
    received ends with [lastOutput]. *)
Theorem lastOutput_ends_the_output (opts : list Option)
    (sk : Writer -> string) (acts : list Action) :
  exists x,
    sinks (execAll acts (boot opts sk))
      (w (spinner (execAll acts (boot opts sk))))
    = x ++ lastOutput (spinner (execAll acts (boot opts sk))).
Proof.
  assert (G : forall st, shown st -> shown (execAll acts st)).
  { induction acts as [|a acts IH]; intros st H; [exact H|].
    cbn [execAll fold_left]. apply IH. now apply act_shown. }
  apply G. apply shown_empty. cbn [boot spinner].
  pose proof (f_equal c_drawn (New_ctl opts sk)) as E.
  cbn [ctl c_drawn atRest boot spinner] in E.
  now apply negb_false_iff, String.eqb_eq in E.
Qed.

End Output.

(** ** [setMsg] of the variant without the debug writer *)

Lemma old_setMsg_cases (st : World) (m : string) :
  m <> "" ->
  SpinnerOld.setMsg m st =
  if (len m >? maxMsgLen (spinner st)) && (maxMsgLen (spinner st) <? 0)
  then (Panicked, st)
  else
    (Returned tt,
     mkWorld
       (set_msg (spec_padded (spec_truncated (maxMsgLen (spinner st)) m))
          (spinner st))
       (sinks st) (tasks st) (suspended st)).
Proof.
  intros Hm. unfold SpinnerOld.setMsg, spec_truncated.
  destruct (String.eqb_spec m "") as [E|_]; [contradiction|].
  step ltac:(reflexivity).
  set (mx := maxMsgLen (spinner st)) in *.
  rewrite Z.gtb_ltb.
  assert (P : forall m2, m2 <> "" ->
            (c0 <- at_ m2 0 ;;
             assign (set_msg (if negb (Ascii.eqb c0 " ") then " " ++ m2 else m2)))
              st
            = (Returned tt,
               mkWorld (set_msg (spec_padded m2) (spinner st)) (sinks st)
                       (tasks st) (suspended st))).
  { intros m2 N2. destruct m2 as [|c0 r] eqn:E2; [contradiction|].
    step ltac:(apply at_index; apply index_head).
    unfold spec_padded. cbn [spec_startsWithSpace].
    now destruct (Ascii.eqb c0 " "). }
  destruct (Z.ltb_spec mx (len m)) as [L|L].
  - destruct (Z.ltb_spec mx 0) as [Neg|Pos]; cbn [andb].
    + apply bind_panicked. apply bind_panicked. apply sub_panics.
      now apply slice_negative.
    + step ltac:(erewrite bind_returned;
                 [reflexivity | apply sub_slice, slice_firstChars; lia]).
      apply P. destruct (spec_firstChars mx m); discriminate.
  - cbn [andb]. step ltac:(reflexivity). now apply P.
Qed.

Lemma endsWithNewline_sound (m : string) :
  endsWithNewline m = false -> forall p, m <> p ++ LF.
Proof.
  intros H p E. subst m. unfold endsWithNewline in H.
  change LF with (String LFc "") in H. rewrite index_last in H.
  now rewrite Ascii.eqb_refl in H.
Qed.

(** X23.  The [setMsg] of the variant without the debug writer: with a
    threshold that is not negative it returns for every message, a lone
    line terminator included, and sets the message to the truncated and
    padded argument.  On a message that does not end with a line terminator
    both variants end the same way and set the same message. *)
Theorem old_setMsg_and_new (st : World) (m : string) :
  m <> "" ->
  (0 <= maxMsgLen (spinner st) ->
   SpinnerOld.setMsg m st
   = (Returned tt,
      mkWorld
        (set_msg (spec_padded (spec_truncated (maxMsgLen (spinner st)) m))
           (spinner st))
        (sinks st) (tasks st) (suspended st))) /\
  (endsWithNewline m = false ->
   fst (SpinnerOld.setMsg m st) = fst (setMsg m st) /\
   msg (spinner (snd (SpinnerOld.setMsg m st)))
   = msg (spinner (snd (setMsg m st)))).
Proof.
  intros Hm. rewrite (old_setMsg_cases st m Hm). split.
  - intros H. replace (maxMsgLen (spinner st) <? 0) with false
      by (symmetry; apply Z.ltb_ge; exact H).
    now rewrite andb_false_r.
  - intros Hp.
    assert (Hs : spec_stripped m m)
      by (right; split; [reflexivity | now apply endsWithNewline_sound]).
    rewrite (setMsg_cases st m m Hm Hs).
    destruct (String.eqb_spec m "") as [E|_]; [contradiction|].
    cbn [orb]. unfold spec_truncated.
    destruct ((len m >? maxMsgLen (spinner st)) && (maxMsgLen (spinner st) <? 0));
      now split.
Qed.

Lemma old_setMsg_witness :
  SpinnerOld.setMsg LF (boot [] (fun _ => ""))
  = (Returned tt,
     mkWorld (set_msg (spec_padded (spec_truncated 80 LF)) (New []))
             (fun _ => "") [] false) /\
  fst (SpinnerOld.setMsg "loading" (boot [] (fun _ => "")))
  = fst (setMsg "loading" (boot [] (fun _ => ""))) /\
  msg (spinner (snd (SpinnerOld.setMsg "loading" (boot [] (fun _ => "")))))
  = msg (spinner (snd (setMsg "loading" (boot [] (fun _ => ""))))).
Proof.
  split.
  - apply (proj1 (old_setMsg_and_new (boot [] (fun _ => "")) LF
                    ltac:(discriminate))).
    vm_compute. discriminate.
  - apply (proj2 (old_setMsg_and_new (boot [] (fun _ => "")) "loading"
                    ltac:(discriminate))).
    reflexivity.
Defined.

End SpinnerProofs.
